(** * opencode-mechanical-refactor: compiler-feedback repair loop

    Shallow embedding of [src/index.ts] (diagnostic extraction, retry loop,
    per-file pipeline) and [src/opencode.ts] (response extraction, stream
    relay, prompt exchange), and the properties of the specification that
    were checked against it. *)

From Stdlib Require Import List NArith String Ascii Bool Arith Lia DecimalString.
Import ListNotations.

Set Implicit Arguments.

(** ** JavaScript strings

    A JavaScript string is a sequence of UTF-16 code units; regular
    expressions without the [u] flag, [split], [trim] and [===] all work on
    code units.  A code unit is a number [N]. *)

Module JS.

Definition char := N.
Definition jsstring := list char.

(** A string literal of the source, as code units. *)
Definition lit (s : string) : jsstring :=
  map N_of_ascii (list_ascii_of_string s).

Definition char_eqb (a b : char) : bool := N.eqb a b.

Fixpoint str_eqb (a b : jsstring) : bool :=
  match a, b with
  | [], [] => true
  | x :: a', y :: b' => char_eqb x y && str_eqb a' b'
  | _, _ => false
  end.

(** ECMAScript WhiteSpace and LineTerminator: the class [\s] of regular
    expressions, and what [trim], [trimEnd] remove. *)
Definition is_space (c : char) : bool :=
  ((9 <=? c) && (c <=? 13) || (c =? 32) || (c =? 160) || (c =? 5760)
   || (8192 <=? c) && (c <=? 8202) || (c =? 8232) || (c =? 8233)
   || (c =? 8239) || (c =? 8287) || (c =? 12288) || (c =? 65279))%N.

(** [String.prototype.trimEnd]. *)
Fixpoint trimEnd (s : jsstring) : jsstring :=
  match s with
  | [] => []
  | c :: t =>
      match trimEnd t with
      | [] => if is_space c then [] else [c]
      | t' => c :: t'
      end
  end.

(** [String.prototype.trimStart]. *)
Fixpoint trimStart (s : jsstring) : jsstring :=
  match s with
  | [] => []
  | c :: t => if is_space c then trimStart t else s
  end.

(** [String.prototype.trim]. *)
Definition trim (s : jsstring) : jsstring := trimEnd (trimStart s).

(** [s.split(sep)] for a one-character separator: never the empty list. *)
Fixpoint split (sep : char) (s : jsstring) : list jsstring :=
  match s with
  | [] => [[]]
  | c :: t =>
      if char_eqb c sep then [] :: split sep t
      else match split sep t with
           | h :: r => (c :: h) :: r
           | [] => [[c]]
           end
  end.

(** [s.split(/[...]/)] for a separator that is one character of a class. *)
Fixpoint split_cls (p : char -> bool) (s : jsstring) : list jsstring :=
  match s with
  | [] => [[]]
  | c :: t =>
      if p c then [] :: split_cls p t
      else match split_cls p t with
           | h :: r => (c :: h) :: r
           | [] => [[c]]
           end
  end.

(** [parts.join(sep)]. *)
Fixpoint join (sep : jsstring) (l : list jsstring) : jsstring :=
  match l with
  | [] => []
  | [a] => a
  | a :: r => a ++ sep ++ join sep r
  end.

(** [a ?? ""] on a possibly undefined string. *)
Definition or_empty (o : option jsstring) : jsstring :=
  match o with Some s => s | None => [] end.

End JS.

Import JS.

(** ** Regular expressions

    The fragment of ECMAScript regular expressions the sources use, with
    the backtracking order of the language: [run r st] lists the ways [r]
    can match at [st] in the order the engine tries them, so that the
    match the engine reports is the head of the list. *)

Module Regex.

Inductive re : Type :=
| Bol                          (* ^ (no m flag) *)
| Eps
| Cls (p : char -> bool)       (* one character of a class *)
| Seq (a b : re)
| Alt (a b : re)               (* a|b : a first *)
| Star (p : char -> bool)      (* p* greedy, p a class *)
| StarLazy (p : char -> bool)  (* p*? *)
| Group (a : re).              (* capturing group 1 *)

Definition Opt (a : re) : re := Alt a Eps.           (* a? greedy *)
Definition Plus (p : char -> bool) : re := Seq (Cls p) (Star p).  (* p+ *)

Fixpoint Lit (s : jsstring) : re :=
  match s with
  | [] => Eps
  | c :: t => Seq (Cls (char_eqb c)) (Lit t)
  end.

Record mstate : Type := MState {
  pos : nat;                   (* index of the next character *)
  rest : jsstring;             (* input from [pos] on *)
  cap : option jsstring        (* group 1, [None] when undefined *)
}.

(** Remainders after [p*], longest run first. *)
Fixpoint star_greedy (p : char -> bool) (n : nat) (s : jsstring)
  : list (nat * jsstring) :=
  match s with
  | c :: t => if p c then star_greedy p (S n) t ++ [(n, s)] else [(n, s)]
  | [] => [(n, [])]
  end.

(** Remainders after [p*?], shortest run first. *)
Fixpoint star_lazy (p : char -> bool) (n : nat) (s : jsstring)
  : list (nat * jsstring) :=
  match s with
  | c :: t => if p c then (n, s) :: star_lazy p (S n) t else [(n, s)]
  | [] => [(n, [])]
  end.

Fixpoint run (r : re) (st : mstate) : list mstate :=
  match r with
  | Bol => match pos st with O => [st] | S _ => [] end
  | Eps => [st]
  | Cls p =>
      match rest st with
      | c :: t => if p c then [MState (S (pos st)) t (cap st)] else []
      | [] => []
      end
  | Seq a b => flat_map (run b) (run a st)
  | Alt a b => run a st ++ run b st
  | Star p =>
      map (fun '(n, s) => MState n s (cap st)) (star_greedy p (pos st) (rest st))
  | StarLazy p =>
      map (fun '(n, s) => MState n s (cap st)) (star_lazy p (pos st) (rest st))
  | Group a =>
      map (fun st' =>
             MState (pos st') (rest st')
                    (Some (firstn (pos st' - pos st) (rest st))))
          (run a st)
  end.

(** [RegExp.prototype.exec] without the [g] flag: the first start position,
    from the left, at which the expression matches; the result is
    group 1 of the match. *)
Fixpoint exec_from (r : re) (n : nat) (s : jsstring) : option (option jsstring) :=
  match run r (MState n s None) with
  | m :: _ => Some (cap m)
  | [] =>
      match s with
      | [] => None
      | _ :: t => exec_from r (S n) t
      end
  end.

(** [s.match(r)], reduced to its group 1. *)
Definition exec (r : re) (s : jsstring) : option (option jsstring) :=
  exec_from r 0 s.

(** Character classes of the sources. *)
Definition any_char (c : char) : bool := is_space c || negb (is_space c). (* [\s\S] *)
Definition dot (c : char) : bool :=                                       (* . *)
  negb ((c =? 10) || (c =? 13) || (c =? 8232) || (c =? 8233))%N.
Definition digit (c : char) : bool := ((48 <=? c) && (c <=? 57))%N.       (* \d *)

End Regex.

Import Regex.

Declare Scope re_scope.
Delimit Scope re_scope with re.
Infix ">>" := Seq (at level 61, right associativity) : re_scope.

(** ** Response extraction ([extractCode], opencode.ts) *)

Inductive Part : Type :=
| TextPart (text : jsstring)          (* { type: "text", text } *)
| OtherPart (type : jsstring).        (* a file attachment or any other part *)

(** The loop that collects [textParts]: a part counts when its type is
    ["text"] and its text is truthy, that is not empty. *)
Fixpoint textParts (parts : list Part) : list jsstring :=
  match parts with
  | [] => []
  | TextPart (c :: t) :: r => (c :: t) :: textParts r
  | _ :: r => textParts r
  end.

Definition backtick : char := 96%N.
Definition newline : char := 10%N.
Definition fence : jsstring := lit "```".

(** /```(?:csharp|cs)?\s*\n([\s\S]*?)```/ *)
Definition fence_re : re :=
  (Lit (lit "```") >> Opt (Alt (Lit (lit "csharp")) (Lit (lit "cs"))) >>
   Star is_space >> Cls (char_eqb newline) >>
   Group (StarLazy any_char) >> Lit (lit "```"))%re.

Definition extractCode (parts : list Part) : jsstring :=
  let text := join [newline] (textParts parts) in
  match exec fence_re text with
  | Some m => trimEnd (or_empty m) ++ [newline]
  | None => trimEnd text ++ [newline]
  end.

(** ** Paths

    Modelled from the spec: [resolve] of node:path is a library function, not
    code of this repository; the specification has it "resolve to an absolute
    path" with "path normalization".  The extraction functions below take it
    as a parameter; [posix_resolve] is the POSIX behaviour for one argument
    (absolute paths are kept, relative ones are taken from the working
    directory; empty, [.] and [..] segments are normalised away), used to
    evaluate the functions on concrete inputs. *)

Module Path.

Definition slash : char := 47%N.

Fixpoint normalize (stack : list jsstring) (segs : list jsstring) : list jsstring :=
  match segs with
  | [] => rev stack
  | seg :: r =>
      if str_eqb seg [] || str_eqb seg (lit ".") then normalize stack r
      else if str_eqb seg (lit "..") then normalize (tl stack) r
      else normalize (seg :: stack) r
  end.

Definition posix_resolve (cwd : jsstring) (p : jsstring) : jsstring :=
  let full :=
    match p with
    | [] => cwd
    | c :: _ => if char_eqb c slash then p else cwd ++ [slash] ++ p
    end in
  slash :: join [slash] (normalize [] (split slash full)).

End Path.

(** ** Diagnostic extraction ([getBuildErrorFiles], [getBuildErrors], index.ts) *)

Inductive ExecResult : Type :=
| ExecOk (stdout : jsstring)                       (* execSync returns *)
| ExecErr (stdout stderr : option jsstring).       (* execSync throws err *)

(** The [try { output = execSync(..) } catch { output = .. }] of both functions. *)
Definition build_output (r : ExecResult) : jsstring :=
  match r with
  | ExecOk out => out
  | ExecErr out err => or_empty out ++ [newline] ++ or_empty err
  end.

Definition is_open (c : char) : bool := ((c =? 91) || (c =? 40))%N.    (* [\[(] *)
Definition is_close (c : char) : bool := ((c =? 93) || (c =? 41))%N.   (* [\])] *)
Definition is_sep (c : char) : bool := ((c =? 44) || (c =? 59))%N.     (* [,;] *)

(** [\[(]\d+[,;]\d+[\])]\s*:\s*error\s, the part both expressions share. *)
Definition location_error_re : re :=
  (Cls is_open >> Plus digit >> Cls is_sep >> Plus digit >> Cls is_close >>
   Star is_space >> Lit (lit ":") >> Star is_space >> Lit (lit "error") >>
   Cls is_space)%re.

(** The expression of [getBuildErrorFiles], token by token:
    ^ \s* ( .* \.cs ) [\[(] \d+ [,;] \d+ [\])] \s* : \s* error \s *)
Definition errfile_re : re :=
  (Bol >> Star is_space >> Group (Star dot >> Lit (lit ".cs")) >>
   location_error_re)%re.

(** The expression of [getBuildErrors], token by token:
    ^ \s* ( .* \.cs [\[(] \d+ [,;] \d+ [\])] \s* : \s* error \s .* ) *)
Definition errline_re : re :=
  (Bol >> Star is_space >>
   Group (Star dot >> Lit (lit ".cs") >> location_error_re >> Star dot))%re.

(** [Set.prototype.add]: a JavaScript [Set] keeps insertion order. *)
Definition set_add (x : jsstring) (s : list jsstring) : list jsstring :=
  if existsb (str_eqb x) s then s else s ++ [x].

Definition set_has (x : jsstring) (s : list jsstring) : bool :=
  existsb (str_eqb x) s.

Section Diagnostics.

Variable resolve : jsstring -> jsstring.

(** The loop of [getBuildErrorFiles] over the lines of the output. *)
Definition errorFiles_of (output : jsstring) : list jsstring :=
  fold_left
    (fun errorFiles line =>
       match exec errfile_re line with
       | Some m => set_add (resolve (or_empty m)) errorFiles
       | None => errorFiles
       end)
    (split newline output) [].

(** [match && resolve(match[1].split(/[\[(]/)[0]) === resolved] *)
Definition is_error_for (resolved : jsstring) (line : jsstring) : bool :=
  match exec errline_re line with
  | Some m => str_eqb (resolve (hd [] (split_cls is_open (or_empty m)))) resolved
  | None => false
  end.

(** The loop of [getBuildErrors] over the lines of the output. *)
Definition errors_of (output filePath : jsstring) : list jsstring :=
  let resolved := resolve filePath in
  fold_left
    (fun errors line =>
       if is_error_for resolved line then errors ++ [trim line] else errors)
    (split newline output) [].

End Diagnostics.

(** ** The world outside: file system, service, compiler, console

    The collaborators are oracles of an environment [Env]; what the program
    does to them is recorded, newest first, in the [trace] of the world. *)

Inductive ReqPart : Type :=
| ReqText (text : jsstring)
| ReqFile (mime filename url : jsstring).

Record Props : Type := { sessionID : jsstring; delta : jsstring }.

Inductive Event : Type :=
| EvOpaque                                          (* null, a primitive, or no "type" field *)
| EvTyped (type : jsstring) (properties : option Props).

(** How the event feed stands when the call that subscribed to it settles
    (at the latest when the race of [streamDone] against the one-second
    timer does).  What a feed that is still open does after that is outside
    the model. *)
Inductive StreamEnd : Type :=
| Exhausted     (* the service closed the feed *)
| Pending       (* still open: the timer wins *)
| Broken.       (* iterating the feed threw: [streamDone] is rejected *)

Inductive Subscription : Type :=
| SubscribeFails                                     (* client.event.subscribe() rejects *)
| Subscribed (events : list Event) (ending : StreamEnd).

Inductive Reply (A : Type) : Type :=
| Rejects                                            (* the call throws *)
| NoData                                             (* resolves without data *)
| Data (a : A).
Arguments Rejects {A}.
Arguments NoData {A}.

Inductive Action : Type :=
| ABuild (projectPath : jsstring)                    (* execSync("dotnet build ..") *)
| ACreateSession
| ASubscribe
| APrompt (session : jsstring) (parts : list ReqPart)
| ARead (path : jsstring)
| AWrite (path content : jsstring)
| AWriteFailed (path : jsstring)
| AStdout (text : jsstring)
| AStderr (text : jsstring)
| AExit (code : nat).

Record World : Type := { fs : list (jsstring * jsstring); trace : list Action }.

Record Env : Type := {
  run_build : World -> jsstring -> ExecResult;
  create_session : World -> Reply jsstring;
  subscribe : World -> Subscription;
  prompt_reply : World -> jsstring -> list ReqPart -> Reply (list Part);
  can_write : World -> jsstring -> bool;
  (* for a feed that throws: it does so while the request is still awaited,
     before [Promise.race] gives [streamDone] a handler *)
  throws_while_pending : World -> bool
}.

Fixpoint fs_lookup (path : jsstring) (l : list (jsstring * jsstring)) : option jsstring :=
  match l with
  | [] => None
  | (p, c) :: r => if str_eqb p path then Some c else fs_lookup path r
  end.

(** ** A monad for state, exceptions and [process.exit] *)

Inductive Result (A : Type) : Type :=
| Ok (a : A)
| Throw (err : jsstring)
| Exit (code : nat).
Arguments Throw {A}.
Arguments Exit {A}.

Definition M (A : Type) : Type := World -> Result A * World.

Definition ret {A} (a : A) : M A := fun w => (Ok a, w).

Definition bind {A B} (c : M A) (k : A -> M B) : M B :=
  fun w =>
    match c w with
    | (Ok a, w') => k a w'
    | (Throw e, w') => (Throw e, w')
    | (Exit n, w') => (Exit n, w')
    end.

Definition throw {A} (e : jsstring) : M A := fun w => (Throw e, w).

(** [try { c } catch (err) { h err }]; [process.exit] is not an exception. *)
Definition try_catch {A} (c : M A) (h : jsstring -> M A) : M A :=
  fun w =>
    match c w with
    | (Throw e, w') => h e w'
    | r => r
    end.

Declare Scope monad_scope.
Delimit Scope monad_scope with monad.
Notation "x <- c ;; k" := (bind c (fun x => k))
  (at level 100, c at next level, right associativity) : monad_scope.
Notation "c ;; k" := (bind c (fun _ => k))
  (at level 100, right associativity) : monad_scope.
Open Scope monad_scope.

Definition act (a : Action) : M unit :=
  fun w => (Ok tt, {| fs := fs w; trace := a :: trace w |}).

Definition stdout_write (text : jsstring) : M unit := act (AStdout text).
Definition console_log (text : jsstring) : M unit := act (AStdout (text ++ [newline])).
Definition console_error (text : jsstring) : M unit := act (AStderr (text ++ [newline])).
Definition process_exit {A} (code : nat) : M A :=
  fun w => (Exit code, {| fs := fs w; trace := AExit code :: trace w |}).

Definition nat_str (n : nat) : jsstring :=
  lit (NilZero.string_of_uint (Nat.to_uint n)).

Fixpoint concat_str (l : list jsstring) : jsstring :=
  match l with
  | [] => []
  | a :: r => a ++ concat_str r
  end.

Fixpoint for_each {A} (l : list A) (body : A -> M unit) : M unit :=
  match l with
  | [] => ret tt
  | a :: r => body a ;; for_each r body
  end.

Section Program.

Variable env : Env.
Variable resolve : jsstring -> jsstring.

Definition readFileSync (path : jsstring) : M jsstring :=
  fun w =>
    match fs_lookup path (fs w) with
    | Some c => (Ok c, {| fs := fs w; trace := ARead path :: trace w |})
    | None => (Throw (lit "ENOENT"), {| fs := fs w; trace := ARead path :: trace w |})
    end.

(** A write replaces the whole content, or fails and leaves the file as it was. *)
Definition writeFileSync (path content : jsstring) : M unit :=
  fun w =>
    if can_write env w path
    then (Ok tt, {| fs := (path, content) :: fs w;
                    trace := AWrite path content :: trace w |})
    else (Throw (lit "EACCES"), {| fs := fs w; trace := AWriteFailed path :: trace w |}).

(** *** opencode.ts *)

Definition createSession : M jsstring :=
  fun w =>
    let w' := {| fs := fs w; trace := ACreateSession :: trace w |} in
    match create_session env w with
    | Rejects => (Throw (lit "fetch failed"), w')
    | NoData => (Throw (lit "Failed to create session"), w')
    | Data id => (Ok id, w')
    end.

(** One turn of the [for await] loop of [streamDone]: what is written to
    [process.stdout] for the event, if anything. *)
Definition relay_event (sessionId : jsstring) (event : Event) : option jsstring :=
  match event with
  | EvOpaque => None
  | EvTyped type properties =>
      if str_eqb type (lit "message.part.delta") then
        match properties with
        | Some p => if str_eqb (sessionID p) sessionId then Some (delta p) else None
        | None => None
        end
      else None
  end.

(** [streamDone] on the events the feed delivers before the call settles. *)
Fixpoint streamDone (sessionId : jsstring) (events : list Event) : M unit :=
  match events with
  | [] => ret tt
  | event :: r =>
      match relay_event sessionId event with
      | Some d => stdout_write d
      | None => ret tt
      end ;;
      streamDone sessionId r
  end.

Definition event_subscribe : M (list Event * StreamEnd) :=
  fun w =>
    let w' := {| fs := fs w; trace := ASubscribe :: trace w |} in
    match subscribe env w with
    | SubscribeFails => (Throw (lit "subscribe failed"), w')
    | Subscribed events ending => (Ok (events, ending), w')
    end.

(** [client.session.prompt]; [None] is a reply without data. *)
Definition session_prompt (sessionId : jsstring) (parts : list ReqPart)
  : M (option (list Part)) :=
  fun w =>
    let w' := {| fs := fs w; trace := APrompt sessionId parts :: trace w |} in
    match prompt_reply env w sessionId parts with
    | Rejects => (Throw (lit "fetch failed"), w')
    | NoData => (Ok None, w')
    | Data parts' => (Ok (Some parts'), w')
    end.

(** [streamDone] is rejected and no handler is attached to it: Node reports
    the error and ends the process with exit code 1. *)
Definition unhandled_rejection {A} (err : jsstring) : M A :=
  console_error err ;; process_exit 1.

Definition feed_threw_early : M bool :=
  fun w => (Ok (throws_while_pending env w), w).

(** The body [modifyFile] and [sendFollowUp] share, from the subscription
    to the extraction.  The relay runs while the prompt is awaited, so its
    output is there whether the prompt resolves or rejects.  [streamDone]
    has no handler until [Promise.race] is reached: a feed that throws
    before that, while the prompt is awaited or when the prompt rejects,
    ends the process; a feed that throws once the race is on makes the race
    reject. *)
Definition exchange (sessionId : jsstring) (parts : list ReqPart) : M jsstring :=
  sub <- event_subscribe ;;
  let '(events, ending) := sub in
  data <- try_catch (session_prompt sessionId parts)
            (fun err =>
               streamDone sessionId events ;;
               match ending with
               | Broken => unhandled_rejection (lit "stream failed")
               | Exhausted | Pending => throw err
               end) ;;
  streamDone sessionId events ;;
  match ending with
  | Broken =>
      early <- feed_threw_early ;;
      if early then unhandled_rejection (lit "stream failed")
      else throw (lit "stream failed")             (* Promise.race rejects *)
  | Exhausted | Pending =>
      stdout_write [newline] ;;
      match data with
      | None => throw (lit "No response from LLM")
      | Some parts' => ret (extractCode parts')
      end
  end.

Definition return_only : jsstring :=
  lit "Return ONLY the modified file contents, wrapped in a single ```csharp code block. Do not include any explanation.".

Definition modifyFile (sessionId prompt filePath : jsstring) : M jsstring :=
  let instruction := join [newline] [prompt; []; return_only] in
  exchange sessionId
    [ReqText instruction;
     ReqFile (lit "text/x-csharp") filePath (lit "file://" ++ filePath)].

Definition sendFollowUp (sessionId message : jsstring) : M jsstring :=
  exchange sessionId [ReqText message].

(** *** index.ts *)

Definition dotnet_build (projectPath : jsstring) : M jsstring :=
  fun w =>
    (Ok (build_output (run_build env w projectPath)),
     {| fs := fs w; trace := ABuild projectPath :: trace w |}).

Definition getBuildErrorFiles (projectPath : jsstring) (printOutput : bool)
  : M (list jsstring) :=
  console_log (lit "Running dotnet build on " ++ projectPath ++ lit "...") ;;
  output <- dotnet_build projectPath ;;
  let errorFiles := errorFiles_of resolve output in
  (if printOutput then
     console_log (lit "--- dotnet build output ---") ;;
     console_log output ;;
     console_log (lit "--- end build output ---")
   else ret tt) ;;
  ret errorFiles.

Definition getBuildErrors (projectPath filePath : jsstring) : M (list jsstring) :=
  output <- dotnet_build projectPath ;;
  ret (errors_of resolve output filePath).

(** [if (value)] on the value of an option of the command line: an option
    that was not given, and one given as the empty string, are falsy. *)
Definition truthy (value : option jsstring) : option jsstring :=
  match value with
  | Some (c :: s) => Some (c :: s)
  | _ => None
  end.

Record Opts : Type := {
  promptFile : jsstring;             (* --prompt-file *)
  dryRun : bool;                     (* --dry-run *)
  buildFilter : option jsstring;     (* --build-filter *)
  buildOutput : bool;                (* --build-output *)
  retryBuild : option jsstring       (* --retry-build *)
}.

Fixpoint endsWith_rev (suffix_rev s_rev : jsstring) : bool :=
  match suffix_rev, s_rev with
  | [], _ => true
  | a :: x, b :: y => char_eqb a b && endsWith_rev x y
  | _ :: _, [] => false
  end.

(** [s.endsWith(suffix)]. *)
Definition endsWith (suffix s : jsstring) : bool :=
  endsWith_rev (rev suffix) (rev s).

(** [[...new Set(l)]]. *)
Definition dedupe (l : list jsstring) : list jsstring :=
  fold_left (fun s x => set_add x s) l [].

(** The message of a follow-up request. *)
Definition followUp_message (errors : list jsstring) : jsstring :=
  join [newline]
    ([lit "The file still has build errors. Please fix them."; []; lit "Errors:"]
     ++ errors ++ [[]; return_only]).

(** The [for (let attempt = 1; attempt <= maxRetries; attempt++)] loop of
    [main].  [measure] is [maxRetries + 1 - attempt], which decreases at
    every turn; a [break] is the branch that does not recur. *)
Fixpoint retry_loop (maxRetries : nat) (retryBuild filePath sessionId : jsstring)
    (measure attempt : nat) : M unit :=
  match measure with
  | O => ret tt
  | S measure' =>
      if attempt <=? maxRetries then
        console_log (lit "  Build check (attempt " ++ nat_str attempt ++ lit "/"
                     ++ nat_str maxRetries ++ lit ")...") ;;
        errors <- getBuildErrors retryBuild filePath ;;
        if List.length errors =? 0 then
          console_log (lit "  Build succeeded.")
        else
          console_log (lit "  " ++ nat_str (List.length errors)
                       ++ lit " build error(s), sending back to model...") ;;
          modified <- sendFollowUp sessionId (followUp_message errors) ;;
          writeFileSync filePath modified ;;
          console_log (lit "  Written retry.") ;;
          (if attempt =? maxRetries then
             remaining <- getBuildErrors retryBuild filePath ;;
             if 0 <? List.length remaining then
               console_log (lit "  Still " ++ nat_str (List.length remaining)
                            ++ lit " error(s) after " ++ nat_str maxRetries
                            ++ lit " retries.")
             else console_log (lit "  Build succeeded.")
           else ret tt) ;;
          retry_loop maxRetries retryBuild filePath sessionId measure' (S attempt)
      else ret tt
  end.

(** [const maxRetries = 3]. *)
Definition maxRetries : nat := 3.

(** The [if (opts.retryBuild) { .. }] block of [main]. *)
Definition retry_block (opts : Opts) (filePath sessionId : jsstring) : M unit :=
  match truthy (retryBuild opts) with
  | Some project =>
      retry_loop maxRetries project filePath sessionId maxRetries 1
  | None => ret tt
  end.

(** The [try] block of one turn of the loop over the files. *)
Definition rewrite_file (opts : Opts) (prompt filePath fileContents sessionId : jsstring)
  : M unit :=
  modified <- modifyFile sessionId prompt filePath ;;
  if str_eqb fileContents modified then
    console_log (lit "  No changes.")                            (* continue *)
  else if dryRun opts then
    console_log (lit "  [DRY RUN] Would modify this file. Modified content:") ;;
    console_log (lit "  ---") ;;
    console_log (join [newline]
                   (map (fun l => lit "  " ++ l) (split newline modified))) ;;
    console_log (lit "  ---")
  else
    writeFileSync filePath modified ;;
    console_log (lit "  Written.") ;;
    retry_block opts filePath sessionId.

(** One turn of the loop over the files: the read of the file and the
    creation of the session come before the [try]. *)
Definition process_file (opts : Opts) (prompt : jsstring) (n i : nat)
    (filePath : jsstring) : M unit :=
  console_log (newline :: lit "[" ++ nat_str (i + 1) ++ lit "/" ++ nat_str n
               ++ lit "] Processing: " ++ filePath) ;;
  fileContents <- readFileSync filePath ;;
  sessionId <- createSession ;;
  try_catch (rewrite_file opts prompt filePath fileContents sessionId)
    (fun err => console_error (lit "  Error processing " ++ filePath ++ lit ": " ++ err)).

(** [for (let i = 0; i < files.length; i++)], from index [i] on. *)
Fixpoint process_files (opts : Opts) (prompt : jsstring) (n i : nat)
    (files : list jsstring) : M unit :=
  match files with
  | [] => ret tt
  | filePath :: r =>
      process_file opts prompt n i filePath ;;
      process_files opts prompt n (S i) r
  end.

(** [main]; [found] is what the glob patterns of [--files] and [--dir]
    expand to (the [files] array before it is filtered). *)
Definition main (opts : Opts) (found : list jsstring) : M unit :=
  prompt <- readFileSync (resolve (promptFile opts)) ;;
  let files := dedupe (map resolve (filter (endsWith (lit ".cs")) found)) in
  files <-
    match truthy (buildFilter opts) with
    | Some project =>
        errorFiles <- getBuildErrorFiles project (buildOutput opts) ;;
        if List.length errorFiles =? 0 then
          console_log (lit "dotnet build succeeded with no errors. Nothing to process.") ;;
          process_exit 0
        else
          console_log (lit "Build errors found in " ++ nat_str (List.length errorFiles)
                       ++ lit " file(s):") ;;
          for_each errorFiles (fun f => console_log (lit "  " ++ f)) ;;
          ret (filter (fun f => set_has f errorFiles) files)
    | None => ret files
    end ;;
  if List.length files =? 0 then
    console_error (lit "No .cs files found.") ;;
    process_exit 1
  else
    console_log (lit "Found " ++ nat_str (List.length files) ++ lit " file(s) to process.") ;;
    process_files opts prompt (List.length files) 0 files ;;
    console_log (newline :: lit "Done.").

(** [main().catch(err => { console.error("Fatal error:", err); process.exit(1) })] *)
Definition run_main (opts : Opts) (found : list jsstring) : M unit :=
  try_catch (main opts found)
    (fun err => console_error (lit "Fatal error: " ++ err) ;; process_exit 1).

End Program.

(** ** Measures and sample inputs used by the statements *)

Definition is_build (a : Action) : bool :=
  match a with ABuild _ => true | _ => false end.
Definition is_prompt (a : Action) : bool :=
  match a with APrompt _ _ => true | _ => false end.

(** Compiler invocations and prompt requests recorded in a world. *)
Definition builds (w : World) : nat := List.length (filter is_build (trace w)).
Definition prompts (w : World) : nat := List.length (filter is_prompt (trace w)).

(** [c] adds at most [b] compiler invocations and [p] prompt requests,
    whatever it returns. *)
Definition costs {A} (b p : nat) (c : M A) : Prop :=
  forall w, builds (snd (c w)) <= builds w + b /\ prompts (snd (c w)) <= prompts w + p.



Definition is_read (a : Action) : bool :=
  match a with ARead _ => true | _ => false end.

(** The event carries the session id [sessionId]. *)
Definition of_session (sessionId : jsstring) (event : Event) : bool :=
  match event with
  | EvTyped _ (Some p) => str_eqb (sessionID p) sessionId
  | _ => false
  end.

(** The world just before [process_file] creates the session, and just
    after. *)
Definition before_session (n i : nat) (filePath : jsstring) (w : World) : World :=
  {| fs := fs w;
     trace := ARead filePath
              :: AStdout ((newline :: lit "[" ++ nat_str (i + 1) ++ lit "/" ++ nat_str n
                           ++ lit "] Processing: " ++ filePath) ++ [newline])
              :: trace w |}.

Definition after_session (n i : nat) (filePath : jsstring) (w : World) : World :=
  {| fs := fs w; trace := ACreateSession :: trace (before_session n i filePath w) |}.

(** The world after a subscription that failed. *)
Definition after_subscribe (w : World) : World :=
  {| fs := fs w; trace := ASubscribe :: trace w |}.

(** The sentence of the specification on a feed that cannot be subscribed
    to: the exchange still takes place and the reply is extracted. *)
Definition degrades_to_no_live_output (env : Env)
    (sessionId prompt filePath : jsstring) (w : World) : Prop :=
  subscribe env w = SubscribeFails ->
  exists code w',
    modifyFile env sessionId prompt filePath w = (Ok code, w')
    /\ prompts w' = prompts w + 1.


(** Text given line by line. *)
Definition text_lines (l : list jsstring) : jsstring := join [newline] l.

Definition sample_world : World :=
  {| fs := [(lit "/p.txt", lit "Add a method M.");
            (lit "/a/F.cs", lit "class A {}");
            (lit "/a/G.cs", lit "class B {}")];
     trace := [] |}.

Definition sample_opts : Opts :=
  {| promptFile := lit "/p.txt"; dryRun := false; buildFilter := None;
     buildOutput := false; retryBuild := Some (lit "/a/app.sln") |}.

Definition sample_reply : list Part :=
  [TextPart (text_lines [lit "```csharp"; lit "class A { void M(){} }"; lit "```"])].

(** A service that answers, and a feed that cannot be subscribed to. *)
Definition env_feed_down : Env :=
  {| run_build := fun _ _ => ExecOk [];
     create_session := fun _ => Data (lit "s1");
     subscribe := fun _ => SubscribeFails;
     prompt_reply := fun _ _ _ => Data sample_reply;
     can_write := fun _ _ => true;
     throws_while_pending := fun _ => true |}.

(** A service that answers the first request and fails on the next ones,
    and a compiler that keeps reporting one error in /a/F.cs. *)
Definition env_retry_down : Env :=
  {| run_build := fun _ _ =>
       ExecErr (Some (lit "/a/F.cs(1,22): error CS1002: ; expected")) None;
     create_session := fun _ => Data (lit "s1");
     subscribe := fun _ => Subscribed [] Exhausted;
     prompt_reply := fun w _ _ =>
       if prompts w =? 0 then Data sample_reply else Rejects;
     can_write := fun _ _ => true;
     throws_while_pending := fun _ => true |}.

(** A service on which no session can be created. *)
Definition env_session_down : Env :=
  {| run_build := fun _ _ => ExecOk [];
     create_session := fun _ => Rejects;
     subscribe := fun _ => Subscribed [] Exhausted;
     prompt_reply := fun _ _ _ => Data sample_reply;
     can_write := fun _ _ => true;
     throws_while_pending := fun _ => true |}.

(** A feed with a fragment of the active session between fragments of
    another one. *)
Definition sample_feed : list Event :=
  [EvTyped (lit "message.part.delta") (Some {| sessionID := lit "s2"; delta := lit "foreign" |});
   EvTyped (lit "message.part.delta") (Some {| sessionID := lit "s1"; delta := lit "class" |});
   EvOpaque;
   EvTyped (lit "session.idle") (Some {| sessionID := lit "s1"; delta := lit "idle" |});
   EvTyped (lit "message.part.delta") (Some {| sessionID := lit "s2"; delta := lit "again" |})].

(** ** Predicates on texts and on expressions *)

(** [p] is a prefix of [s]. *)
Fixpoint prefixb (p s : jsstring) : bool :=
  match p, s with
  | [], _ => true
  | a :: p', b :: s' => char_eqb a b && prefixb p' s'
  | _ :: _, [] => false
  end.

(** [s] contains a code-fence marker, three backticks in a row. *)
Fixpoint has_fence (s : jsstring) : bool :=
  prefixb fence s
  || match s with
     | [] => false
     | _ :: t => has_fence t
     end.

(** [s] ends with a newline, and with one only. *)
Definition ends_with_one_newline (s : jsstring) : bool :=
  match rev s with
  | c :: r =>
      char_eqb c newline
      && match r with
         | d :: _ => negb (char_eqb d newline)
         | [] => true
         end
  | [] => false
  end.

(** The expression has no [^]. *)
Fixpoint bol_free (r : re) : bool :=
  match r with
  | Bol => false
  | Seq a b | Alt a b => bol_free a && bol_free b
  | Group a => bol_free a
  | _ => true
  end.

(** The same state, [d] characters further in a longer input. *)
Definition shift (d : nat) (st : mstate) : mstate :=
  MState (d + pos st) (rest st) (cap st).

(** The fenced block of the third testable property,
    [```csharp\nX\n```]. *)
Definition block_X : jsstring := text_lines [lit "```csharp"; lit "X"; lit "```"].

(** The part of [fence_re] that follows the language tag. *)
Definition fence_after_tag : re :=
  (Star is_space >> Cls (char_eqb newline) >>
   Group (StarLazy any_char) >> Lit (lit "```"))%re.

(** A block fenced with the tag [tag] around the text [X]. *)
Definition fenced (tag X : jsstring) : jsstring :=
  fence ++ tag ++ newline :: X ++ newline :: fence.

(** Every way to write a lower-case ASCII word in upper and lower case. *)
Fixpoint casings (word : jsstring) : list jsstring :=
  match word with
  | [] => [[]]
  | c :: t => flat_map (fun r => [c :: r; (c - 32)%N :: r]) (casings t)
  end.

(** ** The language of an expression

    [lang r w]: the expression [r] can match exactly the text [w]. *)
Fixpoint lang (r : re) (w : jsstring) : Prop :=
  match r with
  | Bol | Eps => w = []
  | Cls p => exists c, w = [c] /\ p c = true
  | Seq a b => exists u v, w = u ++ v /\ lang a u /\ lang b v
  | Alt a b => lang a w \/ lang b w
  | Star p | StarLazy p => forallb p w = true
  | Group a => lang a w
  end.

(** The lines [getBuildErrors] can take for errors: white space, a path
    that ends in .cs, an opening bracket, digits, a comma or a semicolon,
    digits, a closing bracket, white space, a colon, white space, the word
    error and one white-space character. *)
Definition error_line_shape (line : jsstring) : Prop :=
  exists ws path o l sep c cl ws1 ws2 sp tail,
    line = ws ++ path ++ lit ".cs" ++ o :: l ++ sep :: c ++ cl :: ws1
              ++ lit ":" ++ ws2 ++ lit "error" ++ sp :: tail
    /\ forallb is_space ws = true /\ forallb dot path = true
    /\ is_open o = true
    /\ l <> [] /\ forallb digit l = true
    /\ is_sep sep = true
    /\ c <> [] /\ forallb digit c = true
    /\ is_close cl = true
    /\ forallb is_space ws1 = true /\ forallb is_space ws2 = true
    /\ is_space sp = true.

(** The two notations of the specification: [(line,col)] and [[line,col]],
    with a comma and brackets that match. *)
Definition spec_location (line : jsstring) : Prop :=
  exists path o l c cl tail,
    line = path ++ o :: l ++ lit "," ++ c ++ cl :: tail
    /\ ((o = 40%N /\ cl = 41%N) \/ (o = 91%N /\ cl = 93%N))
    /\ l <> [] /\ forallb digit l = true
    /\ c <> [] /\ forallb digit c = true.

(** Two characters that the expressions of index.ts cannot tell apart: the
    same character, two opening brackets, or two closing brackets. *)
Definition same_class (c c' : char) : Prop :=
  c = c' \/ (is_open c = true /\ is_open c' = true)
  \/ (is_close c = true /\ is_close c' = true).

Definition respects (p : char -> bool) : Prop :=
  forall c c', same_class c c' -> p c = p c'.

Fixpoint classes_respect (r : re) : Prop :=
  match r with
  | Cls p | Star p | StarLazy p => respects p
  | Seq a b | Alt a b => classes_respect a /\ classes_respect b
  | Group a => classes_respect a
  | Bol | Eps => True
  end.

Definition cap_sim (a b : option jsstring) : Prop :=
  match a, b with
  | Some x, Some y => Forall2 same_class x y
  | None, None => True
  | _, _ => False
  end.

Definition state_sim (st st' : mstate) : Prop :=
  pos st = pos st'
  /\ Forall2 same_class (rest st) (rest st')
  /\ cap_sim (cap st) (cap st').

(** The text before the first character of a class. *)
Fixpoint before (p : char -> bool) (s : jsstring) : jsstring :=
  match s with
  | [] => []
  | c :: t => if p c then [] else c :: before p t
  end.

(** ** Sample compiler outputs *)

(** One error in a file of a directory named with a bracket, one warning
    in another file. *)
Definition output_bracket_dir : jsstring :=
  text_lines [lit "/src/App (old)/A.cs(3,7): error CS1002: ; expected";
              lit "/src/App (old)/B.cs(1,1): warning CS0168: unused variable"].

(** One error in G.cs, in a directory whose name starts as the target
    path does and goes on with a bracket. *)
Definition output_prefix_dir : jsstring :=
  lit "/src/A.cs(v2)/G.cs(1,2): error CS1002: ; expected".

(** One error whose message quotes another location. *)
Definition output_quoted_location : jsstring :=
  lit "/src/A.cs(3,7): error CS0103: see B.cs(1,1): error CS1002".

(** ** Further predicates *)

(** The part is one [extractCode] keeps: a text part with a text that is
    not empty. *)
Definition is_text_part (p : Part) : bool :=
  match p with
  | TextPart (_ :: _) => true
  | _ => false
  end.

(** No text of the parts holds a fence marker. *)
Definition fence_free (p : Part) : Prop :=
  match p with
  | TextPart t => has_fence t = false
  | OtherPart _ => True
  end.

(** The two expressions of index.ts after [^\s*]. *)
Definition errline_group : re :=
  Group (Star dot >> Lit (lit ".cs") >> location_error_re >> Star dot)%re.

Definition errfile_tail : re :=
  (Group (Star dot >> Lit (lit ".cs")) >> location_error_re)%re.

(** All the characters of [s] are white space. *)
Definition all_space (s : jsstring) : bool := forallb is_space s.

(** Dropping white space in front of a text that [r] matches leaves a text
    that [r] matches, with the same rest. *)
Definition skips_indent (r : re) : Prop :=
  forall ss l w t,
    all_space ss = true -> lang r w -> ss ++ l = w ++ t ->
    exists w', lang r w' /\ l = w' ++ t.

(** The text of a location and what follows it up to the white space
    after the word error. *)
Definition location_shape (v : jsstring) : Prop :=
  exists o l sep c cl ws1 ws2 sp,
    v = o :: l ++ sep :: c ++ cl :: ws1 ++ lit ":" ++ ws2 ++ lit "error" ++ [sp]
    /\ is_open o = true
    /\ l <> [] /\ forallb digit l = true
    /\ is_sep sep = true
    /\ c <> [] /\ forallb digit c = true
    /\ is_close cl = true
    /\ forallb is_space ws1 = true /\ forallb is_space ws2 = true
    /\ is_space sp = true.

(** A line that [r] matches after its indentation. *)
Definition matches_indented (r : re) (line : jsstring) : Prop :=
  exists ws w t, line = ws ++ w ++ t /\ all_space ws = true /\ lang r w.

(** The expression has no capturing group. *)
Fixpoint group_free (r : re) : bool :=
  match r with
  | Group _ => false
  | Seq a b | Alt a b => group_free a && group_free b
  | _ => true
  end.

(** The text holds no newline. *)
Definition one_line (s : jsstring) : bool :=
  forallb (fun c => negb (char_eqb c newline)) s.

(** ** Relations between the world before and after a command *)

(** [c] takes every world to one that [R] relates to it, and a value it
    returns satisfies [Q]. *)
Definition hoare {A} (R : World -> World -> Prop) (Q : A -> Prop) (c : M A) : Prop :=
  forall w, R w (snd (c w)) /\ forall a, fst (c w) = Ok a -> Q a.

(** An action that is neither a write nor a prompt request. *)
Definition quiet_action (a : Action) : bool :=
  match a with
  | AWrite _ _ | APrompt _ _ => false
  | _ => true
  end.

(** The world after an action that leaves the files as they are. *)
Definition logged (a : Action) (w : World) : World :=
  {| fs := fs w; trace := a :: trace w |}.

(** The world after a write that succeeded. *)
Definition written (path content : jsstring) (w : World) : World :=
  {| fs := (path, content) :: fs w; trace := AWrite path content :: trace w |}.

(** Every file is as it was, or is one of [selected] and holds a text that
    ends with exactly one newline. *)
Definition rewritten_only (selected : list jsstring) (w w' : World) : Prop :=
  forall g,
    fs_lookup g (fs w') = fs_lookup g (fs w)
    \/ (In g selected
        /\ exists c, fs_lookup g (fs w') = Some c /\ ends_with_one_newline c = true).

(** The actions that the processing of the file [filePath] in the session
    [sessionId] may perform: no prompt in another session, no write to
    another path. *)
Definition own_action (sessionId filePath : jsstring) (a : Action) : bool :=
  match a with
  | APrompt s _ => str_eqb s sessionId
  | AWrite p _ => str_eqb p filePath
  | _ => true
  end.

(** The trace grew by actions that satisfy [P]. *)
Definition grew_by (P : Action -> bool) (w w' : World) : Prop :=
  exists new, trace w' = new ++ trace w /\ forallb P new = true.

Definition is_write (a : Action) : bool :=
  match a with AWrite _ _ => true | _ => false end.

(** Writes that succeeded, recorded in a world. *)
Definition writes (w : World) : nat := List.length (filter is_write (trace w)).

(** The world after the request of an exchange was sent. *)
Definition after_prompt (sessionId : jsstring) (parts : list ReqPart) (w : World) : World :=
  logged (APrompt sessionId parts) (after_subscribe w).

(** The line [main] prints before a check of the build. *)
Definition build_check_log (attempt : nat) : Action :=
  AStdout ((lit "  Build check (attempt " ++ nat_str attempt ++ lit "/"
            ++ nat_str maxRetries ++ lit ")...") ++ [newline]).

(** The world in which the retry block asks for its first build. *)
Definition before_first_check (w : World) : World := logged (build_check_log 1) w.

(** The world in which [main] asks for the build of [--build-filter]. *)
Definition before_filter_build (opts : Opts) (resolve : jsstring -> jsstring)
    (project : jsstring) (w : World) : World :=
  logged (AStdout ((lit "Running dotnet build on " ++ project ++ lit "...") ++ [newline]))
         (logged (ARead (resolve (promptFile opts))) w).

Definition is_session (a : Action) : bool :=
  match a with ACreateSession => true | _ => false end.

(** Sessions created, recorded in a world. *)
Definition sessions (w : World) : nat := List.length (filter is_session (trace w)).

(** A machine on which the compiler cannot be started: [execSync] throws an
    error that carries neither [stdout] nor [stderr]. *)
Definition env_no_compiler : Env :=
  {| run_build := fun _ _ => ExecErr None None;
     create_session := fun _ => Data (lit "s1");
     subscribe := fun _ => Subscribed [] Exhausted;
     prompt_reply := fun _ _ _ => Data sample_reply;
     can_write := fun _ _ => true;
     throws_while_pending := fun _ => true |}.

Definition filter_opts : Opts :=
  {| promptFile := lit "/p.txt"; dryRun := false; buildFilter := Some (lit "/a/app.sln");
     buildOutput := true; retryBuild := None |}.

(** What [process_file] does before its [try]: the read of the file and the
    creation of the session.  One of the two fails. *)
Definition setup_fails (env : Env) (n i : nat) (filePath : jsstring) (w : World) : Prop :=
  fs_lookup filePath (fs w) = None
  \/ forall s, create_session env (before_session n i filePath w) <> Data s.

(** The world after [main().catch] reported the exception [err]. *)
Definition after_fatal (err : jsstring) (w : World) : World :=
  logged (AExit 1) (logged (AStderr ((lit "Fatal error: " ++ err) ++ [newline])) w).

(** A service that always answers, and a compiler that keeps reporting one
    error in /a/F.cs. *)
Definition env_stubborn : Env :=
  {| run_build := fun _ _ =>
       ExecErr (Some (lit "/a/F.cs(1,22): error CS1002: ; expected")) None;
     create_session := fun _ => Data (lit "s1");
     subscribe := fun _ => Subscribed [] Exhausted;
     prompt_reply := fun _ _ _ => Data sample_reply;
     can_write := fun _ _ => true;
     throws_while_pending := fun _ => true |}.



(** A service that answers, and a feed that throws while the request is
    awaited. *)
Definition env_feed_breaks : Env :=
  {| run_build := fun _ _ => ExecOk [];
     create_session := fun _ => Data (lit "s1");
     subscribe := fun _ => Subscribed [] Broken;
     prompt_reply := fun _ _ _ => Data sample_reply;
     can_write := fun _ _ => true;
     throws_while_pending := fun _ => true |}.

(** A tag made of characters that are neither white space nor backticks. *)
Definition plain_tag (tag : jsstring) : bool :=
  forallb (fun c => negb (is_space c) && negb (char_eqb c backtick)) tag.

(** The tags that the expression of [extractCode] writes out, and no tag. *)
Definition accepted_tags : list jsstring := [lit "csharp"; lit "cs"; []].

(** Reads of files recorded in a world, newest first. *)
Definition reads (w : World) : list Action := filter is_read (trace w).



(** ** Basic facts *)

Lemma char_eqb_eq (a b : char) : char_eqb a b = true <-> a = b.
Proof. unfold char_eqb. apply N.eqb_eq. Qed.

Lemma str_eqb_eq (a b : jsstring) : str_eqb a b = true <-> a = b.
Proof.
  revert b. induction a as [|x a IH]; intros [|y b]; simpl; split; intro H;
    try reflexivity; try discriminate.
  - apply andb_true_iff in H as [Hx Ha].
    apply char_eqb_eq in Hx. apply IH in Ha. now subst.
  - injection H as -> ->. apply andb_true_iff. split.
    + now apply char_eqb_eq.
    + now apply IH.
Qed.

Lemma str_eqb_refl (a : jsstring) : str_eqb a a = true.
Proof. now apply str_eqb_eq. Qed.

(** ** Costs of the monadic operations *)

Section Costs.

Variable env : Env.
Variable resolve : jsstring -> jsstring.

Lemma costs_ret {A} (a : A) : costs 0 0 (ret a).
Proof. intro w. simpl. lia. Qed.

Lemma costs_throw {A} (e : jsstring) : costs 0 0 (@throw A e).
Proof. intro w. simpl. lia. Qed.

Lemma costs_weaken {A} (b p b' p' : nat) (c : M A) :
  costs b p c -> b <= b' -> p <= p' -> costs b' p' c.
Proof. intros H Hb Hp w. destruct (H w). lia. Qed.

Lemma costs_bind {A B} (b1 p1 b2 p2 : nat) (c : M A) (k : A -> M B) :
  costs b1 p1 c -> (forall a, costs b2 p2 (k a)) ->
  costs (b1 + b2) (p1 + p2) (bind c k).
Proof.
  intros Hc Hk w. unfold bind. specialize (Hc w).
  destruct (c w) as [[a|e|n] w']; simpl in *; try lia.
  specialize (Hk a w'). lia.
Qed.

Lemma costs_try_catch {A} (b1 p1 b2 p2 : nat) (c : M A) (h : jsstring -> M A) :
  costs b1 p1 c -> (forall e, costs b2 p2 (h e)) ->
  costs (b1 + b2) (p1 + p2) (try_catch c h).
Proof.
  intros Hc Hh w. unfold try_catch. specialize (Hc w).
  destruct (c w) as [[a|e|n] w']; simpl in *; try lia.
  specialize (Hh e w'). lia.
Qed.

Lemma costs_console_log (text : jsstring) : costs 0 0 (console_log text).
Proof. intro w. unfold builds, prompts. simpl. lia. Qed.

Lemma costs_stdout_write (text : jsstring) : costs 0 0 (stdout_write text).
Proof. intro w. unfold builds, prompts. simpl. lia. Qed.

Lemma costs_writeFileSync (path content : jsstring) :
  costs 0 0 (writeFileSync env path content).
Proof.
  intro w. unfold writeFileSync, builds, prompts.
  destruct (can_write env w path); simpl; lia.
Qed.

Lemma costs_getBuildErrors (project filePath : jsstring) :
  costs 1 0 (getBuildErrors env resolve project filePath).
Proof. intro w. unfold builds, prompts. simpl. lia. Qed.

Lemma costs_streamDone (sessionId : jsstring) (events : list Event) :
  costs 0 0 (streamDone sessionId events).
Proof.
  induction events as [|e r IH]; simpl.
  - apply costs_ret.
  - apply (@costs_bind _ _ 0 0 0 0); [|intros _; exact IH].
    destruct (relay_event sessionId e).
    + apply costs_stdout_write.
    + apply costs_ret.
Qed.

Lemma costs_event_subscribe : costs 0 0 (event_subscribe env).
Proof.
  intro w. unfold event_subscribe, builds, prompts.
  destruct (subscribe env w); simpl; lia.
Qed.

Lemma costs_session_prompt (sessionId : jsstring) (parts : list ReqPart) :
  costs 0 1 (session_prompt env sessionId parts).
Proof.
  intro w. unfold session_prompt, builds, prompts.
  destruct (prompt_reply env w sessionId parts); simpl; lia.
Qed.

Lemma costs_unhandled_rejection {A} (err : jsstring) :
  costs 0 0 (@unhandled_rejection A err).
Proof. intro w. unfold builds, prompts. simpl. lia. Qed.

Lemma costs_exchange (sessionId : jsstring) (parts : list ReqPart) :
  costs 0 1 (exchange env sessionId parts).
Proof.
  unfold exchange.
  apply (@costs_bind _ _ 0 0 0 1); [apply costs_event_subscribe|].
  intros [events ending].
  apply (@costs_bind _ _ 0 1 0 0).
  { apply (@costs_try_catch _ 0 1 0 0); [apply costs_session_prompt|].
    intro e. apply (@costs_bind _ _ 0 0 0 0); [apply costs_streamDone|].
    intros _. destruct ending; try apply costs_throw.
    apply costs_unhandled_rejection. }
  intro data.
  apply (@costs_bind _ _ 0 0 0 0); [apply costs_streamDone|]. intros _.
  destruct ending.
  3:{ apply (@costs_bind _ _ 0 0 0 0); [intro w; simpl; lia|].
      intros [|]; [apply costs_unhandled_rejection | apply costs_throw]. }
  all: apply (@costs_bind _ _ 0 0 0 0); [apply costs_stdout_write|]; intros _;
    destruct data; [apply costs_ret | apply costs_throw].
Qed.

(** The loop: nothing once [attempt] is past [maxRetries]; otherwise one
    check for each turn that is left, one more after the last turn, and one
    follow-up for each turn. *)
Lemma costs_retry_loop (maxR : nat) (project filePath sessionId : jsstring)
    (measure attempt : nat) :
  costs (if attempt <=? maxR then Nat.min measure (maxR + 1 - attempt) + 1 else 0)
        (Nat.min measure (maxR + 1 - attempt))
        (retry_loop env resolve maxR project filePath sessionId measure attempt).
Proof.
  revert attempt. induction measure as [|m IH]; intro attempt; simpl retry_loop.
  - eapply costs_weaken; [apply costs_ret| |]; lia.
  - destruct (Nat.leb_spec attempt maxR) as [Hle|Hgt].
    2:{ eapply costs_weaken; [apply costs_ret| |]; lia. }
    replace (Nat.min (S m) (maxR + 1 - attempt))
      with (S (Nat.min m (maxR + 1 - S attempt))) by lia.
    apply (@costs_weaken _ (0 + (1 + (Nat.min m (maxR + 1 - S attempt) + 1)))
                           (0 + (0 + S (Nat.min m (maxR + 1 - S attempt)))));
      [|lia|lia].
    apply costs_bind; [apply costs_console_log|]. intros _.
    apply costs_bind; [apply costs_getBuildErrors|]. intro errors.
    destruct (List.length errors =? 0).
    { eapply costs_weaken; [apply costs_console_log| |]; lia. }
    apply (@costs_weaken _ (0 + (0 + (0 + (0 + (Nat.min m (maxR + 1 - S attempt) + 1)))))
                           (0 + (1 + (0 + (0 + Nat.min m (maxR + 1 - S attempt))))));
      [|lia|lia].
    apply costs_bind; [apply costs_console_log|]. intros _.
    apply costs_bind; [apply costs_exchange|]. intro modified.
    apply costs_bind; [apply costs_writeFileSync|]. intros _.
    apply costs_bind; [apply costs_console_log|]. intros _.
    destruct (Nat.eqb_spec attempt maxR) as [Heq|Hne].
    + (* the last turn: the final check, then the loop is over *)
      subst attempt.
      apply (@costs_weaken _ (1 + 0) (0 + 0)); [|lia|lia].
      apply costs_bind.
      * apply (@costs_weaken _ (1 + 0) (0 + 0)); [|lia|lia].
        apply costs_bind; [apply costs_getBuildErrors|]. intro remaining.
        destruct (0 <? List.length remaining); apply costs_console_log.
      * intros _. specialize (IH (S maxR)).
        destruct (Nat.leb_spec (S maxR) maxR); [lia|].
        eapply costs_weaken; [exact IH| |]; lia.
    + apply (@costs_weaken _ (0 + (Nat.min m (maxR + 1 - S attempt) + 1))
                             (0 + Nat.min m (maxR + 1 - S attempt))); [|lia|lia].
      apply costs_bind; [apply costs_ret|]. intros _.
      specialize (IH (S attempt)).
      destruct (Nat.leb_spec (S attempt) maxR); [|lia].
      exact IH.
Qed.

End Costs.

(** ** The retry loop is bounded *)

Lemma bind_ext {A B} (c : M A) (k1 k2 : A -> M B) (w : World) :
  (forall a w', k1 a w' = k2 a w') -> bind c k1 w = bind c k2 w.
Proof.
  intro H. unfold bind. destruct (c w) as [[a|e|n] w']; auto.
Qed.

(** The measure of [retry_loop] is no cut-off: any measure that covers the
    turns left up to [maxRetries] gives the same run. *)
Lemma retry_loop_measure (env : Env) (resolve : jsstring -> jsstring) (maxR : nat)
    (project filePath sessionId : jsstring) (m1 m2 attempt : nat) (w : World) :
  maxR + 1 - attempt <= m1 -> maxR + 1 - attempt <= m2 ->
  retry_loop env resolve maxR project filePath sessionId m1 attempt w
  = retry_loop env resolve maxR project filePath sessionId m2 attempt w.
Proof.
  revert m2 attempt w. induction m1 as [|m1 IH]; intros [|m2] attempt w H1 H2; simpl;
    try reflexivity.
  - destruct (Nat.leb_spec attempt maxR); [lia|reflexivity].
  - destruct (Nat.leb_spec attempt maxR); [lia|reflexivity].
  - destruct (Nat.leb_spec attempt maxR); [|reflexivity].
    apply bind_ext; intros _ wa. apply bind_ext; intros errors wb.
    destruct (List.length errors =? 0); [reflexivity|].
    apply bind_ext; intros _ wc. apply bind_ext; intros modified wd.
    apply bind_ext; intros _ we. apply bind_ext; intros _ wf.
    apply bind_ext; intros _ wg. apply IH; lia.
Qed.

Lemma costs_readFileSync (path : jsstring) : costs 0 0 (readFileSync path).
Proof.
  intro w. unfold readFileSync, builds, prompts.
  destruct (fs_lookup path (fs w)); simpl; lia.
Qed.

Lemma costs_createSession (env : Env) : costs 0 0 (createSession env).
Proof.
  intro w. unfold createSession, builds, prompts.
  destruct (create_session env w); simpl; lia.
Qed.

Lemma costs_retry_block (env : Env) (resolve : jsstring -> jsstring) (opts : Opts)
    (filePath sessionId : jsstring) :
  costs (maxRetries + 1) maxRetries (retry_block env resolve opts filePath sessionId).
Proof.
  unfold retry_block. destruct (truthy (retryBuild opts)) as [project|].
  - eapply costs_weaken; [apply costs_retry_loop| |]; unfold maxRetries; simpl; lia.
  - eapply costs_weaken; [apply costs_ret| |]; lia.
Qed.

Lemma costs_rewrite_file (env : Env) (resolve : jsstring -> jsstring) (opts : Opts)
    (prompt filePath fileContents sessionId : jsstring) :
  costs (maxRetries + 1) (1 + maxRetries)
        (rewrite_file env resolve opts prompt filePath fileContents sessionId).
Proof.
  unfold rewrite_file.
  apply (@costs_weaken _ (0 + (maxRetries + 1)) (1 + maxRetries)); [|lia|lia].
  apply costs_bind; [apply costs_exchange|]. intro modified.
  destruct (str_eqb fileContents modified).
  { eapply costs_weaken; [apply costs_console_log| |]; lia. }
  destruct (dryRun opts).
  { apply (@costs_weaken _ (0 + (0 + (0 + 0))) (0 + (0 + (0 + 0)))); [|lia|lia].
    repeat (apply costs_bind; [apply costs_console_log|]; intros _).
    apply costs_console_log. }
  apply (@costs_weaken _ (0 + (0 + (maxRetries + 1))) (0 + (0 + maxRetries))); [|lia|lia].
  apply costs_bind; [apply costs_writeFileSync|]. intros _.
  apply costs_bind; [apply costs_console_log|]. intros _.
  apply costs_retry_block.
Qed.

Lemma costs_process_file (env : Env) (resolve : jsstring -> jsstring) (opts : Opts)
    (prompt : jsstring) (n i : nat) (filePath : jsstring) :
  costs (maxRetries + 1) (1 + maxRetries)
        (process_file env resolve opts prompt n i filePath).
Proof.
  unfold process_file.
  apply (@costs_weaken _ (0 + (0 + (0 + (maxRetries + 1 + 0))))
                         (0 + (0 + (0 + (1 + maxRetries + 0))))); [|lia|lia].
  apply costs_bind; [apply costs_console_log|]. intros _.
  apply costs_bind; [apply costs_readFileSync|]. intro fileContents.
  apply costs_bind; [apply costs_createSession|]. intro sessionId.
  apply costs_try_catch; [apply costs_rewrite_file|].
  intro e. unfold console_error. intro w. unfold builds, prompts. simpl. lia.
Qed.

(** C1. For each file processed with a retry target configured, the retry
    loop issues at most [maxRetries] follow-up requests and invokes the
    compiler at most [maxRetries + 2] times, and [maxRetries] is 3, whatever
    the compiler and the service answer.  The bound holds for the loop run
    with any limit, for the retry block of [main], and for the whole turn of
    one file, whose only other request is the first rewrite. *)
Theorem retry_loop_is_bounded (env : Env) (resolve : jsstring -> jsstring)
    (opts : Opts) (prompt project filePath sessionId : jsstring) (n i : nat) :
  (forall maxR : nat,
      costs (maxR + 2) maxR
            (retry_loop env resolve maxR project filePath sessionId maxR 1))
  /\ costs (maxRetries + 2) maxRetries
           (retry_block env resolve opts filePath sessionId)
  /\ costs (maxRetries + 2) (1 + maxRetries)
           (process_file env resolve opts prompt n i filePath)
  /\ maxRetries = 3.
Proof.
  split; [|split; [|split; [|reflexivity]]].
  - intro maxR. eapply costs_weaken; [apply costs_retry_loop| |].
    + destruct (1 <=? maxR); lia.
    + lia.
  - eapply costs_weaken; [apply costs_retry_block| |]; lia.
  - eapply costs_weaken; [apply costs_process_file| |]; lia.
Qed.

(** ** The stream relay *)

(** What the relay writes for a feed, oldest first. *)
Lemma streamDone_writes (sessionId : jsstring) (events : list Event) (w : World) :
  exists out : list jsstring,
    streamDone sessionId events w
    = (Ok tt, {| fs := fs w; trace := map AStdout (rev out) ++ trace w |})
    /\ (forall text, In text out ->
        exists type p, In (EvTyped type (Some p)) events
                       /\ type = lit "message.part.delta"
                       /\ sessionID p = sessionId /\ delta p = text).
Proof.
  revert w. induction events as [|e r IH]; intro w.
  - exists []. split; [destruct w; reflexivity | intros ? []].
  - simpl streamDone. unfold bind.
    destruct (relay_event sessionId e) as [d|] eqn:He.
    + simpl. destruct (IH {| fs := fs w; trace := AStdout d :: trace w |})
        as (out & Hrun & Hout).
      exists (d :: out). split.
      * rewrite Hrun. simpl. rewrite map_app, <- app_assoc. reflexivity.
      * intros text [<-|Hin].
        -- unfold relay_event in He. destruct e as [|type [p|]]; try discriminate;
             [|destruct (str_eqb type (lit "message.part.delta")); discriminate].
           destruct (str_eqb type (lit "message.part.delta")) eqn:Ht; try discriminate.
           destruct (str_eqb (sessionID p) sessionId) eqn:Hs; try discriminate.
           injection He as <-. apply str_eqb_eq in Ht, Hs.
           exists type, p. split; [now left|]. split; [exact Ht|].
           split; [exact Hs | reflexivity].
        -- destruct (Hout text Hin) as (type & p & H1 & H2).
           exists type, p. split; [now right | exact H2].
    + simpl. destruct (IH w) as (out & Hrun & Hout).
      exists out. split.
      * destruct w; exact Hrun.
      * intros text Hin. destruct (Hout text Hin) as (type & p & H1 & H2).
        exists type, p. split; [now right | exact H2].
Qed.

Lemma relay_event_foreign (sessionId : jsstring) (event : Event) :
  of_session sessionId event = false -> relay_event sessionId event = None.
Proof.
  destruct event as [|type [p|]]; simpl; intro H; try reflexivity.
  - rewrite H. now destruct (str_eqb type (lit "message.part.delta")).
  - now destruct (str_eqb type (lit "message.part.delta")).
Qed.

Lemma streamDone_filter (sessionId : jsstring) (events : list Event) (w : World) :
  streamDone sessionId (filter (of_session sessionId) events) w
  = streamDone sessionId events w.
Proof.
  revert w. induction events as [|e r IH]; intro w; [reflexivity|].
  simpl filter. destruct (of_session sessionId e) eqn:He.
  - simpl. apply bind_ext. intros _ w'. apply IH.
  - simpl streamDone. rewrite (relay_event_foreign _ _ He).
    unfold bind at 1. simpl. apply IH.
Qed.

(** C5. Whatever the feed delivers, the relay forwards to the output sink
    only payloads of fragment events whose session id is the active one: the
    writes it makes are the fragments of such events, and a feed from which
    every event of another session is removed gives the same run, however
    many such events are interleaved. *)
Theorem relay_forwards_only_active_session (sessionId : jsstring)
    (events : list Event) (w : World) :
  (exists out : list jsstring,
      streamDone sessionId events w
      = (Ok tt, {| fs := fs w; trace := map AStdout (rev out) ++ trace w |})
      /\ forall text, In text out ->
         exists type p, In (EvTyped type (Some p)) events
                        /\ type = lit "message.part.delta"
                        /\ sessionID p = sessionId /\ delta p = text)
  /\ (forall event, In event events -> of_session sessionId event = false ->
      relay_event sessionId event = None)
  /\ streamDone sessionId (filter (of_session sessionId) events) w
     = streamDone sessionId events w.
Proof.
  split; [apply streamDone_writes|]. split.
  - intros event _ H. now apply relay_event_foreign.
  - apply streamDone_filter.
Qed.

Lemma relay_forwards_only_active_session_witness :
  In (EvTyped (lit "message.part.delta")
              (Some {| sessionID := lit "s2"; delta := lit "foreign" |})) sample_feed
  /\ of_session (lit "s1")
       (EvTyped (lit "message.part.delta")
                (Some {| sessionID := lit "s2"; delta := lit "foreign" |})) = false
  /\ relay_event (lit "s1")
       (EvTyped (lit "message.part.delta")
                (Some {| sessionID := lit "s2"; delta := lit "foreign" |})) = None.
Proof.
  assert (Hin : In (EvTyped (lit "message.part.delta")
                      (Some {| sessionID := lit "s2"; delta := lit "foreign" |}))
                   sample_feed) by (left; reflexivity).
  split; [exact Hin|]. split; [reflexivity|].
  destruct (relay_forwards_only_active_session (lit "s1") sample_feed sample_world)
    as (_ & Hforeign & _).
  exact (Hforeign _ Hin eq_refl).
Defined.

(** On the sample feed only the fragment of session s1 reaches the sink. *)
Example relay_sample :
  streamDone (lit "s1") sample_feed sample_world
  = (Ok tt, {| fs := fs sample_world; trace := [AStdout (lit "class")] |}).
Proof. reflexivity. Qed.

(** ** A feed that cannot be subscribed to *)

Lemma exchange_subscribe_fails (env : Env) (sessionId : jsstring)
    (parts : list ReqPart) (w : World) :
  subscribe env w = SubscribeFails ->
  exchange env sessionId parts w = (Throw (lit "subscribe failed"), after_subscribe w).
Proof.
  intro H. unfold exchange, bind, event_subscribe. rewrite H. reflexivity.
Qed.

(** C6, as the code has it.  When the subscription to the event feed fails,
    [modifyFile] and [sendFollowUp] throw at once: nothing is written to the
    output, no prompt request is issued and no reply is obtained. *)
Theorem subscription_failure_aborts_request (env : Env)
    (sessionId prompt filePath message : jsstring) (w : World) :
  subscribe env w = SubscribeFails ->
  (exists err, modifyFile env sessionId prompt filePath w = (Throw err, after_subscribe w))
  /\ (exists err, sendFollowUp env sessionId message w = (Throw err, after_subscribe w))
  /\ prompts (after_subscribe w) = prompts w.
Proof.
  intro H. split; [|split].
  - eexists. unfold modifyFile. now apply exchange_subscribe_fails.
  - eexists. unfold sendFollowUp. now apply exchange_subscribe_fails.
  - reflexivity.
Qed.

Lemma subscription_failure_aborts_request_witness :
  subscribe env_feed_down sample_world = SubscribeFails
  /\ (exists err, modifyFile env_feed_down (lit "s1") (lit "Add a method M.") (lit "/a/F.cs")
                    sample_world = (Throw err, after_subscribe sample_world))
  /\ prompts (after_subscribe sample_world) = prompts sample_world.
Proof.
  split; [reflexivity|].
  destruct (subscription_failure_aborts_request env_feed_down (lit "s1")
              (lit "Add a method M.") (lit "/a/F.cs") (lit "fix") sample_world eq_refl)
    as (H1 & _ & H3).
  split; [exact H1 | exact H3].
Defined.

(** A feed that is established and delivers nothing is another matter: the
    exchange takes place, and the only output is the final newline. *)
Lemma silent_feed_still_exchanges (env : Env) (sessionId : jsstring)
    (parts : list ReqPart) (w : World) (ending : StreamEnd) (reply : list Part) :
  subscribe env w = Subscribed [] ending -> ending <> Broken ->
  prompt_reply env (after_subscribe w) sessionId parts = Data reply ->
  exchange env sessionId parts w
  = (Ok (extractCode reply),
     {| fs := fs w;
        trace := AStdout [newline] :: APrompt sessionId parts :: ASubscribe :: trace w |}).
Proof.
  intros Hsub Hend Hreply.
  unfold exchange, bind, event_subscribe, try_catch, session_prompt.
  rewrite Hsub. cbn [fs trace]. fold (after_subscribe w). rewrite Hreply.
  destruct ending; [reflexivity | reflexivity | congruence].
Qed.

(** C6, as the specification has it, fails: with a feed that cannot be
    subscribed to and a service that would answer, [modifyFile] returns no
    code. *)
Lemma subscription_failure_does_not_degrade :
  ~ degrades_to_no_live_output env_feed_down (lit "s1") (lit "Add a method M.")
      (lit "/a/F.cs") sample_world.
Proof.
  intro H. destruct (H eq_refl) as (code & w' & Heq & _).
  vm_compute in Heq. discriminate Heq.
Qed.

(** ** Failures while one file is processed *)















(** The first part of a turn, up to the [try]. *)
Lemma process_file_unfold (env : Env) (resolve : jsstring -> jsstring) (opts : Opts)
    (prompt : jsstring) (n i : nat) (f : jsstring) (w : World)
    (contents sid : jsstring) :
  fs_lookup f (fs w) = Some contents ->
  create_session env (before_session n i f w) = Data sid ->
  process_file env resolve opts prompt n i f w
  = try_catch (rewrite_file env resolve opts prompt f contents sid)
      (fun err => console_error (lit "  Error processing " ++ f ++ lit ": " ++ err))
      (after_session n i f w).
Proof.
  intros Hread Hsession.
  unfold process_file, bind at 1 2 3, console_log, act, readFileSync, createSession.
  cbn [fs trace]. rewrite Hread.
  change {| fs := fs w; trace := ARead f :: _ |} with (before_session n i f w).
  rewrite Hsession. reflexivity.
Qed.

Lemma getBuildErrorFiles_ok (env : Env) (resolve : jsstring -> jsstring)
    (project : jsstring) (printOutput : bool) (w : World) :
  exists errorFiles w',
    getBuildErrorFiles env resolve project printOutput w = (Ok errorFiles, w')
    /\ fs w' = fs w.
Proof.
  unfold getBuildErrorFiles, bind, console_log, act, dotnet_build.
  destruct printOutput; cbn; do 2 eexists; split; reflexivity.
Qed.



(** The whole run on the same input: the failure is reported, the run ends
    normally, and /a/F.cs holds the rewrite. *)
Example retry_failure_run :
  exists w',
    run_main env_retry_down (Path.posix_resolve (lit "/")) sample_opts [lit "/a/F.cs"]
      sample_world = (Ok tt, w')
    /\ fs_lookup (lit "/a/F.cs") (fs w')
       = Some (lit "class A { void M(){} }" ++ [newline])
    /\ prompts w' = 2 /\ builds w' = 1.
Proof. eexists. split; [vm_compute; reflexivity|]. repeat split. Qed.

(** The creation of the session is outside the [try]: when it fails the
    exception reaches [main().catch] and the run ends with exit code 1; the
    second file is never read. *)
Example session_failure_ends_run :
  exists w',
    run_main env_session_down (Path.posix_resolve (lit "/")) sample_opts
      [lit "/a/F.cs"; lit "/a/G.cs"] sample_world = (Exit 1, w')
    /\ filter is_read (trace w') = [ARead (lit "/a/F.cs"); ARead (lit "/p.txt")].
Proof. eexists. split; [vm_compute; reflexivity|]. reflexivity. Qed.

(** ** The matcher *)

Lemma flat_map_head {A B} (f : A -> list B) (l : list A) (x : B) (r : list B) :
  flat_map f l = x :: r -> exists y r', In y l /\ f y = x :: r'.
Proof.
  induction l as [|a l IH]; simpl; [discriminate|].
  destruct (f a) as [|b t] eqn:E; simpl.
  - intro H. destruct (IH H) as (y & r' & Hin & Hy). exists y, r'. auto.
  - intro H. injection H as -> _. exists a, t. auto.
Qed.

Lemma map_head {A B} (f : A -> B) (l : list A) (x : B) (r : list B) :
  map f l = x :: r -> exists y r', l = y :: r' /\ x = f y.
Proof. destruct l as [|a l]; simpl; [discriminate|]. intro H. injection H as <- _. eauto. Qed.

Lemma run_Lit (l : jsstring) (st : mstate) :
  run (Lit l) st
  = if prefixb l (rest st)
    then [MState (pos st + List.length l) (skipn (List.length l) (rest st)) (cap st)]
    else [].
Proof.
  revert st. induction l as [|c l IH]; intros [n s k]; simpl.
  - now rewrite Nat.add_0_r.
  - destruct s as [|d s]; [reflexivity|].
    destruct (char_eqb c d); simpl; [|reflexivity].
    rewrite IH, app_nil_r. simpl.
    destruct (prefixb l s); [|reflexivity]. now rewrite Nat.add_succ_r.
Qed.

Lemma any_char_true (c : char) : any_char c = true.
Proof. unfold any_char. now destruct (is_space c). Qed.

(** [[\s\S]*?] tries every length, the shortest first. *)
Lemma star_lazy_any (n : nat) (s : jsstring) :
  star_lazy any_char n s
  = map (fun k => (n + k, skipn k s)) (seq 0 (S (List.length s))).
Proof.
  revert n. induction s as [|c s IH]; intro n.
  - simpl. now rewrite Nat.add_0_r.
  - cbn [star_lazy]. rewrite any_char_true, IH.
    cbn [List.length].
    change (seq 0 (S (S (List.length s)))) with (0 :: seq 1 (S (List.length s))).
    rewrite <- seq_shift. cbn [map skipn]. rewrite map_map, Nat.add_0_r. f_equal.
    apply map_ext. intro k. now rewrite Nat.add_succ_r.
Qed.

Lemma flat_map_map {A B C} (f : B -> list C) (g : A -> B) (l : list A) :
  flat_map f (map g l) = flat_map (fun a => f (g a)) l.
Proof. induction l as [|a l IH]; simpl; [reflexivity | now rewrite IH]. Qed.

(** The first index of a range at which a test holds decides the head. *)
Lemma first_hit {B} (t : nat -> bool) (g : nat -> B) (a len : nat) (x : B) (r : list B) :
  flat_map (fun k => if t k then [g k] else []) (seq a len) = x :: r ->
  exists k, a <= k < a + len /\ t k = true /\ x = g k
            /\ forall j, a <= j < k -> t j = false.
Proof.
  revert a. induction len as [|len IH]; intro a; simpl; [discriminate|].
  destruct (t a) eqn:E; simpl.
  - intro H. injection H as <- _. exists a. repeat split; auto; lia.
  - intro H. destruct (IH _ H) as (k & Hk & Ht & Hx & Hj).
    exists k. repeat split; auto; try lia.
    intros j Hj'. destruct (Nat.eq_dec j a) as [->|]; [exact E | apply Hj; lia].
Qed.

Lemma first_hit_at {B} (t : nat -> bool) (g : nat -> B) (a len k : nat) :
  a <= k < a + len -> t k = true -> (forall j, a <= j < k -> t j = false) ->
  exists r, flat_map (fun k => if t k then [g k] else []) (seq a len) = g k :: r.
Proof.
  revert a. induction len as [|len IH]; intros a Hk Ht Hj; simpl; [lia|].
  destruct (Nat.eq_dec a k) as [->|Hne].
  - rewrite Ht. simpl. eauto.
  - rewrite (Hj a) by lia. simpl. apply IH; auto; try lia.
    intros j Hj'. apply Hj. lia.
Qed.

(** The tail of the fence expression, [([\s\S]*?)```]: one candidate for
    each length of the group. *)
Lemma run_body_fence (st : mstate) :
  run (Seq (Group (StarLazy any_char)) (Lit fence)) st
  = flat_map
      (fun k => if prefixb fence (skipn k (rest st))
                then [MState (pos st + k + 3) (skipn 3 (skipn k (rest st)))
                             (Some (firstn k (rest st)))]
                else [])
      (seq 0 (S (List.length (rest st)))).
Proof.
  cbn [run]. rewrite star_lazy_any, !map_map, flat_map_map.
  apply flat_map_ext. intro k. rewrite run_Lit. cbn [rest pos cap].
  replace (pos st + k - pos st) with k by lia. reflexivity.
Qed.

Lemma prefixb_firstn (p s : jsstring) (k : nat) :
  prefixb p (firstn k s) = true -> prefixb p s = true.
Proof.
  revert s k. induction p as [|a p IH]; intros s k; [reflexivity|].
  destruct k as [|k], s as [|b s]; simpl; try discriminate.
  intro H. apply andb_true_iff in H as [H1 H2].
  rewrite H1. simpl. now apply (IH s k).
Qed.

Lemma no_fence_firstn (k : nat) (s : jsstring) :
  (forall j, j < k -> prefixb fence (skipn j s) = false) ->
  has_fence (firstn k s) = false.
Proof.
  revert s. induction k as [|k IH]; intros s H.
  - reflexivity.
  - destruct s as [|c s]; [reflexivity|].
    cbn [firstn has_fence]. apply orb_false_iff. split.
    + destruct (prefixb fence (c :: firstn k s)) eqn:E; [|reflexivity].
      apply (prefixb_firstn fence (c :: s) (S k)) in E.
      rewrite <- (H 0) by lia. now rewrite <- E.
    + apply IH. intros j Hj. apply (H (S j)). lia.
Qed.

Lemma exec_from_some (r : re) (n : nat) (s : jsstring) (m : option jsstring) :
  exec_from r n s = Some m ->
  exists n' s' st l, run r (MState n' s' None) = st :: l /\ cap st = m.
Proof.
  revert n. induction s as [|c s IH]; intro n; simpl.
  - destruct (run r (MState n [] None)) as [|st l] eqn:E; [discriminate|].
    intro H. injection H as <-. eauto 6.
  - destruct (run r (MState n (c :: s) None)) as [|st l] eqn:E.
    + apply IH.
    + intro H. injection H as <-. eauto 6.
Qed.

(** Group 1 of a match of the fence expression is defined and holds no
    fence marker. *)
Lemma fence_capture (text : jsstring) (m : option jsstring) :
  exec fence_re text = Some m -> exists c, m = Some c /\ has_fence c = false.
Proof.
  intro H. apply exec_from_some in H as (n & s & st & l & Hrun & <-).
  unfold fence_re in Hrun. cbn [run] in Hrun.
  apply flat_map_head in Hrun as (st1 & l1 & _ & Hrun).
  apply flat_map_head in Hrun as (st2 & l2 & _ & Hrun).
  apply flat_map_head in Hrun as (st3 & l3 & _ & Hrun).
  apply flat_map_head in Hrun as (st4 & l4 & _ & Hrun).
  change (run (Seq (Group (StarLazy any_char)) (Lit fence)) st4 = st :: l4) in Hrun.
  rewrite run_body_fence in Hrun.
  apply first_hit in Hrun as (k & _ & _ & -> & Hfirst).
  exists (firstn k (rest st4)). split; [reflexivity|].
  apply no_fence_firstn. intros j Hj. apply Hfirst. lia.
Qed.

(** *** Trimming *)

Lemma trimEnd_last (s : jsstring) :
  trimEnd s = [] \/ exists t c, trimEnd s = t ++ [c] /\ is_space c = false.
Proof.
  induction s as [|c s IH]; simpl; [now left|].
  destruct (trimEnd s) as [|d t] eqn:E.
  - destruct (is_space c) eqn:Hc; [now left|].
    right. exists [], c. auto.
  - right. destruct IH as [IH|(t' & c' & Ht & Hc)]; [discriminate|].
    exists (c :: t'), c'. rewrite Ht. auto.
Qed.

Lemma trimEnd_prefix (s : jsstring) : exists t, s = trimEnd s ++ t.
Proof.
  induction s as [|c s [t IH]]; simpl; [now exists []|].
  destruct (trimEnd s) as [|d u] eqn:E.
  - destruct (is_space c); [now exists (c :: s)|].
    exists s. reflexivity.
  - exists t. simpl in *. now rewrite <- IH.
Qed.

Lemma ends_with_one_newline_trimEnd (s : jsstring) :
  ends_with_one_newline (trimEnd s ++ [newline]) = true.
Proof.
  unfold ends_with_one_newline. rewrite rev_app_distr. simpl.
  destruct (trimEnd_last s) as [->|(t & c & -> & Hc)]; [reflexivity|].
  rewrite rev_app_distr. simpl.
  destruct (char_eqb c newline) eqn:E; [|reflexivity].
  apply char_eqb_eq in E. subst c. discriminate Hc.
Qed.

Lemma prefixb_app_l (p a b : jsstring) :
  prefixb p a = true -> prefixb p (a ++ b) = true.
Proof.
  revert a. induction p as [|x p IH]; intros [|y a]; simpl; try discriminate; auto.
  intro H. apply andb_true_iff in H as [-> H]. simpl. now apply IH.
Qed.

Lemma has_fence_app_l (a b : jsstring) :
  has_fence (a ++ b) = false -> has_fence a = false.
Proof.
  induction a as [|c a IH]; [reflexivity|].
  cbn [app has_fence]. intro H. apply orb_false_iff in H as [H1 H2].
  apply orb_false_iff. split; [|now apply IH].
  destruct (prefixb fence (c :: a)) eqn:E; [|reflexivity].
  pose proof (prefixb_app_l fence (c :: a) b E) as H3.
  cbn [app] in H3. congruence.
Qed.

(** A newline separates: a fence is on one side of it or on the other. *)
Lemma has_fence_app_newline (a b : jsstring) :
  has_fence (a ++ newline :: b) = has_fence a || has_fence b.
Proof.
  induction a as [|c a IH].
  - reflexivity.
  - cbn [app has_fence]. rewrite IH, orb_assoc. f_equal. f_equal.
    destruct a as [|d [|e a]]; simpl; rewrite ?andb_false_r; reflexivity.
Qed.

Lemma has_fence_trimEnd_newline (c : jsstring) :
  has_fence c = false -> has_fence (trimEnd c ++ [newline]) = false.
Proof.
  intro H. rewrite has_fence_app_newline.
  destruct (trimEnd_prefix c) as [t Ht]. rewrite Ht in H.
  now rewrite (has_fence_app_l _ _ H).
Qed.

(** ** The response extractor *)

(** C4, as the code has it.  The string [extractCode] returns always ends
    with exactly one newline.  When a fenced block is found it holds no
    fence marker; when none is found it is the whole text, trimmed at the
    end, with whatever fence markers the text has. *)
Theorem extractCode_ends_with_one_newline (parts : list Part) :
  ends_with_one_newline (extractCode parts) = true
  /\ match exec fence_re (join [newline] (textParts parts)) with
     | Some _ => has_fence (extractCode parts) = false
     | None => extractCode parts
               = trimEnd (join [newline] (textParts parts)) ++ [newline]
     end.
Proof.
  unfold extractCode.
  destruct (exec fence_re (join [newline] (textParts parts))) as [m|] eqn:E.
  - split; [apply ends_with_one_newline_trimEnd|].
    apply fence_capture in E as (c & -> & Hc). now apply has_fence_trimEnd_newline.
  - split; [apply ends_with_one_newline_trimEnd | reflexivity].
Qed.

(** C4, as the specification has it, fails in the fallback branch: a text
    with a fence marker and no fenced block keeps the marker. *)
Lemma fallback_keeps_fence_markers :
  has_fence (extractCode [TextPart (lit "see ``` above")]) = true.
Proof. reflexivity. Qed.

(** *** The search does not depend on where the text starts *)

Lemma star_greedy_shift (p : char -> bool) (d n : nat) (s : jsstring) :
  star_greedy p (d + n) s = map (fun x => (d + fst x, snd x)) (star_greedy p n s).
Proof.
  revert n. induction s as [|c s IH]; intro n; simpl; [reflexivity|].
  destruct (p c); [|reflexivity].
  rewrite map_app. simpl. now rewrite <- IH, Nat.add_succ_r.
Qed.

Lemma star_lazy_shift (p : char -> bool) (d n : nat) (s : jsstring) :
  star_lazy p (d + n) s = map (fun x => (d + fst x, snd x)) (star_lazy p n s).
Proof.
  revert n. induction s as [|c s IH]; intro n; simpl; [reflexivity|].
  destruct (p c); [|reflexivity].
  simpl. now rewrite <- IH, Nat.add_succ_r.
Qed.

Lemma run_shift (r : re) (d : nat) (st : mstate) :
  bol_free r = true -> run r (shift d st) = map (shift d) (run r st).
Proof.
  revert st. induction r as [| |p|a IHa b IHb|a IHa b IHb|p|p|a IHa]; intros st Hb;
    simpl in Hb; try discriminate.
  - reflexivity.
  - simpl. destruct (rest st) as [|c t]; [reflexivity|].
    destruct (p c); [|reflexivity]. simpl. unfold shift. simpl.
    now rewrite Nat.add_succ_r.
  - apply andb_true_iff in Hb as [Ha Hb]. simpl. rewrite IHa by assumption.
    rewrite flat_map_map.
    induction (run a st) as [|x l IHl]; simpl; [reflexivity|].
    now rewrite map_app, IHl, IHb.
  - apply andb_true_iff in Hb as [Ha Hb]. simpl.
    now rewrite IHa, IHb, map_app.
  - simpl. rewrite star_greedy_shift, !map_map. apply map_ext. now intros [n s].
  - simpl. rewrite star_lazy_shift, !map_map. apply map_ext. now intros [n s].
  - simpl. rewrite IHa by assumption. rewrite !map_map. apply map_ext.
    intro x. unfold shift. simpl. f_equal. f_equal. f_equal. lia.
Qed.

Lemma exec_from_shift (r : re) (n k : nat) (s : jsstring) :
  bol_free r = true -> exec_from r n s = exec_from r k s.
Proof.
  intro Hb. revert n k.
  induction s as [|c s IH]; intros n k; simpl.
  - replace (MState n [] None) with (shift n (MState 0 [] None))
      by (unfold shift; simpl; f_equal; lia).
    replace (MState k [] None) with (shift k (MState 0 [] None))
      by (unfold shift; simpl; f_equal; lia).
    rewrite !run_shift by assumption.
    now destruct (run r (MState 0 [] None)).
  - replace (MState n (c :: s) None) with (shift n (MState 0 (c :: s) None))
      by (unfold shift; simpl; f_equal; lia).
    replace (MState k (c :: s) None) with (shift k (MState 0 (c :: s) None))
      by (unfold shift; simpl; f_equal; lia).
    rewrite !run_shift by assumption.
    destruct (run r (MState 0 (c :: s) None)); simpl; [apply IH | reflexivity].
Qed.

(** *** Where no fence starts, the fence expression does not match *)

Lemma run_fence_nil (st : mstate) :
  prefixb fence (rest st) = false -> run fence_re st = [].
Proof.
  intro H. unfold fence_re. cbn [run]. fold fence.
  now rewrite run_Lit, H.
Qed.

Lemma exec_skip (pre s : jsstring) (n : nat) :
  (forall j, j < List.length pre -> prefixb fence (skipn j (pre ++ s)) = false) ->
  exec_from fence_re n (pre ++ s) = exec_from fence_re (n + List.length pre) s.
Proof.
  revert n. induction pre as [|c pre IH]; intros n H.
  - simpl. now rewrite Nat.add_0_r.
  - cbn [app exec_from]. rewrite run_fence_nil by (apply (H 0); simpl; lia).
    rewrite IH.
    + simpl. now rewrite Nat.add_succ_r.
    + intros j Hj. apply (H (S j)). simpl. lia.
Qed.

Lemma prefixb_fence_two (a s : jsstring) :
  a <> [] -> prefixb fence (a ++ s) = prefixb fence (a ++ firstn 2 s).
Proof.
  destruct a as [|x [|y [|z a]]]; [congruence| | |]; intros _;
    destruct s as [|u [|v s]]; reflexivity.
Qed.

Lemma no_fence_start (pre s : jsstring) :
  has_fence (pre ++ firstn 2 s) = false ->
  forall j, j < List.length pre -> prefixb fence (skipn j (pre ++ s)) = false.
Proof.
  induction pre as [|c pre IH]; intros H j Hj; simpl in Hj; [lia|].
  cbn [app has_fence] in H. apply orb_false_iff in H as [H1 H2].
  destruct j as [|j].
  - cbn [skipn]. change (c :: pre ++ s) with ((c :: pre) ++ s).
    rewrite prefixb_fence_two by discriminate. exact H1.
  - cbn [app skipn]. apply IH; [exact H2 | lia].
Qed.

(** The fenced block of C7, whatever follows it. *)
Lemma block_X_match (tail : jsstring) :
  exec_from fence_re 0 (block_X ++ tail)
  = Some (Some (lit "X" ++ [newline])).
Proof. reflexivity. Qed.

(** C7, as the code has it.  For every preamble that holds no fence marker
    and every trailer, the parts [preamble], the fenced block of X, and
    [trailer] give exactly X and a newline. *)
Theorem extractCode_block_X (preamble trailer : jsstring) :
  has_fence preamble = false ->
  extractCode [TextPart preamble;
               TextPart block_X;
               TextPart trailer]
  = lit "X" ++ [newline].
Proof.
  intro Hp.
  assert (Hskip : forall P tail,
             has_fence (P ++ firstn 2 (block_X ++ tail)) = false ->
             exec fence_re (P ++ block_X ++ tail) = Some (Some (lit "X" ++ [newline]))).
  { intros P tail H. unfold exec.
    rewrite exec_skip by (now apply no_fence_start).
    rewrite (exec_from_shift _ _ 0) by reflexivity. apply block_X_match. }
  assert (Hpre : forall tail,
             has_fence ((preamble ++ [newline]) ++ firstn 2 (block_X ++ tail)) = false).
  { intro tail. rewrite <- app_assoc. cbn [app].
    rewrite has_fence_app_newline, Hp. reflexivity. }
  unfold extractCode.
  destruct preamble as [|p pre], trailer as [|t tr].
  - replace (join [newline] (textParts [TextPart []; TextPart block_X; TextPart []]))
      with ([] ++ block_X ++ []) by reflexivity.
    rewrite Hskip by reflexivity. reflexivity.
  - replace (join [newline] (textParts [TextPart []; TextPart block_X; TextPart (t :: tr)]))
      with ([] ++ block_X ++ newline :: t :: tr) by reflexivity.
    rewrite Hskip by reflexivity. reflexivity.
  - replace (join [newline] (textParts [TextPart (p :: pre); TextPart block_X; TextPart []]))
      with (((p :: pre) ++ [newline]) ++ block_X ++ [])
      by (rewrite <- app_assoc; reflexivity).
    rewrite Hskip by apply Hpre. reflexivity.
  - replace (join [newline]
               (textParts [TextPart (p :: pre); TextPart block_X; TextPart (t :: tr)]))
      with (((p :: pre) ++ [newline]) ++ block_X ++ newline :: t :: tr)
      by (rewrite <- app_assoc; reflexivity).
    rewrite Hskip by apply Hpre. reflexivity.
Qed.

Lemma extractCode_block_X_witness :
  has_fence (lit "Here is the file:") = false
  /\ extractCode [TextPart (lit "Here is the file:");
                  TextPart block_X;
                  TextPart (lit "Done.")]
     = lit "X" ++ [newline].
Proof.
  split; [reflexivity|].
  apply (extractCode_block_X (lit "Here is the file:") (lit "Done.")). reflexivity.
Defined.

(** C7, as the specification has it, fails: a preamble that is itself a
    fence marker opens a block that ends where the real one starts, and the
    result is an empty line. *)
Lemma preamble_with_fence_wins :
  extractCode [TextPart (lit "```");
               TextPart block_X;
               TextPart (lit "trailer")]
  <> lit "X" ++ [newline].
Proof. vm_compute. discriminate. Qed.

(** *** The language tag *)

Lemma run_Seq (a b : re) (st : mstate) :
  run (Seq a b) st = flat_map (run b) (run a st).
Proof. reflexivity. Qed.

Lemma exec_from_head (r : re) (n : nat) (s : jsstring) (m : mstate) (l : list mstate) :
  run r (MState n s None) = m :: l -> exec_from r n s = Some (cap m).
Proof. intro H. destruct s; simpl; now rewrite H. Qed.

Lemma star_greedy_self (p : char -> bool) (n : nat) (s : jsstring) :
  In (n, s) (star_greedy p n s).
Proof.
  destruct s as [|c s]; simpl; [now left|].
  destruct (p c); [apply in_or_app; right|]; now left.
Qed.

Lemma prefixb_refl_app (p s : jsstring) : prefixb p (p ++ s) = true.
Proof.
  induction p as [|c p IH]; [reflexivity|]. simpl.
  rewrite IH. unfold char_eqb. now rewrite N.eqb_refl.
Qed.

(** After the tag, a newline, any text, a newline and a fence: the rest of
    the expression can match. *)
Lemma after_tag_matches (n : nat) (X : jsstring) :
  run fence_after_tag (MState n (newline :: X ++ newline :: fence) None) <> [].
Proof.
  intro H.
  assert (Hin : In (MState (S n + S (List.length X) + 3) []
                       (Some (X ++ [newline])))
                   (run fence_after_tag
                        (MState n (newline :: X ++ newline :: fence) None))).
  { unfold fence_after_tag. rewrite run_Seq. apply in_flat_map.
    exists (MState n (newline :: X ++ newline :: fence) None). split.
    - cbn [run rest pos cap]. apply in_map_iff.
      exists (n, newline :: X ++ newline :: fence).
      split; [reflexivity | apply star_greedy_self].
    - rewrite run_Seq.
      change (run (Cls (char_eqb newline))
                  (MState n (newline :: X ++ newline :: fence) None))
        with [MState (S n) (X ++ newline :: fence) None].
      cbn [flat_map]. rewrite app_nil_r. change (lit "```") with fence.
      rewrite run_body_fence. cbn [rest pos]. apply in_flat_map.
      exists (S (List.length X)). split.
      + apply in_seq. rewrite length_app. simpl. lia.
      + replace (X ++ newline :: fence) with ((X ++ [newline]) ++ fence)
          by (now rewrite <- app_assoc).
        replace (S (List.length X)) with (List.length (X ++ [newline]))
          by (rewrite length_app; simpl; lia).
        rewrite skipn_app, skipn_all, Nat.sub_diag, firstn_app, firstn_all,
          Nat.sub_diag. cbn [app skipn firstn]. rewrite app_nil_r.
        change (prefixb fence fence) with true. now left. }
  rewrite H in Hin. exact Hin.
Qed.

(** The three accepted openings lead to the same search after the tag. *)
Lemma run_fence_csharp (s : jsstring) :
  run fence_re (MState 0 (fence ++ lit "csharp" ++ newline :: s) None)
  = run fence_after_tag (MState 9 (newline :: s) None).
Proof. cbn. now rewrite !app_nil_r. Qed.

Lemma run_fence_cs (s : jsstring) :
  run fence_re (MState 0 (fence ++ lit "cs" ++ newline :: s) None)
  = run fence_after_tag (MState 5 (newline :: s) None).
Proof. cbn. now rewrite !app_nil_r. Qed.

Lemma run_fence_no_tag (s : jsstring) :
  run fence_re (MState 0 (fence ++ newline :: s) None)
  = run fence_after_tag (MState 3 (newline :: s) None).
Proof. cbn. now rewrite !app_nil_r. Qed.

Lemma extractCode_single (s : jsstring) :
  s <> [] ->
  extractCode [TextPart s]
  = match exec fence_re s with
    | Some m => trimEnd (or_empty m) ++ [newline]
    | None => trimEnd s ++ [newline]
    end.
Proof. destruct s; [congruence | reflexivity]. Qed.

Lemma trimEnd_keeps (s : jsstring) (c : char) :
  is_space c = false -> trimEnd (s ++ [c]) = s ++ [c].
Proof.
  intro Hc. induction s as [|a s IH]; simpl.
  - now rewrite Hc.
  - rewrite IH. now destruct (s ++ [c]) eqn:E; [destruct s; discriminate|].
Qed.

Lemma fenced_not_nil (tag X : jsstring) : fenced tag X <> [].
Proof. discriminate. Qed.

(** With one of the accepted openings, group 1 is what the search after the
    tag finds, wherever the tag ends. *)
Lemma exec_fenced_accepted (X : jsstring) :
  exists c,
    exec fence_re (fenced (lit "csharp") X) = Some c
    /\ exec fence_re (fenced (lit "cs") X) = Some c
    /\ exec fence_re (fenced [] X) = Some c.
Proof.
  destruct (run fence_after_tag (MState 0 (newline :: X ++ newline :: fence) None))
    as [|m l] eqn:E; [now apply after_tag_matches in E|].
  assert (Hd : forall d,
             run fence_after_tag (MState (d + 0) (newline :: X ++ newline :: fence) None)
             = shift d m :: map (shift d) l).
  { intro d.
    change (MState (d + 0) (newline :: X ++ newline :: fence) None)
      with (shift d (MState 0 (newline :: X ++ newline :: fence) None)).
    rewrite run_shift by reflexivity. now rewrite E. }
  exists (cap m). unfold exec, fenced. split; [|split].
  - rewrite (@exec_from_head fence_re 0 _ (shift 9 m) (map (shift 9) l));
      [reflexivity|]. rewrite run_fence_csharp. apply (Hd 9).
  - rewrite (@exec_from_head fence_re 0 _ (shift 5 m) (map (shift 5) l));
      [reflexivity|]. rewrite run_fence_cs. apply (Hd 5).
  - rewrite (@exec_from_head fence_re 0 _ (shift 3 m) (map (shift 3) l));
      [reflexivity|]. cbn [app]. rewrite run_fence_no_tag. apply (Hd 3).
Qed.

(** An opening whose tag is another casing of csharp or cs is not an opening
    for the expression, and the tag holds no fence marker. *)
Lemma other_casings_rejected :
  Forall (fun tag =>
            str_eqb tag (lit "csharp") || str_eqb tag (lit "cs") = false ->
            (forall s, run fence_re (MState 0 (fence ++ tag ++ newline :: s) None) = [])
            /\ has_fence (lit "``" ++ tag) = false)
         (casings (lit "csharp") ++ casings (lit "cs")).
Proof.
  set (l := casings (lit "csharp") ++ casings (lit "cs")).
  vm_compute in l. subst l.
  repeat (constructor;
          [intro H;
           first [vm_compute in H; discriminate H
                 | split; [intro s|]; reflexivity]|]).
  constructor.
Qed.

Lemma exec_fence_only (n : nat) : exec_from fence_re n fence = None.
Proof. rewrite (exec_from_shift _ _ 0) by reflexivity. reflexivity. Qed.

(** A text that is one block whose opening the expression does not take,
    around a content without fence marker, has no match at all and is
    returned whole. *)
Lemma rejected_opening_falls_back (tag X : jsstring) :
  run fence_re (MState 0 (fenced tag X) None) = [] ->
  has_fence (lit "``" ++ tag) = false ->
  has_fence X = false ->
  exec fence_re (fenced tag X) = None
  /\ extractCode [TextPart (fenced tag X)] = fenced tag X ++ [newline].
Proof.
  intros Hrun Htag HX.
  assert (Hexec : exec fence_re (fenced tag X) = None).
  { unfold exec. unfold fenced in *.
    change (fence ++ tag ++ newline :: X ++ newline :: fence)
      with (backtick :: lit "``" ++ tag ++ newline :: X ++ newline :: fence).
    cbn [exec_from].
    change (backtick :: lit "``" ++ tag ++ newline :: X ++ newline :: fence)
      with (fence ++ tag ++ newline :: X ++ newline :: fence).
    rewrite Hrun.
    replace (lit "``" ++ tag ++ newline :: X ++ newline :: fence)
      with ((lit "``" ++ tag ++ newline :: X ++ [newline]) ++ fence)
      by (rewrite <- !app_assoc; cbn [app]; now rewrite <- !app_assoc).
    rewrite exec_skip; [apply exec_fence_only|].
    apply no_fence_start.
    change (firstn 2 fence) with (lit "``").
    replace ((lit "``" ++ tag ++ newline :: X ++ [newline]) ++ lit "``")
      with ((lit "``" ++ tag) ++ newline :: X ++ newline :: lit "``")
      by (rewrite <- !app_assoc; cbn [app]; now rewrite <- !app_assoc).
    now rewrite !has_fence_app_newline, Htag, HX. }
  split; [exact Hexec|].
  rewrite extractCode_single by apply fenced_not_nil. rewrite Hexec.
  f_equal. unfold fenced.
  replace (fence ++ tag ++ newline :: X ++ newline :: fence)
    with ((fence ++ tag ++ newline :: X ++ newline :: lit "``") ++ [backtick])
    by (rewrite <- !app_assoc; cbn [app]; now rewrite <- !app_assoc).
  now apply trimEnd_keeps.
Qed.

(** Two texts that agree and are cut at their first white space are cut at
    the same place. *)
Lemma first_space_unique (a b x y : jsstring) (c d : char) :
  forallb (fun e => negb (is_space e)) a = true ->
  forallb (fun e => negb (is_space e)) b = true ->
  is_space c = true -> is_space d = true ->
  a ++ c :: x = b ++ d :: y -> a = b.
Proof.
  revert b. induction a as [|e a IH]; intros [|e' b] Ha Hb Hc Hd H; simpl in *.
  - reflexivity.
  - injection H as -> _. apply andb_true_iff in Hb as [Hb _].
    rewrite Hc in Hb. discriminate.
  - injection H as -> _. apply andb_true_iff in Ha as [Ha _].
    rewrite Hd in Ha. discriminate.
  - injection H as -> H. apply andb_true_iff in Ha as [_ Ha].
    apply andb_true_iff in Hb as [_ Hb]. f_equal. now apply (IH b).
Qed.

Lemma plain_tag_no_space (tag : jsstring) :
  plain_tag tag = true -> forallb (fun e => negb (is_space e)) tag = true.
Proof.
  unfold plain_tag. induction tag as [|c tag IH]; simpl; [reflexivity|].
  intro H. apply andb_true_iff in H as [Hc H]. apply andb_true_iff in Hc as [Hc _].
  now rewrite Hc, IH.
Qed.

Lemma not_backtick (c : char) :
  char_eqb c backtick = false -> char_eqb backtick c = false.
Proof. unfold char_eqb. now rewrite N.eqb_sym. Qed.

Lemma plain_tag_no_fence (tag : jsstring) :
  plain_tag tag = true -> has_fence (lit "``" ++ tag) = false.
Proof.
  intro H.
  assert (Hin : forall t, plain_tag t = true -> has_fence t = false).
  { unfold plain_tag. induction t as [|c t IH]; [reflexivity|].
    cbn [forallb]. intro Ht. apply andb_true_iff in Ht as [Hc Ht].
    apply andb_true_iff in Hc as [_ Hc]. apply negb_true_iff in Hc.
    apply not_backtick in Hc.
    cbn [has_fence]. rewrite (IH Ht), orb_false_r.
    change fence with [backtick; backtick; backtick]. cbn [prefixb].
    now rewrite Hc. }
  pose proof (Hin tag H) as Hf.
  destruct tag as [|c tag]; [reflexivity|].
  unfold plain_tag in H. cbn [forallb] in H. apply andb_true_iff in H as [Hc _].
  apply andb_true_iff in Hc as [_ Hc]. apply negb_true_iff in Hc.
  apply not_backtick in Hc.
  change (lit "``" ++ c :: tag) with (backtick :: backtick :: c :: tag).
  cbn [has_fence] in *. rewrite Hf.
  change fence with [backtick; backtick; backtick]. cbn [prefixb].
  rewrite Hc, !andb_false_r. reflexivity.
Qed.

(** C8, as the specification has it, fails: the block tagged CSharp is not
    extracted as the block tagged csharp is. *)
Lemma upper_case_tag_is_not_extracted :
  extractCode [TextPart (fenced (lit "CSharp") (lit "X"))]
  <> extractCode [TextPart (fenced (lit "csharp") (lit "X"))].
Proof. vm_compute. discriminate. Qed.

(** ** Diagnostic extraction *)

(** *** What a match consumes *)

Lemma star_greedy_sound (p : char -> bool) (n : nat) (s : jsstring) (n' : nat)
    (s' : jsstring) :
  In (n', s') (star_greedy p n s) ->
  exists w, s = w ++ s' /\ n' = n + List.length w /\ forallb p w = true.
Proof.
  revert n. induction s as [|c s IH]; intro n; simpl.
  - intros [H|[]]. injection H as <- <-. exists []. simpl. auto.
  - destruct (p c) eqn:Hc.
    + intro H. apply in_app_or in H as [H|[H|[]]].
      * destruct (IH _ H) as (w & -> & -> & Hw). exists (c :: w). simpl.
        rewrite Hc, Hw. repeat split. lia.
      * injection H as <- <-. exists []. simpl. auto.
    + intros [H|[]]. injection H as <- <-. exists []. simpl. auto.
Qed.

Lemma star_lazy_sound (p : char -> bool) (n : nat) (s : jsstring) (n' : nat)
    (s' : jsstring) :
  In (n', s') (star_lazy p n s) ->
  exists w, s = w ++ s' /\ n' = n + List.length w /\ forallb p w = true.
Proof.
  revert n. induction s as [|c s IH]; intro n; simpl.
  - intros [H|[]]. injection H as <- <-. exists []. simpl. auto.
  - destruct (p c) eqn:Hc.
    + intros [H|H].
      * injection H as <- <-. exists []. simpl. auto.
      * destruct (IH _ H) as (w & -> & -> & Hw). exists (c :: w). simpl.
        rewrite Hc, Hw. repeat split. lia.
    + intros [H|[]]. injection H as <- <-. exists []. simpl. auto.
Qed.

(** Every way [run] lists consumes a text of the language of the
    expression. *)
Lemma run_sound (r : re) (st st' : mstate) :
  In st' (run r st) ->
  exists w, rest st = w ++ rest st' /\ pos st' = pos st + List.length w /\ lang r w.
Proof.
  revert st st'. induction r as [| |p|a IHa b IHb|a IHa b IHb|p|p|a IHa];
    intros st st'; simpl.
  - destruct (pos st) eqn:E; [|intros []]. intros [<-|[]]. exists []. simpl.
    repeat split; auto; lia.
  - intros [<-|[]]. exists []. simpl. repeat split; auto; lia.
  - destruct (rest st) as [|c t] eqn:E; [intros []|].
    destruct (p c) eqn:Hp; [|intros []]. intros [<-|[]].
    exists [c]. simpl. repeat split; [lia|]. exists c. auto.
  - intro H. apply in_flat_map in H as (st1 & H1 & H2).
    destruct (IHa _ _ H1) as (u & Hu & Hpu & Hlu).
    destruct (IHb _ _ H2) as (v & Hv & Hpv & Hlv).
    exists (u ++ v). rewrite Hu, Hv, <- app_assoc, length_app.
    repeat split; [lia|]. exists u, v. auto.
  - intro H. apply in_app_or in H as [H|H].
    + destruct (IHa _ _ H) as (w & H1 & H2 & H3). exists w. auto.
    + destruct (IHb _ _ H) as (w & H1 & H2 & H3). exists w. auto.
  - intro H. apply in_map_iff in H as ([n s] & <- & H).
    apply star_greedy_sound in H as (w & H1 & H2 & H3). exists w. simpl. auto.
  - intro H. apply in_map_iff in H as ([n s] & <- & H).
    apply star_lazy_sound in H as (w & H1 & H2 & H3). exists w. simpl. auto.
  - intro H. apply in_map_iff in H as (st1 & <- & H).
    destruct (IHa _ _ H) as (w & H1 & H2 & H3). exists w. simpl. auto.
Qed.

Lemma lang_Lit (l w : jsstring) : lang (Lit l) w -> w = l.
Proof.
  revert w. induction l as [|c l IH]; intro w; simpl; [auto|].
  intros (u & v & -> & (d & -> & Hd) & Hv).
  apply char_eqb_eq in Hd. subst d. simpl. f_equal. now apply IH.
Qed.

(** An expression that starts with [^] matches at the start of the text
    only. *)
Lemma exec_from_Bol (r : re) (n : nat) (s : jsstring) :
  exec_from (Seq Bol r) (S n) s = None.
Proof. revert n. induction s as [|c s IH]; intro n; simpl; [reflexivity | apply IH]. Qed.

Lemma exec_Bol (r : re) (s : jsstring) :
  exec (Seq Bol r) s
  = match run (Seq Bol r) (MState 0 s None) with
    | m :: _ => Some (cap m)
    | [] => None
    end.
Proof.
  unfold exec. destruct s as [|c s]; cbn [exec_from].
  - now destruct (run (Seq Bol r) (MState 0 [] None)).
  - destruct (run (Seq Bol r) (MState 0 (c :: s) None)); [apply exec_from_Bol | reflexivity].
Qed.

(** What group 1 of a match of [^\s*( body )] is. *)
Lemma run_Bol_space_group (body : re) (line : jsstring) (st : mstate) :
  In st (run (Seq Bol (Seq (Star is_space) (Group body))) (MState 0 line None)) ->
  exists ws w,
    line = ws ++ w ++ rest st /\ cap st = Some w
    /\ pos st = List.length ws + List.length w
    /\ forallb is_space ws = true /\ lang body w.
Proof.
  rewrite run_Seq. change (run Bol (MState 0 line None)) with [MState 0 line None].
  cbn [flat_map]. rewrite app_nil_r, run_Seq.
  intro H. apply in_flat_map in H as (st1 & H1 & H2).
  apply run_sound in H1 as (ws & Hws & Hpos & Hsp). cbn [rest pos lang] in *.
  cbn [run] in H2. apply in_map_iff in H2 as (st2 & <- & H2).
  apply run_sound in H2 as (w & Hw & Hpw & Hl).
  exists ws, w. cbn [rest cap pos]. rewrite Hws, Hw. repeat split; auto.
  - f_equal. rewrite Hpw. replace (pos st1 + List.length w - pos st1)
      with (List.length w) by lia.
    now rewrite firstn_app, firstn_all, Nat.sub_diag, app_nil_r.
  - lia.
Qed.

Lemma forallb_digit_plus (w : jsstring) :
  lang (Plus digit) w -> w <> [] /\ forallb digit w = true.
Proof.
  simpl. intros (u & v & -> & (c & -> & Hc) & Hv). simpl.
  rewrite Hc, Hv. split; [discriminate | reflexivity].
Qed.

(** The language of the expression of [getBuildErrors], spelled out. *)
Lemma errline_shape (line : jsstring) (m : option jsstring) :
  exec errline_re line = Some m ->
  error_line_shape line
  /\ exists ws w tail, line = ws ++ w ++ tail /\ m = Some w
                       /\ forallb is_space ws = true.
Proof.
  unfold errline_re. rewrite exec_Bol.
  destruct (run _ (MState 0 line None)) as [|st l] eqn:E; [discriminate|].
  intro H. injection H as <-.
  assert (Hin : In st (st :: l)) by now left. rewrite <- E in Hin.
  apply run_Bol_space_group in Hin as (ws & w & Hline & Hcap & _ & Hws & Hl).
  split; [|exists ws, w, (rest st); auto].
  unfold location_error_re in Hl. cbn [lang] in Hl.
  repeat match goal with
         | H : exists _, _ |- _ => destruct H
         | H : _ /\ _ |- _ => destruct H
         end.
  repeat match goal with
         | H : lang (Lit _) _ |- _ => apply lang_Lit in H
         | H : lang (Plus digit) _ |- _ => apply forallb_digit_plus in H; destruct H
         end.
  subst. rewrite <- !app_assoc. cbn [app].
  unfold error_line_shape. do 11 eexists. split; [reflexivity|].
  repeat split; eassumption.
Qed.

(** *** The loops as maps and filters *)

Lemma errors_of_filter (resolve : jsstring -> jsstring) (output filePath : jsstring) :
  errors_of resolve output filePath
  = map trim (filter (is_error_for resolve (resolve filePath)) (split newline output)).
Proof.
  unfold errors_of. generalize (split newline output) as lines.
  assert (H : forall lines acc,
             fold_left
               (fun errors line =>
                  if is_error_for resolve (resolve filePath) line
                  then errors ++ [trim line] else errors) lines acc
             = acc ++ map trim (filter (is_error_for resolve (resolve filePath)) lines)).
  { induction lines as [|line lines IH]; intro acc; simpl.
    - now rewrite app_nil_r.
    - rewrite IH. destruct (is_error_for resolve (resolve filePath) line); simpl.
      + now rewrite <- app_assoc.
      + reflexivity. }
  intro lines. apply (H lines []).
Qed.

Lemma hd_split_cls (p : char -> bool) (s : jsstring) :
  hd [] (split_cls p s) = before p s.
Proof.
  induction s as [|c s IH]; simpl; [reflexivity|].
  destruct (p c); [reflexivity|].
  destruct (split_cls p s); simpl in *; now rewrite <- IH.
Qed.

(** *** Brackets of one kind are interchangeable for the expressions *)

Lemma same_class_refl (c : char) : same_class c c.
Proof. now left. Qed.

Lemma Forall2_same_class_refl (s : jsstring) : Forall2 same_class s s.
Proof. induction s; constructor; auto using same_class_refl. Qed.

Lemma is_open_cases (c : char) : is_open c = true -> c = 91%N \/ c = 40%N.
Proof.
  unfold is_open. intro H. apply orb_true_iff in H as [H|H];
    apply N.eqb_eq in H; auto.
Qed.

Lemma is_close_cases (c : char) : is_close c = true -> c = 93%N \/ c = 41%N.
Proof.
  unfold is_close. intro H. apply orb_true_iff in H as [H|H];
    apply N.eqb_eq in H; auto.
Qed.

Ltac respects_by_cases :=
  let c := fresh "c" in
  let c' := fresh "c'" in
  let H1 := fresh "H" in
  let H2 := fresh "H" in
  intros c c' [->|[[H1 H2]|[H1 H2]]];
  [ reflexivity
  | destruct (is_open_cases _ H1) as [->| ->], (is_open_cases _ H2) as [->| ->];
    reflexivity
  | destruct (is_close_cases _ H1) as [->| ->], (is_close_cases _ H2) as [->| ->];
    reflexivity ].

Lemma errline_re_respects : classes_respect errline_re.
Proof.
  unfold errline_re, location_error_re, Plus. cbn.
  repeat split; respects_by_cases.
Qed.

Lemma Forall2_flat_map {A B} (R : A -> A -> Prop) (S : B -> B -> Prop)
    (f g : A -> list B) (l l' : list A) :
  Forall2 R l l' -> (forall x y, R x y -> Forall2 S (f x) (g y)) ->
  Forall2 S (flat_map f l) (flat_map g l').
Proof.
  intros H Hf. induction H as [|x y l l' Hxy Hl IH]; simpl; [constructor|].
  apply Forall2_app; auto.
Qed.

Lemma Forall2_map {A B} (R : A -> A -> Prop) (S : B -> B -> Prop)
    (f g : A -> B) (l l' : list A) :
  Forall2 R l l' -> (forall x y, R x y -> S (f x) (g y)) ->
  Forall2 S (map f l) (map g l').
Proof.
  intros H Hf. induction H as [|x y l l' Hxy Hl IH]; simpl; constructor; auto.
Qed.

Lemma Forall2_firstn {A} (R : A -> A -> Prop) (n : nat) (l l' : list A) :
  Forall2 R l l' -> Forall2 R (firstn n l) (firstn n l').
Proof.
  intro H. revert n. induction H as [|x y l l' Hxy Hl IH]; intros [|n]; simpl;
    constructor; auto.
Qed.

Lemma star_greedy_sim (p : char -> bool) (n : nat) (s s' : jsstring) :
  respects p -> Forall2 same_class s s' ->
  Forall2 (fun x y => fst x = fst y /\ Forall2 same_class (snd x) (snd y))
          (star_greedy p n s) (star_greedy p n s').
Proof.
  intros Hp H. revert n. induction H as [|c c' s s' Hc Hs IH]; intro n; simpl.
  - constructor; [split; [reflexivity | constructor] | constructor].
  - rewrite <- (Hp c c' Hc). destruct (p c).
    + apply Forall2_app; [apply IH|].
      constructor; [split; [reflexivity | now constructor] | constructor].
    + constructor; [split; [reflexivity | now constructor] | constructor].
Qed.

Lemma star_lazy_sim (p : char -> bool) (n : nat) (s s' : jsstring) :
  respects p -> Forall2 same_class s s' ->
  Forall2 (fun x y => fst x = fst y /\ Forall2 same_class (snd x) (snd y))
          (star_lazy p n s) (star_lazy p n s').
Proof.
  intros Hp H. revert n. induction H as [|c c' s s' Hc Hs IH]; intro n; simpl.
  - constructor; [split; [reflexivity | constructor] | constructor].
  - rewrite <- (Hp c c' Hc). destruct (p c).
    + constructor; [split; [reflexivity | now constructor] | apply IH].
    + constructor; [split; [reflexivity | now constructor] | constructor].
Qed.

(** On two inputs that differ in the kind of some brackets only, an
    expression that does not tell the kinds apart runs the same way. *)
Lemma run_sim (r : re) (st st' : mstate) :
  classes_respect r -> state_sim st st' ->
  Forall2 state_sim (run r st) (run r st').
Proof.
  revert st st'. induction r as [| |p|a IHa b IHb|a IHa b IHb|p|p|a IHa];
    intros st st' Hr Hs; simpl in Hr |- *.
  - pose proof Hs as (Hpos & _). rewrite <- Hpos.
    destruct (pos st) eqn:E; constructor; [exact Hs | constructor].
  - constructor; [exact Hs | constructor].
  - destruct Hs as (Hpos & Hrest & Hcap).
    destruct Hrest as [|c c' s s' Hc Hrest]; [constructor|].
    rewrite <- (Hr c c' Hc). destruct (p c); constructor; [|constructor].
    repeat split; simpl; auto.
  - destruct Hr as [Ha Hb]. eapply Forall2_flat_map; [apply IHa; eauto|].
    intros x y Hxy. now apply IHb.
  - destruct Hr as [Ha Hb]. apply Forall2_app; auto.
  - destruct Hs as (Hpos & Hrest & Hcap). rewrite <- Hpos.
    eapply Forall2_map; [apply star_greedy_sim; eauto|].
    intros [n s] [n' s'] [Hn Hss]. simpl in *. subst. repeat split; auto.
  - destruct Hs as (Hpos & Hrest & Hcap). rewrite <- Hpos.
    eapply Forall2_map; [apply star_lazy_sim; eauto|].
    intros [n s] [n' s'] [Hn Hss]. simpl in *. subst. repeat split; auto.
  - eapply Forall2_map; [apply IHa; eauto|].
    intros x y (Hpos & Hrest & Hcap). destruct Hs as (Hpos' & Hrest' & _).
    repeat split; simpl; auto. rewrite Hpos, Hpos'. now apply Forall2_firstn.
Qed.

Lemma app_eq_length {A} (l1 l2 r1 r2 : list A) :
  List.length l1 = List.length l2 -> l1 ++ r1 = l2 ++ r2 -> l1 = l2 /\ r1 = r2.
Proof.
  revert l2. induction l1 as [|x l1 IH]; intros [|y l2] Hlen H; simpl in *;
    try discriminate; [auto|].
  injection H as -> H. destruct (IH l2) as [-> ->]; auto.
Qed.

Lemma prefix_spaces (ws x a t : jsstring) (o : char) :
  ws ++ x = a ++ o :: t -> forallb is_space ws = true -> is_space o = false ->
  exists a2, a = ws ++ a2 /\ x = a2 ++ o :: t.
Proof.
  revert a. induction ws as [|s ws IH]; intros a H Hws Ho; simpl in *.
  - exists a. auto.
  - apply andb_true_iff in Hws as [Hs Hws].
    destruct a as [|s' a]; simpl in H; injection H as -> H.
    + congruence.
    + destruct (IH a H Hws Ho) as (a2 & -> & ->). exists a2. auto.
Qed.

Lemma is_open_not_space (o : char) : is_open o = true -> is_space o = false.
Proof. intro H. now destruct (is_open_cases _ H) as [->| ->]. Qed.

Lemma before_firstn_open (k : nat) (a t t' : jsstring) (o o' : char) :
  is_open o = true -> is_open o' = true ->
  before is_open (firstn k (a ++ o :: t)) = before is_open (firstn k (a ++ o' :: t')).
Proof.
  intros Ho Ho'. revert k. induction a as [|x a IH]; intros [|k]; simpl;
    try reflexivity.
  - now rewrite Ho, Ho'.
  - now rewrite IH.
Qed.

(** The decision of [getBuildErrors] on a line does not depend on the kind
    of the brackets around a location. *)
Lemma is_error_for_rewrap (resolve : jsstring -> jsstring)
    (resolved a b c : jsstring) (o1 o2 c1 c2 : char) :
  is_open o1 = true -> is_open o2 = true ->
  is_close c1 = true -> is_close c2 = true ->
  is_error_for resolve resolved (a ++ o1 :: b ++ c1 :: c)
  = is_error_for resolve resolved (a ++ o2 :: b ++ c2 :: c).
Proof.
  intros Ho1 Ho2 Hc1 Hc2.
  assert (Hsim : Forall2 same_class (a ++ o1 :: b ++ c1 :: c) (a ++ o2 :: b ++ c2 :: c)).
  { apply Forall2_app; [apply Forall2_same_class_refl|].
    constructor; [right; left; auto|].
    apply Forall2_app; [apply Forall2_same_class_refl|].
    constructor; [right; right; auto | apply Forall2_same_class_refl]. }
  pose proof (@run_sim errline_re
                (MState 0 (a ++ o1 :: b ++ c1 :: c) None)
                (MState 0 (a ++ o2 :: b ++ c2 :: c) None)
                errline_re_respects
                (conj eq_refl (conj Hsim I))) as Hrun.
  unfold is_error_for, errline_re in *. rewrite !exec_Bol.
  destruct (run _ (MState 0 (a ++ o1 :: b ++ c1 :: c) None)) as [|st l] eqn:E;
    destruct (run _ (MState 0 (a ++ o2 :: b ++ c2 :: c) None)) as [|st' l'] eqn:E';
    inversion Hrun as [|? ? ? ? Hst _]; subst; [reflexivity|].
  assert (Hin : In st (st :: l)) by now left.
  assert (Hin' : In st' (st' :: l')) by now left.
  rewrite <- E in Hin. rewrite <- E' in Hin'.
  apply run_Bol_space_group in Hin as (ws & w & Hline & Hcap & Hpos & Hws & _).
  apply run_Bol_space_group in Hin' as (ws' & w' & Hline' & Hcap' & Hpos' & Hws' & _).
  destruct Hst as (Hp & _ & Hc). rewrite Hcap, Hcap' in *. cbn [cap_sim or_empty] in *.
  pose proof (Forall2_length Hc) as Hlen.
  symmetry in Hline, Hline'.
  apply prefix_spaces in Hline as (a2 & Ha & Hw); auto using is_open_not_space.
  apply prefix_spaces in Hline' as (a2' & Ha' & Hw'); auto using is_open_not_space.
  rewrite Ha in Ha'. apply app_eq_length in Ha' as [<- <-]; [|lia].
  rewrite !hd_split_cls.
  replace w with (firstn (List.length w) (a2 ++ o1 :: b ++ c1 :: c))
    by (rewrite <- Hw, firstn_app, firstn_all, Nat.sub_diag; cbn [firstn];
        now rewrite app_nil_r).
  replace w' with (firstn (List.length w) (a2 ++ o2 :: b ++ c2 :: c))
    by (rewrite <- Hw', Hlen, firstn_app, firstn_all, Nat.sub_diag; cbn [firstn];
        now rewrite app_nil_r).
  now rewrite (@before_firstn_open (List.length w) a2 (b ++ c1 :: c) (b ++ c2 :: c)
                 o1 o2 Ho1 Ho2).
Qed.

(** C9, as the code has it.  A line yields a record only if it has the
    shape [error_line_shape]: after a path in .cs, a location between an
    opening ( or [ and a closing ) or ], which need not match, with a comma
    or a semicolon between the digits, then a colon, the word error and a
    white-space character; a line of any other shape yields none.  The
    decision on a line is the same whether a location is written (l,c) or
    [l,c]. *)
Theorem records_only_from_error_lines (resolve : jsstring -> jsstring) :
  (forall output filePath record : jsstring,
      In record (errors_of resolve output filePath) ->
      exists line,
        In line (split newline output) /\ record = trim line
        /\ error_line_shape line)
  /\ (forall resolved line : jsstring,
         ~ error_line_shape line -> is_error_for resolve resolved line = false)
  /\ (forall resolved a b c : jsstring,
         is_error_for resolve resolved (a ++ lit "(" ++ b ++ lit ")" ++ c)
         = is_error_for resolve resolved (a ++ lit "[" ++ b ++ lit "]" ++ c)).
Proof.
  assert (Hshape : forall resolved line,
             is_error_for resolve resolved line = true -> error_line_shape line).
  { intros resolved line H. unfold is_error_for in H.
    destruct (exec errline_re line) as [m|] eqn:E; [|discriminate].
    now apply errline_shape in E as [E _]. }
  split; [|split].
  - intros output filePath record H. rewrite errors_of_filter in H.
    apply in_map_iff in H as (line & <- & H). apply filter_In in H as [Hin H].
    exists line. split; [exact Hin|]. split; [reflexivity|]. now apply Hshape in H.
  - intros resolved line Hn.
    destruct (is_error_for resolve resolved line) eqn:E; [|reflexivity].
    now apply Hshape in E.
  - intros resolved a b c. now apply is_error_for_rewrap.
Qed.

Lemma records_only_from_error_lines_witness :
  In (lit "/a/F.cs[3;4): error CS1002: ; expected")
     (errors_of (Path.posix_resolve (lit "/w"))
                (lit "  /a/F.cs[3;4): error CS1002: ; expected") (lit "/a/F.cs"))
  /\ exists line,
      In line (split newline (lit "  /a/F.cs[3;4): error CS1002: ; expected"))
      /\ lit "/a/F.cs[3;4): error CS1002: ; expected" = trim line
      /\ error_line_shape line.
Proof.
  assert (H : In (lit "/a/F.cs[3;4): error CS1002: ; expected")
                (errors_of (Path.posix_resolve (lit "/w"))
                   (lit "  /a/F.cs[3;4): error CS1002: ; expected") (lit "/a/F.cs"))).
  { vm_compute. left. reflexivity. }
  split; [exact H|].
  destruct (records_only_from_error_lines (Path.posix_resolve (lit "/w"))) as [Hrec _].
  exact (Hrec _ _ _ H).
Defined.

(** C9, as the specification has it, fails: a location with a semicolon
    between line and column yields a record, though the line has no comma
    at all and so neither of the two notations. *)
Lemma semicolon_location_yields_record :
  errors_of (Path.posix_resolve (lit "/w"))
            (lit "/a/F.cs(10;5): error CS1002: expected") (lit "/a/F.cs")
  = [lit "/a/F.cs(10;5): error CS1002: expected"]
  /\ ~ spec_location (lit "/a/F.cs(10;5): error CS1002: expected").
Proof.
  split; [vm_compute; reflexivity|].
  intros (path & o & l & c & cl & tail & Heq & _).
  assert (H : existsb (N.eqb 44) (lit "/a/F.cs(10;5): error CS1002: expected") = true).
  { rewrite Heq. apply existsb_exists. exists 44%N. split; [|reflexivity].
    apply in_or_app. right. right. apply in_or_app. right. now left. }
  vm_compute in H. discriminate H.
Qed.

(** Brackets that do not match are accepted as well. *)
Example mismatched_brackets_yield_record :
  errors_of (Path.posix_resolve (lit "/w"))
            (lit "/a/F.cs[10,5): error CS1002: expected") (lit "/a/F.cs")
  = [lit "/a/F.cs[10,5): error CS1002: expected"].
Proof. vm_compute. reflexivity. Qed.

(** ** Paths with brackets *)

(** C3, on the code.  The output has one error line for the target
    /src/App (old)/A.cs, which [getBuildErrorFiles] reports, and
    [getBuildErrors] returns no record for it: it cuts the path at the first
    bracket of the line, here the one of the directory name.  For the same
    reason a line about /src/A.cs(v2)/G.cs is returned as a record of the
    target /src/A.cs, of which the path of the line is an extension. *)
Theorem bracket_in_path_breaks_extraction :
  errors_of (Path.posix_resolve (lit "/w")) output_bracket_dir
            (lit "/src/App (old)/A.cs") = []
  /\ errorFiles_of (Path.posix_resolve (lit "/w")) output_bracket_dir
     = [lit "/src/App (old)/A.cs"]
  /\ errors_of (Path.posix_resolve (lit "/w")) output_prefix_dir (lit "/src/A.cs")
     = [output_prefix_dir]
  /\ errorFiles_of (Path.posix_resolve (lit "/w")) output_prefix_dir
     = [lit "/src/A.cs(v2)/G.cs"].
Proof. vm_compute. repeat split. Qed.

(** C10, on the code.  The two modes disagree in both directions: the file
    /src/App (old)/A.cs is in the set of [getBuildErrorFiles] and has no
    record in [getBuildErrors]; the file /src/A.cs has a record in
    [getBuildErrors] and is not in the set, whose only member is the text up
    to the last location of the line. *)
Theorem modes_disagree_on_brackets :
  (set_has (Path.posix_resolve (lit "/w") (lit "/src/App (old)/A.cs"))
           (errorFiles_of (Path.posix_resolve (lit "/w")) output_bracket_dir) = true
   /\ errors_of (Path.posix_resolve (lit "/w")) output_bracket_dir
                (lit "/src/App (old)/A.cs") = [])
  /\ (set_has (Path.posix_resolve (lit "/w") (lit "/src/A.cs"))
              (errorFiles_of (Path.posix_resolve (lit "/w")) output_quoted_location) = false
      /\ errors_of (Path.posix_resolve (lit "/w")) output_quoted_location (lit "/src/A.cs")
         = [output_quoted_location]
      /\ errorFiles_of (Path.posix_resolve (lit "/w")) output_quoted_location
         = [lit "/src/A.cs(3,7): error CS0103: see B.cs"]).
Proof. vm_compute. repeat split. Qed.

(** * Further properties of the code *)

(** ** The response extractor, continued *)

Lemma textParts_filter (parts : list Part) :
  textParts (filter is_text_part parts) = textParts parts.
Proof.
  induction parts as [|[[|c t]|ty] r IH]; simpl; auto. now rewrite IH.
Qed.

Lemma textParts_app (a b : list Part) :
  textParts (a ++ b) = textParts a ++ textParts b.
Proof.
  induction a as [|[[|c t]|ty] r IH]; simpl; auto. now rewrite IH.
Qed.

(** X1.  Parts that are not text, and text parts that are empty, play no role:
    the result is that of the text parts alone, and such a part can be put
    anywhere in the reply without changing it. *)
Theorem extractCode_ignores_other_parts (parts : list Part) :
  extractCode (filter is_text_part parts) = extractCode parts
  /\ (forall (a b : list Part) (ty : jsstring),
         extractCode (a ++ OtherPart ty :: b) = extractCode (a ++ b))
  /\ (forall a b : list Part,
         extractCode (a ++ TextPart [] :: b) = extractCode (a ++ b)).
Proof.
  unfold extractCode. split; [|split].
  - now rewrite textParts_filter.
  - intros a b ty. now rewrite !textParts_app.
  - intros a b. now rewrite !textParts_app.
Qed.

Lemma has_fence_join (l : list jsstring) :
  Forall (fun t => has_fence t = false) l -> has_fence (join [newline] l) = false.
Proof.
  induction 1 as [|t l Ht Hl IH]; [reflexivity|].
  destruct l as [|u l]; [exact Ht|].
  change (join [newline] (t :: u :: l)) with (t ++ newline :: join [newline] (u :: l)).
  now rewrite has_fence_app_newline, Ht, IH.
Qed.

Lemma textParts_fence_free (parts : list Part) :
  Forall fence_free parts -> Forall (fun t => has_fence t = false) (textParts parts).
Proof.
  induction 1 as [|[[|c t]|ty] r Hp Hr IH]; simpl; auto.
Qed.

Lemma run_fence_nil_exec (n : nat) : exec_from fence_re n [] = None.
Proof. cbn [exec_from]. now rewrite run_fence_nil. Qed.

Lemma exec_no_fence (text : jsstring) :
  has_fence text = false -> exec fence_re text = None.
Proof.
  intro H. unfold exec. rewrite <- (app_nil_r text).
  rewrite exec_skip.
  - apply run_fence_nil_exec.
  - apply no_fence_start. simpl. now rewrite app_nil_r.
Qed.

(** X2.  A reply whose texts hold no fence marker at all is returned whole: the
    text parts joined by newlines, trimmed at the end, and one newline. *)
Theorem extractCode_without_fence (parts : list Part) :
  Forall fence_free parts ->
  extractCode parts = trimEnd (join [newline] (textParts parts)) ++ [newline].
Proof.
  intro H. unfold extractCode.
  now rewrite exec_no_fence by (apply has_fence_join, textParts_fence_free, H).
Qed.

Lemma extractCode_without_fence_witness :
  Forall fence_free [TextPart (lit "class A {}  "); OtherPart (lit "file"); TextPart (lit "// end ")]
  /\ extractCode [TextPart (lit "class A {}  "); OtherPart (lit "file"); TextPart (lit "// end ")]
     = text_lines [lit "class A {}  "; lit "// end"] ++ [newline].
Proof.
  assert (H : Forall fence_free
                [TextPart (lit "class A {}  "); OtherPart (lit "file");
                 TextPart (lit "// end ")]).
  { repeat constructor. }
  split; [exact H|].
  rewrite (extractCode_without_fence H). reflexivity.
Defined.

Lemma trimEnd_app_space (s : jsstring) (c : char) :
  is_space c = true -> trimEnd (s ++ [c]) = trimEnd s.
Proof.
  intro Hc. induction s as [|a s IH]; simpl.
  - now rewrite Hc.
  - now rewrite IH.
Qed.

Lemma not_space_not_newline (c : char) :
  is_space c = false -> char_eqb newline c = false.
Proof.
  intro H. destruct (char_eqb newline c) eqn:E; [|reflexivity].
  apply char_eqb_eq in E. subst c. discriminate H.
Qed.

(** After the tag: when the content starts with a character that is not
    white space and holds no fence marker, group 1 is the content and its
    newline, whatever follows the closing fence. *)
Lemma after_tag_head (n : nat) (c : char) (X tail : jsstring) :
  is_space c = false -> has_fence (c :: X) = false ->
  exists st l,
    run fence_after_tag (MState n (newline :: (c :: X) ++ newline :: fence ++ tail) None)
    = st :: l
    /\ cap st = Some ((c :: X) ++ [newline]).
Proof.
  intros Hc HX. unfold fence_after_tag. rewrite run_Seq.
  assert (Hstar : run (Star is_space)
                      (MState n (newline :: (c :: X) ++ newline :: fence ++ tail) None)
                  = [MState (S n) ((c :: X) ++ newline :: fence ++ tail) None;
                     MState n (newline :: (c :: X) ++ newline :: fence ++ tail) None]).
  { cbn [run rest pos cap star_greedy app]. change (is_space newline) with true.
    cbn iota. rewrite Hc. reflexivity. }
  rewrite Hstar. cbn [flat_map]. rewrite app_nil_r.
  assert (H1 : run (Seq (Cls (char_eqb newline))
                        (Seq (Group (StarLazy any_char)) (Lit (lit "```"))))
                   (MState (S n) ((c :: X) ++ newline :: fence ++ tail) None) = []).
  { rewrite run_Seq. cbn [run rest app]. now rewrite (not_space_not_newline _ Hc). }
  rewrite H1. cbn [app]. rewrite run_Seq.
  change (run (Cls (char_eqb newline))
              (MState n (newline :: c :: X ++ newline :: fence ++ tail) None))
    with [MState (S n) (c :: X ++ newline :: fence ++ tail) None].
  cbn [flat_map]. rewrite app_nil_r. change (lit "```") with fence.
  rewrite run_body_fence. cbn [rest pos].
  edestruct (@first_hit_at mstate
               (fun k => prefixb fence (skipn k (c :: X ++ newline :: fence ++ tail)))
               (fun k => MState (S n + k + 3)
                           (skipn 3 (skipn k (c :: X ++ newline :: fence ++ tail)))
                           (Some (firstn k (c :: X ++ newline :: fence ++ tail))))
               0 (S (List.length (c :: X ++ newline :: fence ++ tail)))
               (List.length ((c :: X) ++ [newline]))) as [l Hl].
  - rewrite !length_app. simpl. rewrite !length_app. simpl. lia.
  - change (c :: X ++ newline :: fence ++ tail)
      with ((c :: X) ++ newline :: fence ++ tail).
    replace ((c :: X) ++ newline :: fence ++ tail)
      with (((c :: X) ++ [newline]) ++ fence ++ tail)
      by (now rewrite <- app_assoc).
    rewrite skipn_app, skipn_all, Nat.sub_diag. cbn [app skipn].
    apply prefixb_refl_app.
  - intros j [_ Hj].
    change (c :: X ++ newline :: fence ++ tail)
      with ((c :: X) ++ newline :: fence ++ tail).
    replace ((c :: X) ++ newline :: fence ++ tail)
      with (((c :: X) ++ [newline]) ++ fence ++ tail)
      by (now rewrite <- app_assoc).
    apply no_fence_start; [|exact Hj].
    change (firstn 2 (fence ++ tail)) with (lit "``").
    rewrite <- app_assoc. cbn [app].
    change (c :: X ++ newline :: lit "``") with ((c :: X) ++ newline :: lit "``").
    now rewrite has_fence_app_newline, HX.
  - eexists. exists l. split; [exact Hl|]. cbn [cap]. f_equal.
    change (c :: X ++ newline :: fence ++ tail)
      with ((c :: X) ++ newline :: fence ++ tail).
    replace ((c :: X) ++ newline :: fence ++ tail)
      with (((c :: X) ++ [newline]) ++ fence ++ tail)
      by (now rewrite <- app_assoc).
    now rewrite firstn_app, firstn_all, Nat.sub_diag, app_nil_r.
Qed.

Lemma exec_block (tag : jsstring) (c : char) (X tail : jsstring) :
  In tag [lit "csharp"; lit "cs"; []] ->
  is_space c = false -> has_fence (c :: X) = false ->
  exec_from fence_re 0 (fenced tag (c :: X) ++ tail)
  = Some (Some ((c :: X) ++ [newline])).
Proof.
  intros Htag Hc HX.
  assert (Htext : fenced tag (c :: X) ++ tail
                  = fence ++ tag ++ newline :: (c :: X) ++ newline :: fence ++ tail).
  { unfold fenced. rewrite <- !app_assoc. cbn [app]. now rewrite <- !app_assoc. }
  rewrite Htext.
  destruct Htag as [<-|[<-|[<-|[]]]].
  - destruct (after_tag_head 9 c X tail Hc HX) as (st & l & Hrun & Hcap).
    rewrite <- Hcap. eapply exec_from_head. rewrite run_fence_csharp. exact Hrun.
  - destruct (after_tag_head 5 c X tail Hc HX) as (st & l & Hrun & Hcap).
    rewrite <- Hcap. eapply exec_from_head. rewrite run_fence_cs. exact Hrun.
  - destruct (after_tag_head 3 c X tail Hc HX) as (st & l & Hrun & Hcap).
    rewrite <- Hcap. eapply exec_from_head. cbn [app]. rewrite run_fence_no_tag.
    exact Hrun.
Qed.

(** X3.  A well-formed block is recovered.  For each of the three accepted
    openings, a preamble without fence marker and any trailer, a content
    that holds no fence marker and starts with a character that is not white
    space comes back trimmed at the end, with one newline. *)
Theorem extractCode_recovers_block (tag preamble trailer : jsstring) (c : char)
    (X : jsstring) :
  In tag [lit "csharp"; lit "cs"; []] ->
  is_space c = false -> has_fence (c :: X) = false ->
  has_fence preamble = false ->
  extractCode [TextPart preamble; TextPart (fenced tag (c :: X)); TextPart trailer]
  = trimEnd (c :: X) ++ [newline].
Proof.
  intros Htag Hc HX Hp.
  assert (Hskip : forall P tail,
             has_fence (P ++ lit "``") = false ->
             exec fence_re (P ++ fenced tag (c :: X) ++ tail)
             = Some (Some ((c :: X) ++ [newline]))).
  { intros P tail H. unfold exec.
    rewrite exec_skip by (now apply no_fence_start).
    rewrite (exec_from_shift _ _ 0) by reflexivity. now apply exec_block. }
  assert (Hpre : has_fence ((preamble ++ [newline]) ++ lit "``") = false).
  { rewrite <- app_assoc. cbn [app]. now rewrite has_fence_app_newline, Hp. }
  assert (Hres : trimEnd (or_empty (Some ((c :: X) ++ [newline]))) ++ [newline]
                 = trimEnd (c :: X) ++ [newline]).
  { cbn [or_empty]. now rewrite trimEnd_app_space. }
  unfold extractCode.
  destruct preamble as [|p pre], trailer as [|t tr].
  - replace (join [newline]
               (textParts [TextPart []; TextPart (fenced tag (c :: X)); TextPart []]))
      with ([] ++ fenced tag (c :: X) ++ [])
      by (cbn [app]; rewrite app_nil_r; reflexivity).
    rewrite Hskip by reflexivity. exact Hres.
  - replace (join [newline]
               (textParts [TextPart []; TextPart (fenced tag (c :: X)); TextPart (t :: tr)]))
      with ([] ++ fenced tag (c :: X) ++ newline :: t :: tr) by reflexivity.
    rewrite Hskip by reflexivity. exact Hres.
  - replace (join [newline]
               (textParts [TextPart (p :: pre); TextPart (fenced tag (c :: X)); TextPart []]))
      with (((p :: pre) ++ [newline]) ++ fenced tag (c :: X) ++ [])
      by (rewrite <- app_assoc, app_nil_r; reflexivity).
    rewrite Hskip by exact Hpre. exact Hres.
  - replace (join [newline]
               (textParts [TextPart (p :: pre); TextPart (fenced tag (c :: X));
                           TextPart (t :: tr)]))
      with (((p :: pre) ++ [newline]) ++ fenced tag (c :: X) ++ newline :: t :: tr)
      by (rewrite <- app_assoc; reflexivity).
    rewrite Hskip by exact Hpre. exact Hres.
Qed.

Lemma extractCode_recovers_block_witness :
  In (lit "cs") [lit "csharp"; lit "cs"; []]
  /\ is_space 99%N = false
  /\ has_fence (lit "class A { void M(){} }  ") = false
  /\ has_fence (lit "Here it is:") = false
  /\ extractCode [TextPart (lit "Here it is:");
                  TextPart (fenced (lit "cs") (lit "class A { void M(){} }  "));
                  TextPart (lit "Done.")]
     = lit "class A { void M(){} }" ++ [newline].
Proof.
  assert (Htag : In (lit "cs") [lit "csharp"; lit "cs"; []]) by (right; left; reflexivity).
  split; [exact Htag|]. split; [reflexivity|]. split; [reflexivity|].
  split; [reflexivity|].
  exact (@extractCode_recovers_block (lit "cs") (lit "Here it is:") (lit "Done.") 99%N
           (lit "lass A { void M(){} }  ") Htag eq_refl eq_refl eq_refl).
Defined.

(** ** The matcher, continued: every text of the language is found *)

Lemma star_greedy_complete (p : char -> bool) (n : nat) (w s : jsstring) :
  forallb p w = true -> In (n + List.length w, s) (star_greedy p n (w ++ s)).
Proof.
  revert n. induction w as [|a w IH]; intros n H; simpl in *.
  - rewrite Nat.add_0_r. apply star_greedy_self.
  - apply andb_true_iff in H as [Ha Hw]. rewrite Ha.
    apply in_or_app. left. rewrite <- Nat.add_succ_comm. now apply IH.
Qed.

Lemma star_lazy_complete (p : char -> bool) (n : nat) (w s : jsstring) :
  forallb p w = true -> In (n + List.length w, s) (star_lazy p n (w ++ s)).
Proof.
  revert n. induction w as [|a w IH]; intros n H; simpl in *.
  - rewrite Nat.add_0_r. destruct s as [|c s]; simpl; [now left|].
    destruct (p c); now left.
  - apply andb_true_iff in H as [Ha Hw]. rewrite Ha.
    right. rewrite <- Nat.add_succ_comm. now apply IH.
Qed.

Lemma run_complete (r : re) (w : jsstring) :
  bol_free r = true -> lang r w ->
  forall n s c, exists st, In st (run r (MState n (w ++ s) c)) /\ rest st = s.
Proof.
  revert w. induction r as [| |p|a IHa b IHb|a IHa b IHb|p|p|a IHa];
    intros w Hb Hl n s c; simpl in Hb, Hl; try discriminate.
  - subst w. eexists. split; [left; reflexivity | reflexivity].
  - destruct Hl as (d & -> & Hd). simpl. rewrite Hd.
    eexists. split; [left; reflexivity | reflexivity].
  - apply andb_true_iff in Hb as [Hba Hbb].
    destruct Hl as (u & v & -> & Hu & Hv).
    destruct (IHa u Hba Hu n (v ++ s) c) as ([n1 s1 c1] & Hin1 & Hr1).
    simpl in Hr1. subst s1.
    destruct (IHb v Hbb Hv n1 s c1) as (st & Hin & Hr).
    exists st. split; [|exact Hr]. rewrite <- app_assoc. simpl.
    apply in_flat_map. eauto.
  - apply andb_true_iff in Hb as [Hba Hbb]. destruct Hl as [Hl|Hl].
    + destruct (IHa w Hba Hl n s c) as (st & Hin & Hr).
      exists st. split; [|exact Hr]. simpl. apply in_or_app. now left.
    + destruct (IHb w Hbb Hl n s c) as (st & Hin & Hr).
      exists st. split; [|exact Hr]. simpl. apply in_or_app. now right.
  - exists (MState (n + List.length w) s c). split; [|reflexivity].
    simpl. apply in_map_iff. exists (n + List.length w, s).
    split; [reflexivity | now apply star_greedy_complete].
  - exists (MState (n + List.length w) s c). split; [|reflexivity].
    simpl. apply in_map_iff. exists (n + List.length w, s).
    split; [reflexivity | now apply star_lazy_complete].
  - destruct (IHa w Hb Hl n s c) as (st & Hin & Hr).
    eexists. split; [simpl; apply in_map_iff; exists st; split; [reflexivity|exact Hin]|].
    exact Hr.
Qed.

Lemma run_nil_shift (r : re) (n k : nat) (s : jsstring) :
  bol_free r = true ->
  run r (MState n s None) = [] -> run r (MState k s None) = [].
Proof.
  intros Hb H.
  assert (H0 : run r (MState 0 s None) = []).
  { change (MState n s None) with (MState n s None) in H.
    replace (MState n s None) with (shift n (MState 0 s None)) in H
      by (unfold shift; simpl; f_equal; lia).
    rewrite run_shift in H by assumption.
    now destruct (run r (MState 0 s None)). }
  replace (MState k s None) with (shift k (MState 0 s None))
    by (unfold shift; simpl; f_equal; lia).
  rewrite run_shift by assumption. now rewrite H0.
Qed.

(** *** White space in front of a line *)

Lemma trimStart_split (s : jsstring) :
  exists ss, s = ss ++ trimStart s /\ all_space ss = true.
Proof.
  induction s as [|c s (ss & Hs & Hss)]; simpl.
  - now exists [].
  - destruct (is_space c) eqn:Hc.
    + exists (c :: ss). simpl. rewrite Hc, Hss. split; [now rewrite <- Hs | reflexivity].
    + now exists [].
Qed.

Lemma trimStart_app_space (ws s : jsstring) :
  all_space ws = true -> trimStart (ws ++ s) = trimStart s.
Proof.
  induction ws as [|c ws IH]; simpl; [reflexivity|].
  intro H. apply andb_true_iff in H as [-> H]. now apply IH.
Qed.

Lemma trimStart_idem (s : jsstring) : trimStart (trimStart s) = trimStart s.
Proof.
  induction s as [|c s IH]; simpl; [reflexivity|].
  destruct (is_space c) eqn:Hc; [exact IH|]. simpl. now rewrite Hc.
Qed.

(** The longest run of white space comes first. *)
Lemma star_greedy_space_head (n : nat) (s : jsstring) :
  exists k l, star_greedy is_space n s = (k, trimStart s) :: l.
Proof.
  revert n. induction s as [|c s IH]; intro n; simpl.
  - now exists n, [].
  - destruct (is_space c) eqn:Hc.
    + destruct (IH (S n)) as (k & l & Hl). rewrite Hl. simpl. eauto.
    + now exists n, [].
Qed.

Lemma star_greedy_space_rest (n : nat) (s : jsstring) (n' : nat) (s' : jsstring) :
  In (n', s') (star_greedy is_space n s) ->
  exists ss, s' = ss ++ trimStart s /\ all_space ss = true.
Proof.
  intro H. apply star_greedy_sound in H as (w & -> & _ & Hw).
  rewrite trimStart_app_space by exact Hw. apply trimStart_split.
Qed.

Lemma flat_map_nil_all {A B} (f : A -> list B) (l : list A) :
  (forall x, In x l -> f x = []) -> flat_map f l = [].
Proof.
  induction l as [|a l IH]; intro H; simpl; [reflexivity|].
  rewrite (H a) by now left. apply IH. intros x Hx. apply H. now right.
Qed.

(** An expression [^\s*R] looks at a line from its first character that is
    not white space: what it reports is what [R] finds there. *)
Lemma exec_Bol_space (R : re) (line : jsstring) :
  bol_free R = true -> skips_indent R ->
  exec (Seq Bol (Seq (Star is_space) R)) line
  = match run R (MState 0 (trimStart line) None) with
    | m :: _ => Some (cap m)
    | [] => None
    end.
Proof.
  intros Hb Hskip. rewrite exec_Bol, run_Seq.
  change (run Bol (MState 0 line None)) with [MState 0 line None].
  cbn [flat_map]. rewrite app_nil_r, run_Seq. cbn [run rest pos cap].
  destruct (star_greedy_space_head 0 line) as (r0 & l & Hl).
  pose proof (fun n' s' => @star_greedy_space_rest 0 line n' s') as Hrest.
  rewrite Hl in *. cbn [map flat_map].
  replace (MState r0 (trimStart line) None)
    with (shift r0 (MState 0 (trimStart line) None))
    by (unfold shift; simpl; f_equal; lia).
  rewrite run_shift by assumption.
  destruct (run R (MState 0 (trimStart line) None)) as [|m ms] eqn:E; [|reflexivity].
  cbn [map app].
  assert (Hnil : flat_map (run R) (map (fun '(n, s) => MState n s None) l) = []).
  { apply flat_map_nil_all. intros st Hin.
    apply in_map_iff in Hin as ([n' s'] & <- & Hin).
    destruct (Hrest n' s' (or_intror Hin)) as (ss & -> & Hss).
    destruct (run R (MState n' (ss ++ trimStart line) None)) as [|st sts] eqn:E';
      [reflexivity|].
    assert (Hst : In st (run R (MState n' (ss ++ trimStart line) None)))
      by (rewrite E'; now left).
    apply run_sound in Hst as (w & Hw & _ & Hlw). cbn [rest] in Hw.
    destruct (Hskip ss (trimStart line) w (rest st) Hss Hlw Hw) as (w' & Hlw' & Hw').
    destruct (@run_complete R w' Hb Hlw' 0 (rest st) None) as (st' & Hin' & _).
    rewrite <- Hw', E in Hin'. destruct Hin'. }
  now rewrite Hnil.
Qed.

Lemma forallb_app_r {A} (p : A -> bool) (a b : list A) :
  forallb p (a ++ b) = true -> forallb p b = true.
Proof. rewrite forallb_app. intro H. now apply andb_true_iff in H as [_ H]. Qed.

Lemma lang_Lit_refl (l : jsstring) : lang (Lit l) l.
Proof.
  induction l as [|c l IH]; simpl; [reflexivity|].
  exists [c], l. split; [reflexivity|]. split; [|exact IH].
  exists c. split; [reflexivity|]. unfold char_eqb. apply N.eqb_refl.
Qed.

Lemma skips_indent_errline : skips_indent errline_group.
Proof.
  intros ss l w t Hss Hl Heq. unfold errline_group in Hl. cbn [lang] in Hl.
  destruct Hl as (u & v & -> & Hu & cs & v2 & -> & Hcs & Hv2).
  apply lang_Lit in Hcs. subst cs.
  rewrite <- !app_assoc in Heq. cbn [app] in Heq.
  change (lit ".cs" ++ v2 ++ t) with (46%N :: lit "cs" ++ v2 ++ t) in Heq.
  apply prefix_spaces in Heq as (u2 & -> & ->); [|exact Hss|reflexivity].
  exists (u2 ++ lit ".cs" ++ v2). split.
  - unfold errline_group. cbn [lang]. exists u2, (lit ".cs" ++ v2).
    split; [reflexivity|]. split; [now apply forallb_app_r in Hu|].
    exists (lit ".cs"), v2. split; [reflexivity|]. split; [|exact Hv2].
    apply lang_Lit_refl.
  - rewrite <- !app_assoc. reflexivity.
Qed.

Lemma skips_indent_errfile : skips_indent errfile_tail.
Proof.
  intros ss l w t Hss Hl Heq. unfold errfile_tail in Hl. cbn [lang] in Hl.
  destruct Hl as (g & v & -> & (u & cs & -> & Hu & Hcs) & Hv).
  apply lang_Lit in Hcs. subst cs.
  rewrite <- !app_assoc in Heq. cbn [app] in Heq.
  change (lit ".cs" ++ v ++ t) with (46%N :: lit "cs" ++ v ++ t) in Heq.
  apply prefix_spaces in Heq as (u2 & -> & ->); [|exact Hss|reflexivity].
  exists ((u2 ++ lit ".cs") ++ v). split.
  - unfold errfile_tail. cbn [lang]. exists (u2 ++ lit ".cs"), v.
    split; [reflexivity|]. split; [|exact Hv].
    exists u2, (lit ".cs"). split; [reflexivity|].
    split; [now apply forallb_app_r in Hu | apply lang_Lit_refl].
  - rewrite <- !app_assoc. reflexivity.
Qed.

Lemma lang_Plus_digit (l : jsstring) :
  lang (Plus digit) l <-> l <> [] /\ forallb digit l = true.
Proof.
  split; [apply forallb_digit_plus|].
  intros [Hne Hd]. destruct l as [|d l]; [congruence|].
  simpl in Hd. apply andb_true_iff in Hd as [Hd Hl].
  exists [d], l. split; [reflexivity|]. split; [exists d; auto | exact Hl].
Qed.

Lemma lang_location (v : jsstring) : lang location_error_re v <-> location_shape v.
Proof.
  split.
  - intro Hl. unfold location_error_re in Hl. cbn [lang] in Hl.
    repeat match goal with
           | H : exists _, _ |- _ => destruct H
           | H : _ /\ _ |- _ => destruct H
           end.
    repeat match goal with
           | H : lang (Lit _) _ |- _ => apply lang_Lit in H
           | H : lang (Plus digit) _ |- _ => apply forallb_digit_plus in H; destruct H
           end.
    subst. rewrite <- ?app_assoc. cbn [app].
    unfold location_shape. do 8 eexists. split; [reflexivity|].
    repeat split; eassumption.
  - intros (o & l & sep & c & cl & ws1 & ws2 & sp & -> & Ho & Hl & Hdl & Hsep & Hc
            & Hdc & Hcl & Hws1 & Hws2 & Hsp).
    unfold location_error_re. cbn [lang].
    exists [o], (l ++ sep :: c ++ cl :: ws1 ++ lit ":" ++ ws2 ++ lit "error" ++ [sp]).
    split; [reflexivity|]. split; [exists o; auto|].
    exists l, (sep :: c ++ cl :: ws1 ++ lit ":" ++ ws2 ++ lit "error" ++ [sp]).
    split; [reflexivity|]. split; [now apply lang_Plus_digit|].
    exists [sep], (c ++ cl :: ws1 ++ lit ":" ++ ws2 ++ lit "error" ++ [sp]).
    split; [reflexivity|]. split; [exists sep; auto|].
    exists c, (cl :: ws1 ++ lit ":" ++ ws2 ++ lit "error" ++ [sp]).
    split; [reflexivity|]. split; [now apply lang_Plus_digit|].
    exists [cl], (ws1 ++ lit ":" ++ ws2 ++ lit "error" ++ [sp]).
    split; [reflexivity|]. split; [exists cl; auto|].
    exists ws1, (lit ":" ++ ws2 ++ lit "error" ++ [sp]).
    split; [reflexivity|]. split; [exact Hws1|].
    exists (lit ":"), (ws2 ++ lit "error" ++ [sp]).
    split; [reflexivity|]. split; [apply lang_Lit_refl|].
    exists ws2, (lit "error" ++ [sp]).
    split; [reflexivity|]. split; [exact Hws2|].
    exists (lit "error"), [sp].
    split; [reflexivity|]. split; [apply lang_Lit_refl|].
    exists sp. auto.
Qed.

Lemma shape_of_location (ws path v tail : jsstring) :
  all_space ws = true -> forallb dot path = true -> location_shape v ->
  error_line_shape (ws ++ path ++ lit ".cs" ++ v ++ tail).
Proof.
  intros Hws Hpath (o & l & sep & c & cl & ws1 & ws2 & sp & -> & H).
  unfold error_line_shape. exists ws, path, o, l, sep, c, cl, ws1, ws2, sp, tail.
  split; [|tauto].
  cbn [app]. rewrite <- ?app_assoc. cbn [app]. rewrite <- ?app_assoc. cbn [app].
  rewrite <- ?app_assoc. reflexivity.
Qed.

Lemma location_of_shape (line : jsstring) :
  error_line_shape line ->
  exists ws path v tail,
    line = ws ++ path ++ lit ".cs" ++ v ++ tail
    /\ all_space ws = true /\ forallb dot path = true /\ location_shape v.
Proof.
  intros (ws & path & o & l & sep & c & cl & ws1 & ws2 & sp & tail & -> & Hws & Hpath & H).
  exists ws, path,
    (o :: l ++ sep :: c ++ cl :: ws1 ++ lit ":" ++ ws2 ++ lit "error" ++ [sp]), tail.
  split.
  - cbn [app]. rewrite <- ?app_assoc. cbn [app]. rewrite <- ?app_assoc. cbn [app].
    rewrite <- ?app_assoc. reflexivity.
  - split; [exact Hws|]. split; [exact Hpath|].
    unfold location_shape. exists o, l, sep, c, cl, ws1, ws2, sp. tauto.
Qed.

Lemma matches_errline_iff (line : jsstring) :
  matches_indented errline_group line <-> error_line_shape line.
Proof.
  split.
  - intros (ws & w & t & -> & Hws & Hl). unfold errline_group in Hl. cbn [lang] in Hl.
    destruct Hl as (path & v1 & -> & Hpath & cs & v2 & -> & Hcs & v & d & -> & Hv & Hd).
    apply lang_Lit in Hcs. subst cs. apply lang_location in Hv.
    rewrite <- !app_assoc. now apply shape_of_location.
  - intro H. apply location_of_shape in H
      as (ws & path & v & tail & -> & Hws & Hpath & Hv).
    exists ws, (path ++ lit ".cs" ++ v ++ []), tail. split.
    + rewrite <- !app_assoc. reflexivity.
    + split; [exact Hws|]. unfold errline_group. cbn [lang].
      exists path, (lit ".cs" ++ v ++ []). split; [reflexivity|]. split; [exact Hpath|].
      exists (lit ".cs"), (v ++ []). split; [reflexivity|]. split; [apply lang_Lit_refl|].
      exists v, []. split; [reflexivity|]. split; [now apply lang_location | reflexivity].
Qed.

Lemma matches_errfile_iff (line : jsstring) :
  matches_indented errfile_tail line <-> error_line_shape line.
Proof.
  split.
  - intros (ws & w & t & -> & Hws & Hl). unfold errfile_tail in Hl. cbn [lang] in Hl.
    destruct Hl as (g & v & -> & (path & cs & -> & Hpath & Hcs) & Hv).
    apply lang_Lit in Hcs. subst cs. apply lang_location in Hv.
    rewrite <- !app_assoc. now apply shape_of_location.
  - intro H. apply location_of_shape in H
      as (ws & path & v & tail & -> & Hws & Hpath & Hv).
    exists ws, ((path ++ lit ".cs") ++ v), tail. split.
    + rewrite <- !app_assoc. reflexivity.
    + split; [exact Hws|]. unfold errfile_tail. cbn [lang].
      exists (path ++ lit ".cs"), v. split; [reflexivity|]. split.
      * exists path, (lit ".cs"). split; [reflexivity|].
        split; [exact Hpath | apply lang_Lit_refl].
      * now apply lang_location.
Qed.

(** What [R] finds at the first character that is not white space. *)
Lemma matches_indented_run (R : re) (line : jsstring) :
  bol_free R = true -> skips_indent R ->
  (matches_indented R line <-> run R (MState 0 (trimStart line) None) <> []).
Proof.
  intros Hb Hskip. split.
  - intros (ws & w & t & -> & Hws & Hl). rewrite trimStart_app_space by exact Hws.
    destruct (trimStart_split (w ++ t)) as (ss & Hs & Hss).
    destruct (Hskip ss (trimStart (w ++ t)) w t Hss Hl (eq_sym Hs)) as (w' & Hl' & Hw').
    destruct (@run_complete R w' Hb Hl' 0 t None) as (st & Hin & _).
    rewrite Hw'. intro E. rewrite E in Hin. destruct Hin.
  - intro H. destruct (run R (MState 0 (trimStart line) None)) as [|st l] eqn:E;
      [congruence|].
    assert (Hin : In st (run R (MState 0 (trimStart line) None)))
      by (rewrite E; now left).
    apply run_sound in Hin as (w & Hw & _ & Hl). cbn [rest] in Hw.
    destruct (trimStart_split line) as (ss & Hs & Hss).
    exists ss, w, (rest st). split; [now rewrite <- Hw | auto].
Qed.

Lemma run_Group_cap (a : re) (st0 st : mstate) :
  In st (run (Group a) st0) ->
  exists w, rest st0 = w ++ rest st /\ cap st = Some w /\ lang a w.
Proof.
  cbn [run]. intro H. apply in_map_iff in H as (st1 & <- & H).
  apply run_sound in H as (w & Hw & Hp & Hl).
  exists w. cbn [rest cap]. split; [exact Hw|]. split; [|exact Hl].
  f_equal. rewrite Hp, Hw.
  replace (pos st0 + List.length w - pos st0) with (List.length w) by lia.
  now rewrite firstn_app, firstn_all, Nat.sub_diag, app_nil_r.
Qed.

Lemma before_app (p : char -> bool) (w x : jsstring) :
  existsb p w = true -> before p (w ++ x) = before p w.
Proof.
  induction w as [|c w IH]; simpl; [discriminate|].
  destruct (p c); [reflexivity|]. simpl. intro H. now rewrite IH.
Qed.

Lemma errline_has_bracket (w : jsstring) :
  lang (Star dot >> Lit (lit ".cs") >> location_error_re >> Star dot)%re w ->
  existsb is_open w = true.
Proof.
  cbn [lang]. intros (path & v1 & -> & _ & cs & v2 & -> & _ & v & d & -> & Hv & _).
  apply lang_location in Hv as (o & l & sep & c & cl & ws1 & ws2 & sp & -> & Ho & _).
  rewrite !existsb_app. cbn [existsb]. rewrite Ho.
  now rewrite !orb_true_r.
Qed.

(** The decision of [getBuildErrors] on a line, in full. *)
Lemma is_error_for_spec (resolve : jsstring -> jsstring) (resolved line : jsstring) :
  is_error_for resolve resolved line = true
  <-> error_line_shape line
      /\ resolve (before is_open (trimStart line)) = resolved.
Proof.
  unfold is_error_for.
  change errline_re with (Seq Bol (Seq (Star is_space) errline_group)).
  rewrite (exec_Bol_space line (R := errline_group) eq_refl skips_indent_errline).
  rewrite <- matches_errline_iff,
    (matches_indented_run line (R := errline_group) eq_refl skips_indent_errline).
  destruct (run errline_group (MState 0 (trimStart line) None)) as [|st l] eqn:E.
  - split; [discriminate | intros [H _]; congruence].
  - assert (Hin : In st (run errline_group (MState 0 (trimStart line) None)))
      by (rewrite E; now left).
    apply run_Group_cap in Hin as (w & Hw & Hcap & Hl). cbn [rest] in Hw.
    rewrite Hcap. cbn [or_empty]. rewrite hd_split_cls.
    rewrite Hw, (@before_app is_open w (rest st) (errline_has_bracket Hl)).
    rewrite str_eqb_eq. split; [intro H; split; [discriminate | exact H] | tauto].
Qed.

(** X4.  A line yields a record for a target exactly when it has the shape of an
    error line and the text between its indentation and its first opening
    bracket resolves to the resolved target; the records are the trimmed
    lines, in the order of the output. *)
Theorem getBuildErrors_records (resolve : jsstring -> jsstring)
    (output filePath : jsstring) :
  errors_of resolve output filePath
  = map trim (filter (is_error_for resolve (resolve filePath)) (split newline output))
  /\ (forall line,
         is_error_for resolve (resolve filePath) line = true
         <-> error_line_shape line
             /\ resolve (before is_open (trimStart line)) = resolve filePath)
  /\ (forall record,
         In record (errors_of resolve output filePath)
         <-> exists line,
             In line (split newline output) /\ record = trim line
             /\ error_line_shape line
             /\ resolve (before is_open (trimStart line)) = resolve filePath).
Proof.
  split; [apply errors_of_filter|]. split; [intro line; apply is_error_for_spec|].
  intro record. rewrite errors_of_filter, in_map_iff. split.
  - intros (line & <- & H). apply filter_In in H as [Hin H].
    apply is_error_for_spec in H as [Hs Hp]. exists line. auto.
  - intros (line & Hin & -> & Hs & Hp). exists line. split; [reflexivity|].
    apply filter_In. split; [exact Hin|]. apply is_error_for_spec. auto.
Qed.

Lemma getBuildErrors_records_witness :
  In (lit "/src/A.cs(3,7): error CS1002: ; expected")
     (errors_of (Path.posix_resolve (lit "/w"))
        (text_lines [lit "Build started"; lit "   /src/A.cs(3,7): error CS1002: ; expected  "])
        (lit "/src/./A.cs"))
  /\ exists line,
      error_line_shape line
      /\ Path.posix_resolve (lit "/w") (before is_open (trimStart line))
         = Path.posix_resolve (lit "/w") (lit "/src/./A.cs").
Proof.
  assert (H : In (lit "/src/A.cs(3,7): error CS1002: ; expected")
                (errors_of (Path.posix_resolve (lit "/w"))
                   (text_lines [lit "Build started";
                                lit "   /src/A.cs(3,7): error CS1002: ; expected  "])
                   (lit "/src/./A.cs"))).
  { vm_compute. left. reflexivity. }
  split; [exact H|].
  destruct (getBuildErrors_records (Path.posix_resolve (lit "/w"))
              (text_lines [lit "Build started";
                           lit "   /src/A.cs(3,7): error CS1002: ; expected  "])
              (lit "/src/./A.cs")) as (_ & _ & Hrec).
  destruct (proj1 (Hrec _) H) as (line & _ & _ & Hs & Hp).
  exists line. split; [exact Hs | exact Hp].
Defined.

Lemma exec_errline_trimStart (line : jsstring) :
  exec errline_re line = exec errline_re (trimStart line).
Proof.
  change errline_re with (Seq Bol (Seq (Star is_space) errline_group)).
  rewrite !(exec_Bol_space _ (R := errline_group) eq_refl skips_indent_errline).
  now rewrite trimStart_idem.
Qed.

Lemma exec_errfile_trimStart (line : jsstring) :
  exec errfile_re line = exec errfile_re (trimStart line).
Proof.
  change errfile_re with (Seq Bol (Seq (Star is_space) errfile_tail)).
  rewrite !(exec_Bol_space _ (R := errfile_tail) eq_refl skips_indent_errfile).
  now rewrite trimStart_idem.
Qed.

(** X5.  The indentation of a line of the compiler plays no role: with white
    space put in front of a line, both modes decide as without it, and the
    record is the same. *)
Theorem indentation_is_ignored (resolve : jsstring -> jsstring)
    (resolved ws line : jsstring) :
  all_space ws = true ->
  is_error_for resolve resolved (ws ++ line) = is_error_for resolve resolved line
  /\ exec errfile_re (ws ++ line) = exec errfile_re line
  /\ trim (ws ++ line) = trim line.
Proof.
  intro H. split; [|split].
  - unfold is_error_for.
    now rewrite (exec_errline_trimStart (ws ++ line)), (exec_errline_trimStart line),
      trimStart_app_space.
  - now rewrite (exec_errfile_trimStart (ws ++ line)), (exec_errfile_trimStart line),
      trimStart_app_space.
  - unfold trim. now rewrite trimStart_app_space.
Qed.

Lemma indentation_is_ignored_witness :
  all_space (lit "    ") = true
  /\ is_error_for (Path.posix_resolve (lit "/w")) (lit "/src/A.cs")
       (lit "    " ++ lit "/src/A.cs(3,7): error CS1002: ; expected")
     = is_error_for (Path.posix_resolve (lit "/w")) (lit "/src/A.cs")
         (lit "/src/A.cs(3,7): error CS1002: ; expected").
Proof.
  split; [reflexivity|].
  apply (@indentation_is_ignored (Path.posix_resolve (lit "/w")) (lit "/src/A.cs")
           (lit "    ") (lit "/src/A.cs(3,7): error CS1002: ; expected") eq_refl).
Defined.

(** *** The set of files with errors *)

Lemma set_has_In (x : jsstring) (s : list jsstring) : set_has x s = true <-> In x s.
Proof.
  unfold set_has. rewrite existsb_exists. split.
  - intros (y & Hy & E). apply str_eqb_eq in E. now subst.
  - intro H. exists x. split; [exact H | apply str_eqb_refl].
Qed.

Lemma set_add_In (x f : jsstring) (s : list jsstring) :
  In f (set_add x s) <-> f = x \/ In f s.
Proof.
  unfold set_add. fold (set_has x s). destruct (set_has x s) eqn:E.
  - apply set_has_In in E. split; [auto|]. intros [->|H]; auto.
  - rewrite in_app_iff. simpl. split; [intros [H|[H|[]]]; auto | intros [H|H]; auto].
Qed.

Lemma set_add_NoDup (x : jsstring) (s : list jsstring) :
  NoDup s -> NoDup (set_add x s).
Proof.
  intro H. unfold set_add. fold (set_has x s). destruct (set_has x s) eqn:E; [exact H|].
  assert (Hx : ~ In x s).
  { intro Hin. apply set_has_In in Hin. congruence. }
  clear E. induction H as [|y s Hy Hs IH]; simpl.
  - constructor; [intros []|constructor].
  - constructor.
    + rewrite in_app_iff. simpl. intros [H|[H|[]]]; [contradiction|].
      apply Hx. now left.
    + apply IH. intro H. apply Hx. now right.
Qed.

Lemma errorFiles_fold (resolve : jsstring -> jsstring) (lines acc : list jsstring) :
  let step := fun errorFiles line =>
                match exec errfile_re line with
                | Some m => set_add (resolve (or_empty m)) errorFiles
                | None => errorFiles
                end in
  (forall f,
      In f (fold_left step lines acc)
      <-> In f acc
          \/ exists line m, In line lines /\ exec errfile_re line = Some m
                            /\ f = resolve (or_empty m))
  /\ (NoDup acc -> NoDup (fold_left step lines acc)).
Proof.
  intro step. revert acc. induction lines as [|line lines IH]; intro acc; simpl.
  - split; [|auto]. intro f. split; [auto|]. intros [H|(l & m & [] & _)]. exact H.
  - destruct (IH (step acc line)) as [IHin IHnd]. split.
    + intro f. rewrite IHin. unfold step at 1.
      destruct (exec errfile_re line) as [m|] eqn:E.
      * rewrite set_add_In. split.
        -- intros [[->|H]|(l & m' & Hl & Hm & Hf)]; eauto 8.
        -- intros [H|(l & m' & [<-|Hl] & Hm & Hf)]; eauto 8.
           left. left. congruence.
      * split.
        -- intros [H|(l & m' & Hl & Hm & Hf)]; eauto 8.
        -- intros [H|(l & m' & [<-|Hl] & Hm & Hf)]; eauto 8. congruence.
    + intro H. apply IHnd. unfold step.
      destruct (exec errfile_re line); [now apply set_add_NoDup | exact H].
Qed.

Lemma errfile_match_iff (line : jsstring) :
  (exists m, exec errfile_re line = Some m) <-> error_line_shape line.
Proof.
  change errfile_re with (Seq Bol (Seq (Star is_space) errfile_tail)).
  rewrite (exec_Bol_space line (R := errfile_tail) eq_refl skips_indent_errfile).
  rewrite <- matches_errfile_iff,
    (matches_indented_run line (R := errfile_tail) eq_refl skips_indent_errfile).
  destruct (run errfile_tail (MState 0 (trimStart line) None)) as [|st l].
  - split; [intros [m H]; discriminate | congruence].
  - split; [discriminate | eauto].
Qed.

(** X6.  The two modes agree on whether there is any error at all: the set of
    [getBuildErrorFiles] is empty exactly when no line of the output has the
    shape of an error line, which is exactly when [getBuildErrors] has no
    record for any target. *)
Theorem no_error_file_iff_no_record (resolve : jsstring -> jsstring)
    (output : jsstring) :
  (errorFiles_of resolve output = []
   <-> forall line, In line (split newline output) -> ~ error_line_shape line)
  /\ (errorFiles_of resolve output = []
      <-> forall filePath, errors_of resolve output filePath = []).
Proof.
  assert (H1 : errorFiles_of resolve output = []
               <-> forall line, In line (split newline output) -> ~ error_line_shape line).
  { destruct (errorFiles_fold resolve (split newline output) []) as [Hin _].
    fold (errorFiles_of resolve output) in Hin. split.
    - intros E line Hl Hs. apply errfile_match_iff in Hs as [m Hm].
      assert (H : In (resolve (or_empty m)) (errorFiles_of resolve output)).
      { apply Hin. right. eauto. }
      rewrite E in H. destruct H.
    - intro H. destruct (errorFiles_of resolve output) as [|f l]; [reflexivity|].
      destruct (proj1 (Hin f) (or_introl eq_refl)) as [[]|(line & m & Hl & Hm & _)].
      exfalso. apply (H line Hl). apply errfile_match_iff. eauto. }
  split; [exact H1|]. rewrite H1. split.
  - intros H filePath. rewrite errors_of_filter.
    destruct (filter _ _) as [|line l] eqn:E; [reflexivity|].
    assert (Hin : In line (line :: l)) by now left.
    rewrite <- E in Hin. apply filter_In in Hin as [Hl Hline].
    apply is_error_for_spec in Hline as [Hs _]. now destruct (H line Hl).
  - intros H line Hl Hs.
    specialize (H (before is_open (trimStart line))).
    assert (Hin : In (trim line)
                     (errors_of resolve output (before is_open (trimStart line)))).
    { rewrite errors_of_filter. apply in_map. apply filter_In.
      split; [exact Hl|]. apply is_error_for_spec. auto. }
    rewrite H in Hin. destruct Hin.
Qed.

Lemma no_error_file_iff_no_record_witness :
  errorFiles_of (Path.posix_resolve (lit "/w"))
    (text_lines [lit "Build succeeded."; lit "    0 Warning(s)"; lit "    0 Error(s)"]) = []
  /\ forall filePath,
      errors_of (Path.posix_resolve (lit "/w"))
        (text_lines [lit "Build succeeded."; lit "    0 Warning(s)"; lit "    0 Error(s)"])
        filePath = [].
Proof.
  assert (H : errorFiles_of (Path.posix_resolve (lit "/w"))
                (text_lines [lit "Build succeeded."; lit "    0 Warning(s)";
                             lit "    0 Error(s)"]) = []) by reflexivity.
  split; [exact H|].
  destruct (no_error_file_iff_no_record (Path.posix_resolve (lit "/w"))
              (text_lines [lit "Build succeeded."; lit "    0 Warning(s)";
                           lit "    0 Error(s)"])) as [_ [Hall _]].
  exact (Hall H).
Defined.

Lemma run_group_free (r : re) (st0 st : mstate) :
  group_free r = true -> In st (run r st0) -> cap st = cap st0.
Proof.
  revert st0 st. induction r as [| |p|a IHa b IHb|a IHa b IHb|p|p|a IHa];
    intros st0 st Hg; simpl in Hg |- *; try discriminate.
  - destruct (pos st0); [|intros []]. now intros [<-|[]].
  - now intros [<-|[]].
  - destruct (rest st0) as [|c t]; [intros []|].
    destruct (p c); [|intros []]. now intros [<-|[]].
  - apply andb_true_iff in Hg as [Ha Hb]. intro H.
    apply in_flat_map in H as (st1 & H1 & H2).
    rewrite (IHb _ _ Hb H2). now apply IHa.
  - apply andb_true_iff in Hg as [Ha Hb]. intro H.
    apply in_app_or in H as [H|H]; auto.
  - intro H. now apply in_map_iff in H as ([n s] & <- & _).
  - intro H. now apply in_map_iff in H as ([n s] & <- & _).
Qed.

(** Group 1 of the expression of [getBuildErrorFiles]: the text from the
    first character that is not white space to the .cs before a location. *)
Lemma errfile_capture (line : jsstring) (m : option jsstring) :
  exec errfile_re line = Some m ->
  exists path v tail,
    trimStart line = path ++ lit ".cs" ++ v ++ tail
    /\ m = Some (path ++ lit ".cs")
    /\ forallb dot path = true /\ location_shape v.
Proof.
  change errfile_re with (Seq Bol (Seq (Star is_space) errfile_tail)).
  rewrite (exec_Bol_space line (R := errfile_tail) eq_refl skips_indent_errfile).
  destruct (run errfile_tail (MState 0 (trimStart line) None)) as [|st l] eqn:E;
    [discriminate|].
  intro H. injection H as <-.
  unfold errfile_tail in E. rewrite run_Seq in E.
  apply flat_map_head in E as (st1 & l' & H1 & H2).
  assert (Hst : In st (run location_error_re st1)) by (rewrite H2; now left).
  apply run_Group_cap in H1 as (w & Hw & Hcap & Hl). cbn [rest] in Hw.
  cbn [lang] in Hl. destruct Hl as (path & cs & -> & Hpath & Hcs).
  apply lang_Lit in Hcs. subst cs.
  rewrite (run_group_free location_error_re st1 st eq_refl Hst).
  apply run_sound in Hst as (v & Hv & _ & Hlv). apply lang_location in Hlv.
  exists path, v, (rest st). rewrite Hw, Hv, <- !app_assoc. auto.
Qed.

(** X7.  The set of [getBuildErrorFiles] has no duplicate; each member is the
    resolved form of the start of a line, from its first character that is
    not white space to a .cs that a location and the word error follow; and
    every line with the shape of an error line gives a member. *)
Theorem getBuildErrorFiles_members (resolve : jsstring -> jsstring)
    (output : jsstring) :
  NoDup (errorFiles_of resolve output)
  /\ (forall f,
         In f (errorFiles_of resolve output) ->
         exists line path v tail,
           In line (split newline output)
           /\ trimStart line = path ++ lit ".cs" ++ v ++ tail
           /\ forallb dot path = true /\ location_shape v
           /\ f = resolve (path ++ lit ".cs"))
  /\ (forall line,
         In line (split newline output) -> error_line_shape line ->
         exists path v tail,
           trimStart line = path ++ lit ".cs" ++ v ++ tail
           /\ location_shape v
           /\ In (resolve (path ++ lit ".cs")) (errorFiles_of resolve output)).
Proof.
  destruct (errorFiles_fold resolve (split newline output) []) as [Hin Hnd].
  fold (errorFiles_of resolve output) in Hin, Hnd.
  split; [apply Hnd; constructor|]. split.
  - intros f Hf. apply Hin in Hf as [[]|(line & m & Hl & Hm & ->)].
    apply errfile_capture in Hm as (path & v & tail & Ht & -> & Hp & Hv).
    exists line, path, v, tail. auto.
  - intros line Hl Hs. apply errfile_match_iff in Hs as [m Hm].
    pose proof (errfile_capture line Hm) as (path & v & tail & Ht & -> & Hp & Hv).
    exists path, v, tail. split; [exact Ht|]. split; [exact Hv|].
    apply Hin. right. exists line, (Some (path ++ lit ".cs")). auto.
Qed.

Lemma getBuildErrorFiles_members_witness :
  In (lit "/src/A.cs")
     (errorFiles_of (Path.posix_resolve (lit "/w"))
        (text_lines [lit "  /src/A.cs(3,7): error CS1002: ; expected";
                     lit "/src/./A.cs[9,1]: error CS0103: unknown name"]))
  /\ exists line path v tail,
      trimStart line = path ++ lit ".cs" ++ v ++ tail /\ location_shape v
      /\ lit "/src/A.cs" = Path.posix_resolve (lit "/w") (path ++ lit ".cs").
Proof.
  assert (H : In (lit "/src/A.cs")
                (errorFiles_of (Path.posix_resolve (lit "/w"))
                   (text_lines [lit "  /src/A.cs(3,7): error CS1002: ; expected";
                                lit "/src/./A.cs[9,1]: error CS0103: unknown name"]))).
  { vm_compute. left. reflexivity. }
  split; [exact H|].
  destruct (getBuildErrorFiles_members (Path.posix_resolve (lit "/w"))
              (text_lines [lit "  /src/A.cs(3,7): error CS1002: ; expected";
                           lit "/src/./A.cs[9,1]: error CS0103: unknown name"]))
    as (_ & Hmem & _).
  destruct (Hmem _ H) as (line & path & v & tail & _ & Ht & _ & Hv & Hf).
  exists line, path, v, tail.
  split; [exact Ht|]. split; [exact Hv | exact Hf].
Defined.

(** ** The follow-up message *)

Lemma split_one_line (s : jsstring) : one_line s = true -> split newline s = [s].
Proof.
  induction s as [|c s IH]; simpl; [reflexivity|].
  intro H. apply andb_true_iff in H as [Hc Hs].
  apply negb_true_iff in Hc. rewrite Hc, IH by exact Hs. reflexivity.
Qed.

Lemma split_app_newline (a x : jsstring) :
  one_line a = true -> split newline (a ++ newline :: x) = a :: split newline x.
Proof.
  induction a as [|c a IH]; simpl; [reflexivity|].
  intro H. apply andb_true_iff in H as [Hc Ha].
  apply negb_true_iff in Hc. rewrite Hc, IH by exact Ha. reflexivity.
Qed.

Lemma split_join (l : list jsstring) :
  l <> [] -> Forall (fun s => one_line s = true) l ->
  split newline (join [newline] l) = l.
Proof.
  intros Hne H. induction H as [|a l Ha Hl IH]; [congruence|].
  destruct l as [|b r].
  - simpl. now apply split_one_line.
  - change (join [newline] (a :: b :: r)) with (a ++ newline :: join [newline] (b :: r)).
    rewrite split_app_newline by exact Ha. f_equal. apply IH. discriminate.
Qed.

Lemma split_lines_one_line (s : jsstring) :
  Forall (fun l => one_line l = true) (split newline s).
Proof.
  induction s as [|c s IH]; simpl; [repeat constructor|].
  destruct (char_eqb c newline) eqn:E.
  - constructor; [reflexivity | exact IH].
  - destruct (split newline s) as [|h r]; [repeat constructor; simpl; now rewrite E|].
    inversion IH as [|? ? Hh Hr]; subst. constructor; [|exact Hr].
    simpl. now rewrite E, Hh.
Qed.

Lemma forallb_trimStart (p : char -> bool) (s : jsstring) :
  forallb p s = true -> forallb p (trimStart s) = true.
Proof.
  induction s as [|c s IH]; simpl; [reflexivity|].
  intro H. destruct (is_space c); [|exact H].
  apply andb_true_iff in H as [_ H]. now apply IH.
Qed.

Lemma forallb_trimEnd (p : char -> bool) (s : jsstring) :
  forallb p s = true -> forallb p (trimEnd s) = true.
Proof.
  intro H. destruct (trimEnd_prefix s) as [t Ht]. rewrite Ht in H.
  rewrite forallb_app in H. now apply andb_true_iff in H as [H _].
Qed.

Lemma errors_of_one_line (resolve : jsstring -> jsstring) (output filePath : jsstring) :
  Forall (fun s => one_line s = true) (errors_of resolve output filePath).
Proof.
  rewrite errors_of_filter. apply Forall_forall. intros record H.
  apply in_map_iff in H as (line & <- & H). apply filter_In in H as [H _].
  pose proof (split_lines_one_line output) as Hall. rewrite Forall_forall in Hall.
  unfold trim. apply forallb_trimEnd, forallb_trimStart, Hall, H.
Qed.

(** X8.  Read line by line, the follow-up message is its three lines of header,
    then the records of [getBuildErrors], each on a line of its own, as they
    are and in order, then an empty line and the directive. *)
Theorem followUp_message_lines (resolve : jsstring -> jsstring)
    (output filePath : jsstring) :
  split newline (followUp_message (errors_of resolve output filePath))
  = [lit "The file still has build errors. Please fix them."; []; lit "Errors:"]
    ++ errors_of resolve output filePath ++ [[]; return_only].
Proof.
  unfold followUp_message. apply split_join; [discriminate|].
  apply Forall_app. split; [repeat constructor|].
  apply Forall_app. split; [apply errors_of_one_line | repeat constructor].
Qed.

(** ** Relations that every command keeps *)

Section Hoare.

Variable env : Env.
Variable resolve : jsstring -> jsstring.
Variable R : World -> World -> Prop.
Variable loggable : Action -> Prop.
Variable writable : jsstring -> jsstring -> Prop.

Hypothesis R_refl : forall w, R w w.
Hypothesis R_trans : forall a b c, R a b -> R b c -> R a c.
Hypothesis R_log : forall w a, loggable a -> R w (logged a w).
Hypothesis R_write : forall w p c, writable p c -> R w (written p c w).

Lemma hoare_ret {A} (Q : A -> Prop) (a : A) : Q a -> hoare R Q (ret a).
Proof. intros H w. split; [apply R_refl|]. simpl. intros b E. now injection E as <-. Qed.

Lemma hoare_throw {A} (Q : A -> Prop) (e : jsstring) : hoare R Q (@throw A e).
Proof. intro w. split; [apply R_refl|]. simpl. discriminate. Qed.

Lemma hoare_conseq {A} (Q Q' : A -> Prop) (c : M A) :
  (forall a, Q a -> Q' a) -> hoare R Q c -> hoare R Q' c.
Proof. intros HQ Hc w. destruct (Hc w) as [H1 H2]. split; auto. Qed.

Lemma hoare_bind {A B} (Q : A -> Prop) (Q' : B -> Prop) (c : M A) (k : A -> M B) :
  hoare R Q c -> (forall a, Q a -> hoare R Q' (k a)) -> hoare R Q' (bind c k).
Proof.
  intros Hc Hk w. unfold bind. destruct (Hc w) as [H1 H2].
  destruct (c w) as [[a|e|n] w'] eqn:E; simpl in *.
  - destruct (Hk a (H2 a eq_refl) w') as [H3 H4]. split; [eapply R_trans; eauto | exact H4].
  - split; [exact H1 | discriminate].
  - split; [exact H1 | discriminate].
Qed.

Lemma hoare_try_catch {A} (Q : A -> Prop) (c : M A) (h : jsstring -> M A) :
  hoare R Q c -> (forall e, hoare R Q (h e)) -> hoare R Q (try_catch c h).
Proof.
  intros Hc Hh w. unfold try_catch. destruct (Hc w) as [H1 H2].
  destruct (c w) as [[a|e|n] w'] eqn:E; simpl in *.
  - split; [exact H1 | exact H2].
  - destruct (Hh e w') as [H3 H4]. split; [eapply R_trans; eauto | exact H4].
  - split; [exact H1 | discriminate].
Qed.

Lemma hoare_act (a : Action) : loggable a -> hoare R (fun _ => True) (act a).
Proof. intros H w. split; [now apply R_log | auto]. Qed.

Lemma hoare_process_exit {A} (Q : A -> Prop) (code : nat) :
  loggable (AExit code) -> hoare R Q (@process_exit A code).
Proof. intros H w. split; [now apply R_log | discriminate]. Qed.

Lemma hoare_for_each {A} (l : list A) (body : A -> M unit) :
  (forall a, In a l -> hoare R (fun _ => True) (body a)) ->
  hoare R (fun _ => True) (for_each l body).
Proof.
  induction l as [|a l IH]; intro H; simpl.
  - now apply hoare_ret.
  - eapply hoare_bind; [apply H; now left|]. intros _ _. apply IH.
    intros b Hb. apply H. now right.
Qed.

Hypothesis log_quiet :
  forall a, quiet_action a = true -> is_read a = false -> loggable a.
Hypothesis log_read : forall path, loggable (ARead path).

Lemma hoare_log (a : Action) :
  quiet_action a = true -> is_read a = false ->
  hoare R (fun _ : unit => True) (act a).
Proof. intros H1 H2. now apply hoare_act, log_quiet. Qed.

Lemma hoare_readFileSync (path : jsstring) :
  hoare R (fun _ => True) (readFileSync path).
Proof.
  intro w. unfold readFileSync. destruct (fs_lookup path (fs w)); (split; [|auto]);
    apply (R_log w (a := ARead path)); apply log_read.
Qed.

Lemma hoare_createSession : hoare R (fun _ => True) (createSession env).
Proof.
  intro w. unfold createSession. destruct (create_session env w); (split; [|auto]);
    apply (R_log w (a := ACreateSession)); now apply log_quiet.
Qed.

Lemma hoare_event_subscribe : hoare R (fun _ => True) (event_subscribe env).
Proof.
  intro w. unfold event_subscribe. destruct (subscribe env w); (split; [|auto]);
    apply (R_log w (a := ASubscribe)); now apply log_quiet.
Qed.

Lemma hoare_session_prompt (sessionId : jsstring) (parts : list ReqPart) :
  loggable (APrompt sessionId parts) ->
  hoare R (fun _ => True) (session_prompt env sessionId parts).
Proof.
  intros H w. unfold session_prompt.
  destruct (prompt_reply env w sessionId parts); (split; [|auto]);
    now apply (R_log w (a := APrompt sessionId parts)).
Qed.

Lemma hoare_streamDone (sessionId : jsstring) (events : list Event) :
  hoare R (fun _ => True) (streamDone sessionId events).
Proof.
  induction events as [|e r IH]; simpl; [now apply hoare_ret|].
  eapply hoare_bind; [|intros _ _; exact IH].
  destruct (relay_event sessionId e); [now apply hoare_log | now apply hoare_ret].
Qed.

Lemma hoare_unhandled_rejection {A} (Q : A -> Prop) (err : jsstring) :
  hoare R Q (@unhandled_rejection A err).
Proof.
  unfold unhandled_rejection.
  eapply hoare_bind; [now apply hoare_log|]. intros _ _.
  apply hoare_process_exit. now apply log_quiet.
Qed.

Lemma hoare_exchange (sessionId : jsstring) (parts : list ReqPart) :
  loggable (APrompt sessionId parts) ->
  hoare R (fun code => ends_with_one_newline code = true)
        (exchange env sessionId parts).
Proof.
  intro Hp. unfold exchange.
  eapply hoare_bind; [apply hoare_event_subscribe|]. intros [events ending] _.
  eapply hoare_bind.
  { apply hoare_try_catch; [now apply hoare_session_prompt|].
    intro e. eapply hoare_bind; [apply hoare_streamDone|]. intros _ _.
    destruct ending; try apply hoare_throw. apply hoare_unhandled_rejection. }
  intros data _. eapply hoare_bind; [apply hoare_streamDone|]. intros _ _.
  destruct ending.
  3:{ eapply hoare_bind with (Q := fun _ => True).
      - intro w. split; [apply R_refl | auto].
      - intros [|] _; [apply hoare_unhandled_rejection | apply hoare_throw]. }
  all: (eapply hoare_bind; [now apply hoare_log|]; intros _ _;
     destruct data as [reply|]; [|apply hoare_throw];
     apply hoare_ret; unfold extractCode;
     destruct (exec fence_re (join [newline] (textParts reply)));
     apply ends_with_one_newline_trimEnd).
Qed.

Lemma hoare_getBuildErrors (project filePath : jsstring) :
  hoare R (fun _ => True) (getBuildErrors env resolve project filePath).
Proof.
  intro w. split; [|auto]. apply (R_log w (a := ABuild project)). now apply log_quiet.
Qed.

Lemma hoare_getBuildErrorFiles (project : jsstring) (printOutput : bool) :
  hoare R (fun _ => True) (getBuildErrorFiles env resolve project printOutput).
Proof.
  unfold getBuildErrorFiles.
  eapply hoare_bind; [now apply hoare_log|]. intros _ _.
  eapply hoare_bind with (Q := fun _ => True).
  { intro w. split; [|auto]. apply (R_log w (a := ABuild project)). now apply log_quiet. }
  intros output _. eapply hoare_bind with (Q := fun _ => True); [|intros; now apply hoare_ret].
  destruct printOutput; [|now apply hoare_ret].
  repeat (eapply hoare_bind; [now apply hoare_log|]; intros _ _). now apply hoare_log.
Qed.

Lemma hoare_writeFileSync (path content : jsstring) :
  writable path content ->
  hoare R (fun _ => True) (writeFileSync env path content).
Proof.
  intros H w. unfold writeFileSync. destruct (can_write env w path); (split; [|auto]).
  - now apply R_write.
  - apply (R_log w (a := AWriteFailed path)). now apply log_quiet.
Qed.

Lemma hoare_retry_loop (maxR : nat) (project filePath sessionId : jsstring)
    (measure attempt : nat) :
  (forall parts, loggable (APrompt sessionId parts)) ->
  (forall c, ends_with_one_newline c = true -> writable filePath c) ->
  hoare R (fun _ => True)
        (retry_loop env resolve maxR project filePath sessionId measure attempt).
Proof.
  intros Hp Hw. revert attempt. induction measure as [|m IH]; intro attempt; simpl.
  - now apply hoare_ret.
  - destruct (attempt <=? maxR); [|now apply hoare_ret].
    eapply hoare_bind; [now apply hoare_log|]. intros _ _.
    eapply hoare_bind; [apply hoare_getBuildErrors|]. intros errors _.
    destruct (List.length errors =? 0); [now apply hoare_log|].
    eapply hoare_bind; [now apply hoare_log|]. intros _ _.
    eapply hoare_bind; [apply hoare_exchange, Hp|]. intros modified Hm.
    eapply hoare_bind; [apply hoare_writeFileSync, Hw, Hm|]. intros _ _.
    eapply hoare_bind; [now apply hoare_log|]. intros _ _.
    eapply hoare_bind with (Q := fun _ => True); [|intros _ _; apply IH].
    destruct (attempt =? maxR); [|now apply hoare_ret].
    eapply hoare_bind; [apply hoare_getBuildErrors|]. intros remaining _.
    destruct (0 <? List.length remaining); now apply hoare_log.
Qed.


Lemma hoare_rewrite_file (opts : Opts)
    (prompt filePath fileContents sessionId : jsstring) :
  (forall parts, loggable (APrompt sessionId parts)) ->
  (dryRun opts = false ->
   forall c, ends_with_one_newline c = true -> writable filePath c) ->
  hoare R (fun _ => True)
        (rewrite_file env resolve opts prompt filePath fileContents sessionId).
Proof.
  intros Hp Hw. unfold rewrite_file.
  eapply hoare_bind; [apply hoare_exchange, Hp|]. intros modified Hm.
  destruct (str_eqb fileContents modified); [now apply hoare_log|].
  destruct (dryRun opts).
  { repeat (eapply hoare_bind; [now apply hoare_log|]; intros _ _). now apply hoare_log. }
  eapply hoare_bind; [apply hoare_writeFileSync, Hw; auto|]. intros _ _.
  eapply hoare_bind; [now apply hoare_log|]. intros _ _.
  unfold retry_block. destruct (truthy (retryBuild opts)); [|now apply hoare_ret].
  apply hoare_retry_loop; auto.
Qed.

Lemma hoare_process_file (opts : Opts) (prompt : jsstring) (n i : nat)
    (filePath : jsstring) :
  (forall sessionId parts, loggable (APrompt sessionId parts)) ->
  (dryRun opts = false ->
   forall c, ends_with_one_newline c = true -> writable filePath c) ->
  hoare R (fun _ => True) (process_file env resolve opts prompt n i filePath).
Proof.
  intros Hp Hw. unfold process_file.
  eapply hoare_bind; [now apply hoare_log|]. intros _ _.
  eapply hoare_bind; [apply hoare_readFileSync|]. intros fileContents _.
  eapply hoare_bind; [apply hoare_createSession|]. intros sessionId _.
  apply hoare_try_catch; [apply hoare_rewrite_file; auto|].
  intro e. now apply hoare_log.
Qed.

Lemma hoare_process_files (opts : Opts) (prompt : jsstring) (n i : nat)
    (files : list jsstring) :
  (forall sessionId parts, loggable (APrompt sessionId parts)) ->
  (dryRun opts = false ->
   forall f c, In f files -> ends_with_one_newline c = true -> writable f c) ->
  hoare R (fun _ => True) (process_files env resolve opts prompt n i files).
Proof.
  intros Hp Hw. revert i. induction files as [|f files IH]; intro i; simpl.
  - now apply hoare_ret.
  - eapply hoare_bind.
    + apply hoare_process_file; [exact Hp|]. intros Hd c. apply Hw; [exact Hd | now left].
    + intros _ _. apply IH. intros Hd g c Hg. apply Hw; [exact Hd | now right].
Qed.

Lemma filter_subset {A} (p : A -> bool) (l : list A) (x : A) :
  In x (filter p l) -> In x l.
Proof. intro H. now apply filter_In in H. Qed.

Lemma hoare_run_main (opts : Opts) (found : list jsstring) :
  (forall sessionId parts, loggable (APrompt sessionId parts)) ->
  (dryRun opts = false ->
   forall f c,
     In f (dedupe (map resolve (filter (endsWith (lit ".cs")) found))) ->
     ends_with_one_newline c = true -> writable f c) ->
  hoare R (fun _ => True) (run_main env resolve opts found).
Proof.
  intros Hp Hw. unfold run_main.
  apply hoare_try_catch.
  2:{ intro e. eapply hoare_bind; [now apply hoare_log|]. intros _ _.
      apply hoare_process_exit. now apply log_quiet. }
  unfold main.
  eapply hoare_bind; [apply hoare_readFileSync|]. intros prompt _.
  eapply hoare_bind
    with (Q := fun files =>
                 forall f, In f files ->
                           In f (dedupe (map resolve (filter (endsWith (lit ".cs")) found)))).
  { destruct (truthy (buildFilter opts)) as [project|]; [|now apply hoare_ret].
    eapply hoare_bind; [apply hoare_getBuildErrorFiles|]. intros errorFiles _.
    destruct (List.length errorFiles =? 0).
    - eapply hoare_bind; [now apply hoare_log|]. intros _ _.
      apply hoare_process_exit. now apply log_quiet.
    - eapply hoare_bind; [now apply hoare_log|]. intros _ _.
      eapply hoare_bind.
      + apply hoare_for_each. intros f _. now apply hoare_log.
      + intros _ _. apply hoare_ret. intros f. apply filter_subset. }
  intros files Hfiles. destruct (List.length files =? 0).
  - eapply hoare_bind; [now apply hoare_log|]. intros _ _.
    apply hoare_process_exit. now apply log_quiet.
  - eapply hoare_bind; [now apply hoare_log|]. intros _ _.
    eapply hoare_bind; [|intros _ _; now apply hoare_log].
    apply hoare_process_files; [exact Hp|].
    intros Hd f c Hf. apply Hw; auto.
Qed.

End Hoare.

(** ** The list of files to process *)



(** ** What a run does to the files *)

(** X10.  With [--dry-run] the files are left as they are, whatever the service,
    the compiler and the file system answer. *)
Theorem dry_run_writes_nothing (env : Env) (resolve : jsstring -> jsstring)
    (opts : Opts) (found : list jsstring) (w : World) :
  dryRun opts = true ->
  fs (snd (run_main env resolve opts found w)) = fs w.
Proof.
  intro Hd.
  refine (proj1 (@hoare_run_main env resolve (fun w w' => fs w' = fs w)
                   (fun _ => True) (fun _ _ => False) _ _ _ _ _ _ opts found _ _ w)).
  - reflexivity.
  - intros a b c H1 H2. congruence.
  - reflexivity.
  - intros w0 p c [].
  - auto.
  - auto.
  - auto.
  - intro H. congruence.
Qed.

Lemma dry_run_writes_nothing_witness :
  dryRun {| promptFile := lit "/p.txt"; dryRun := true; buildFilter := None;
            buildOutput := false; retryBuild := Some (lit "/a/app.sln") |} = true
  /\ fs (snd (run_main env_retry_down (Path.posix_resolve (lit "/"))
                {| promptFile := lit "/p.txt"; dryRun := true; buildFilter := None;
                   buildOutput := false; retryBuild := Some (lit "/a/app.sln") |}
                [lit "/a/F.cs"; lit "/a/G.cs"] sample_world))
     = fs sample_world.
Proof.
  split; [reflexivity|].
  apply (@dry_run_writes_nothing env_retry_down (Path.posix_resolve (lit "/"))
           {| promptFile := lit "/p.txt"; dryRun := true; buildFilter := None;
              buildOutput := false; retryBuild := Some (lit "/a/app.sln") |}
           [lit "/a/F.cs"; lit "/a/G.cs"] sample_world eq_refl).
Defined.

Lemma rewritten_only_trans (selected : list jsstring) (a b c : World) :
  rewritten_only selected a b -> rewritten_only selected b c ->
  rewritten_only selected a c.
Proof.
  intros H1 H2 g. destruct (H2 g) as [E|H]; [|now right].
  rewrite E. apply H1.
Qed.

(** X11.  Whatever happens in a run, a file is as it was before, or it is one of
    the files selected for processing and holds a text that ends with
    exactly one newline. *)
Theorem run_rewrites_selected_files_only (env : Env) (resolve : jsstring -> jsstring)
    (opts : Opts) (found : list jsstring) (w : World) :
  rewritten_only (dedupe (map resolve (filter (endsWith (lit ".cs")) found)))
                 w (snd (run_main env resolve opts found w)).
Proof.
  refine (proj1 (@hoare_run_main env resolve
                   (rewritten_only (dedupe (map resolve (filter (endsWith (lit ".cs")) found))))
                   (fun _ => True)
                   (fun p c =>
                      In p (dedupe (map resolve (filter (endsWith (lit ".cs")) found)))
                      /\ ends_with_one_newline c = true)
                   _ _ _ _ _ _ opts found _ _ w)).
  - intros w0 g. now left.
  - apply rewritten_only_trans.
  - intros w0 a _ g. now left.
  - intros w0 p c [Hp Hc] g. unfold written. simpl.
    destruct (str_eqb p g) eqn:E; [|now left].
    apply str_eqb_eq in E. subst g. right. eauto.
  - auto.
  - auto.
  - auto.
  - auto.
Qed.

Lemma grew_by_refl (P : Action -> bool) (w : World) : grew_by P w w.
Proof. exists []. split; reflexivity. Qed.

Lemma grew_by_trans (P : Action -> bool) (a b c : World) :
  grew_by P a b -> grew_by P b c -> grew_by P a c.
Proof.
  intros (n1 & E1 & H1) (n2 & E2 & H2). exists (n2 ++ n1).
  rewrite E2, E1, app_assoc, forallb_app, H1, H2. split; reflexivity.
Qed.

Lemma grew_by_logged (P : Action -> bool) (w : World) (a : Action) :
  P a = true -> grew_by P w (logged a w).
Proof. intro Ha. exists [a]. simpl. rewrite Ha. split; reflexivity. Qed.

Lemma grew_by_try_block (env : Env) (resolve : jsstring -> jsstring) (opts : Opts)
    (prompt f contents sid : jsstring) (w : World) :
  grew_by (own_action sid f) w
    (snd (try_catch (rewrite_file env resolve opts prompt f contents sid)
            (fun err => console_error (lit "  Error processing " ++ f ++ lit ": " ++ err))
            w)).
Proof.
  refine (proj1 (@hoare_try_catch (grew_by (own_action sid f))
                   (@grew_by_trans (own_action sid f)) unit (fun _ => True)
                   _ _ _ _ w)).
  - apply (@hoare_rewrite_file env resolve (grew_by (own_action sid f))
             (fun a => own_action sid f a = true) (fun p c => p = f)).
    + apply grew_by_refl.
    + apply grew_by_trans.
    + intros w0 a Ha. now apply grew_by_logged.
    + intros w0 p c ->. exists [AWrite f c]. simpl. rewrite str_eqb_refl.
      split; reflexivity.
    + intros a Ha _. destruct a; simpl in *; auto; discriminate.
    + intro parts. simpl. apply str_eqb_refl.
    + auto.
  - intros e w0. split; [|auto]. now apply grew_by_logged.
Qed.

(** X12.  The turn of one file prompts only the session created in that turn and
    writes only the file of that turn. *)
Theorem file_turn_keeps_to_its_session_and_path (env : Env)
    (resolve : jsstring -> jsstring) (opts : Opts) (prompt : jsstring) (n i : nat)
    (f : jsstring) (w : World) :
  exists new,
    trace (snd (process_file env resolve opts prompt n i f w)) = new ++ trace w
    /\ (forall s parts,
           In (APrompt s parts) new ->
           create_session env (before_session n i f w) = Data s)
    /\ (forall p c, In (AWrite p c) new -> p = f).
Proof.
  destruct (fs_lookup f (fs w)) as [contents|] eqn:Hread.
  2:{ exists [ARead f;
              AStdout ((newline :: lit "[" ++ nat_str (i + 1) ++ lit "/" ++ nat_str n
                        ++ lit "] Processing: " ++ f) ++ [newline])].
      unfold process_file, bind, console_log, act, readFileSync. cbn [fs trace].
      rewrite Hread. split; [reflexivity|].
      split; [intros s parts [H|[H|[]]]; discriminate
             | intros p c [H|[H|[]]]; discriminate]. }
  destruct (create_session env (before_session n i f w)) as [| |sid] eqn:Hs.
  1,2: exists [ACreateSession; ARead f;
               AStdout ((newline :: lit "[" ++ nat_str (i + 1) ++ lit "/" ++ nat_str n
                         ++ lit "] Processing: " ++ f) ++ [newline])];
    unfold process_file, bind, console_log, act, readFileSync, createSession;
    cbn [fs trace]; rewrite Hread;
    change {| fs := fs w; trace := ARead f :: _ |} with (before_session n i f w);
    rewrite Hs; (split; [reflexivity|]);
    (split; [intros s parts [H|[H|[H|[]]]]; discriminate
            | intros p c [H|[H|[H|[]]]]; discriminate]).
  rewrite (process_file_unfold env resolve opts prompt n i f w Hread Hs).
  destruct (grew_by_try_block env resolve opts prompt f contents sid
              (after_session n i f w)) as (new & Htrace & Hown).
  rewrite forallb_forall in Hown.
  exists (new ++ [ACreateSession; ARead f;
                  AStdout ((newline :: lit "[" ++ nat_str (i + 1) ++ lit "/" ++ nat_str n
                            ++ lit "] Processing: " ++ f) ++ [newline])]).
  split; [rewrite Htrace, <- app_assoc; reflexivity|]. split.
  - intros s parts H. apply in_app_or in H as [H|[H|[H|[H|[]]]]]; try discriminate.
    apply Hown in H. simpl in H. apply str_eqb_eq in H. now subst.
  - intros p c H. apply in_app_or in H as [H|[H|[H|[H|[]]]]]; try discriminate.
    apply Hown in H. simpl in H. now apply str_eqb_eq in H.
Qed.

(** ** The exchange with the service, continued *)

Lemma streamDone_counts (sessionId : jsstring) (events : list Event) (w : World) :
  exists w',
    streamDone sessionId events w = (Ok tt, w')
    /\ fs w' = fs w /\ builds w' = builds w /\ prompts w' = prompts w
    /\ writes w' = writes w.
Proof.
  destruct (streamDone_writes sessionId events w) as (out & -> & _).
  eexists. split; [reflexivity|]. unfold builds, prompts, writes. cbn [fs trace].
  rewrite !filter_app.
  assert (H : forall p, (forall t, p (AStdout t) = false) ->
                        filter p (map AStdout (rev out)) = []).
  { intros p Hp. induction (rev out) as [|t l IH]; simpl; [reflexivity|].
    now rewrite Hp. }
  rewrite !H by reflexivity. auto.
Qed.

(** X13.  When [modifyFile] or [sendFollowUp] returns, what it returns is the
    code extracted from the reply to its own request, which it sent once,
    after a subscription that succeeded; no file was written and the
    compiler was not run.  A reply without data makes it throw "No response
    from LLM", after the request was sent. *)
Theorem exchange_returns_code_of_reply (env : Env) (sessionId : jsstring)
    (parts : list ReqPart) (w : World) :
  (forall code w',
      exchange env sessionId parts w = (Ok code, w') ->
      exists events ending reply,
        subscribe env w = Subscribed events ending /\ ending <> Broken
        /\ prompt_reply env (after_subscribe w) sessionId parts = Data reply
        /\ code = extractCode reply
        /\ fs w' = fs w /\ prompts w' = prompts w + 1
        /\ builds w' = builds w /\ writes w' = writes w)
  /\ (forall events ending,
         subscribe env w = Subscribed events ending -> ending <> Broken ->
         prompt_reply env (after_subscribe w) sessionId parts = NoData ->
         exists w',
           exchange env sessionId parts w = (Throw (lit "No response from LLM"), w')
           /\ fs w' = fs w /\ prompts w' = prompts w + 1).
Proof.
  unfold exchange, bind, event_subscribe, try_catch, session_prompt, feed_threw_early.
  destruct (subscribe env w) as [|events ending] eqn:Hsub.
  { split; [intros code w' H; discriminate | intros events ending H; discriminate]. }
  cbn [fs trace]. fold (after_subscribe w).
  destruct (streamDone_counts sessionId events
              {| fs := fs w; trace := APrompt sessionId parts :: ASubscribe :: trace w |})
    as (w1 & Hsd & Hfs & Hb & Hpr & Hwr).
  unfold builds, prompts, writes in Hb, Hpr, Hwr. cbn [fs trace filter is_build is_prompt is_write] in Hfs, Hb, Hpr, Hwr.
  destruct (prompt_reply env (after_subscribe w) sessionId parts) as [| |reply] eqn:Hp;
    rewrite Hsd.
  - split; [|intros ? ? _ _ H; discriminate].
    intros code w' H. destruct ending; discriminate.
  - split.
    + intros code w'. destruct ending; try discriminate.
      destruct (throws_while_pending env w1); discriminate.
    + intros events' ending' E Hne _. injection E as <- <-.
      destruct ending; [| |congruence];
        (eexists; split; [reflexivity|]; unfold prompts; cbn [fs trace filter is_prompt];
         split; [exact Hfs | rewrite Hpr; simpl; lia]).
  - split; [|intros ? ? _ _ H; discriminate].
    intros code w' H. exists events, ending, reply.
    destruct ending; [| |destruct (throws_while_pending env w1); discriminate];
      (injection H as <- <-; split; [reflexivity|]; split; [discriminate|];
       split; [reflexivity|]; split; [reflexivity|];
       unfold prompts, builds, writes; cbn [fs trace filter is_build is_prompt is_write];
       split; [exact Hfs|]; split; [rewrite Hpr; simpl; lia|];
       split; [exact Hb | exact Hwr]).
Qed.

Lemma exchange_returns_code_of_reply_witness :
  exists code w',
    exchange env_retry_down (lit "s1") [ReqText (lit "fix")] sample_world = (Ok code, w')
    /\ code = extractCode sample_reply /\ prompts w' = prompts sample_world + 1.
Proof.
  destruct (exchange env_retry_down (lit "s1") [ReqText (lit "fix")] sample_world)
    as [r w'] eqn:E.
  vm_compute in E. injection E as <- <-.
  destruct (exchange_returns_code_of_reply env_retry_down (lit "s1")
              [ReqText (lit "fix")] sample_world) as [H _].
  destruct (H _ _ eq_refl) as (events & ending & reply & _ & _ & Hr & Hc & _ & Hp & _).
  vm_compute in Hr. injection Hr as <-.
  do 2 eexists. split; [reflexivity|]. split; [exact Hc | exact Hp].
Defined.

(** ** Turns that end early *)

Lemma exchange_leaves_disk_and_build (env : Env) (sessionId : jsstring)
    (parts : list ReqPart) (w : World) (code : jsstring) (w' : World) :
  exchange env sessionId parts w = (Ok code, w') ->
  fs w' = fs w /\ builds w' = builds w /\ writes w' = writes w.
Proof.
  intro H.
  unfold exchange, bind, event_subscribe, try_catch, session_prompt, feed_threw_early in H.
  destruct (subscribe env w) as [|events ending]; [discriminate|].
  cbn [fs trace] in H.
  destruct (streamDone_counts sessionId events
              {| fs := fs w; trace := APrompt sessionId parts :: ASubscribe :: trace w |})
    as (w1 & Hsd & Hfs & Hb & _ & Hw).
  unfold builds, writes in Hb, Hw.
  cbn [fs trace filter is_build is_write] in Hfs, Hb, Hw.
  destruct (prompt_reply env _ sessionId parts) as [| |reply]; rewrite Hsd in H.
  - destruct ending; discriminate.
  - destruct ending; try discriminate.
    destruct (throws_while_pending env w1); discriminate.
  - destruct ending; [| |destruct (throws_while_pending env w1); discriminate];
      (injection H as _ <-; unfold builds, writes;
       cbn [fs trace filter is_build is_write];
       split; [exact Hfs|]; split; [exact Hb | exact Hw]).
Qed.

(** X14.  A rewrite equal to the content of the file: the turn ends normally
    after "No changes.", the file is not written and the compiler is not
    run, even with a retry target. *)
Theorem unchanged_file_is_skipped (env : Env) (resolve : jsstring -> jsstring)
    (opts : Opts) (prompt : jsstring) (n i : nat) (f contents sid : jsstring)
    (w w2 : World) :
  fs_lookup f (fs w) = Some contents ->
  create_session env (before_session n i f w) = Data sid ->
  modifyFile env sid prompt f (after_session n i f w) = (Ok contents, w2) ->
  process_file env resolve opts prompt n i f w
  = (Ok tt, logged (AStdout (lit "  No changes." ++ [newline])) w2)
  /\ fs w2 = fs w /\ builds w2 = builds w /\ writes w2 = writes w.
Proof.
  intros Hread Hs Hm.
  rewrite (process_file_unfold env resolve opts prompt n i f w Hread Hs).
  unfold try_catch, rewrite_file, bind. rewrite Hm, str_eqb_refl.
  split; [reflexivity|].
  destruct (@exchange_leaves_disk_and_build env sid _ (after_session n i f w)
              contents w2 Hm) as (Hfs & Hb & Hw).
  split; [exact Hfs|]. split; [exact Hb | exact Hw].
Qed.

Lemma unchanged_file_is_skipped_witness :
  exists w2,
    process_file env_retry_down (Path.posix_resolve (lit "/")) sample_opts
      (lit "Add a method M.") 1 0 (lit "/a/M.cs")
      {| fs := [(lit "/a/M.cs", extractCode sample_reply)]; trace := [] |}
    = (Ok tt, logged (AStdout (lit "  No changes." ++ [newline])) w2)
    /\ fs w2 = [(lit "/a/M.cs", extractCode sample_reply)].
Proof.
  destruct (modifyFile env_retry_down (lit "s1") (lit "Add a method M.") (lit "/a/M.cs")
              (after_session 1 0 (lit "/a/M.cs")
                 {| fs := [(lit "/a/M.cs", extractCode sample_reply)]; trace := [] |}))
    as [r w2] eqn:E.
  assert (Hr : r = Ok (extractCode sample_reply)).
  { apply (f_equal fst) in E. vm_compute in E. rewrite <- E. vm_compute. reflexivity. }
  subst r. exists w2.
  destruct (@unchanged_file_is_skipped env_retry_down (Path.posix_resolve (lit "/"))
              sample_opts (lit "Add a method M.") 1 0 (lit "/a/M.cs")
              (extractCode sample_reply) (lit "s1")
              {| fs := [(lit "/a/M.cs", extractCode sample_reply)]; trace := [] |} w2
              eq_refl eq_refl E) as (H1 & H2 & _).
  split; [exact H1 | exact H2].
Defined.

(** ** Builds that report nothing *)

Lemma truthy_Some (value : option jsstring) (text : jsstring) :
  value = Some text -> text <> [] -> truthy value = Some text.
Proof. intros -> H. destruct text; [now destruct H | reflexivity]. Qed.

Lemma errorFiles_of_nil (resolve : jsstring -> jsstring) (output : jsstring) :
  (forall line, In line (split newline output) -> ~ error_line_shape line) ->
  errorFiles_of resolve output = [].
Proof.
  intro H. destruct (errorFiles_fold resolve (split newline output) []) as [Hin _].
  fold (errorFiles_of resolve output) in Hin.
  destruct (errorFiles_of resolve output) as [|f l]; [reflexivity|].
  destruct (proj1 (Hin f) (or_introl eq_refl)) as [[]|(line & m & Hl & Hm & _)].
  exfalso. apply (H line Hl). apply errfile_match_iff. eauto.
Qed.

(** X15.  With a [--build-filter] that is not empty, a build whose output
    has no line of the shape of an error ends the run with exit code 0: the
    compiler ran once, no session was created, no request was sent, no file
    was written, and the prompt file is the only file that was read. *)
Theorem clean_filter_build_ends_run (env : Env) (resolve : jsstring -> jsstring)
    (opts : Opts) (found : list jsstring) (project prompt : jsstring) (w : World) :
  buildFilter opts = Some project -> project <> [] ->
  fs_lookup (resolve (promptFile opts)) (fs w) = Some prompt ->
  (forall line,
      In line (split newline
                 (build_output
                    (run_build env (before_filter_build opts resolve project w) project))) ->
      ~ error_line_shape line) ->
  exists w',
    run_main env resolve opts found w = (Exit 0, w')
    /\ fs w' = fs w /\ builds w' = builds w + 1
    /\ sessions w' = sessions w /\ prompts w' = prompts w
    /\ filter is_read (trace w')
       = ARead (resolve (promptFile opts)) :: filter is_read (trace w).
Proof.
  intros Hbf Hne Hread Hclean.
  apply (errorFiles_of_nil resolve) in Hclean.
  unfold run_main, main, try_catch, bind at 1 2, readFileSync.
  rewrite Hread, (truthy_Some Hbf Hne).
  unfold getBuildErrorFiles, bind, console_log, dotnet_build, act. cbn [fs trace].
  change {| fs := fs w; trace := AStdout _ :: ARead _ :: trace w |}
    with (before_filter_build opts resolve project w).
  rewrite Hclean.
  destruct (buildOutput opts); cbn [fs trace List.length Nat.eqb process_exit];
    (eexists; split; [reflexivity|]);
    unfold builds, sessions, prompts; cbn [fs trace filter is_build is_session is_prompt is_read List.length];
    repeat split; lia.
Qed.

Lemma clean_filter_build_ends_run_witness :
  exists w',
    run_main env_no_compiler (Path.posix_resolve (lit "/")) filter_opts
      [lit "/a/F.cs"; lit "/a/G.cs"] sample_world = (Exit 0, w')
    /\ fs w' = fs sample_world /\ sessions w' = 0.
Proof.
  destruct (@clean_filter_build_ends_run env_no_compiler (Path.posix_resolve (lit "/"))
              filter_opts [lit "/a/F.cs"; lit "/a/G.cs"] (lit "/a/app.sln")
              (lit "Add a method M.") sample_world eq_refl)
    as (w' & Hrun & Hfs & _ & Hs & _).
  - discriminate.
  - reflexivity.
  - intros line Hl Hs. destruct (proj2 (errfile_match_iff line) Hs) as [m Hm].
    vm_compute in Hl. destruct Hl as [<-|[<-|[]]]; vm_compute in Hm; discriminate.
  - exists w'. split; [exact Hrun|]. split; [exact Hfs | exact Hs].
Defined.

Lemma errors_of_nil (resolve : jsstring -> jsstring) (output filePath : jsstring) :
  (forall line,
      In line (split newline output) -> error_line_shape line ->
      resolve (before is_open (trimStart line)) <> resolve filePath) ->
  errors_of resolve output filePath = [].
Proof.
  intro H. rewrite errors_of_filter.
  destruct (filter _ _) as [|line l] eqn:E; [reflexivity|].
  assert (Hin : In line (line :: l)) by now left.
  rewrite <- E in Hin. apply filter_In in Hin as [Hl Hline].
  apply is_error_for_spec in Hline as [Hs Hp]. now destruct (H line Hl Hs).
Qed.

Lemma bind_run {A B} (c : M A) (k : A -> M B) (w w1 : World) (a : A) :
  c w = (Ok a, w1) -> bind c k w = k a w1.
Proof. intro H. unfold bind. now rewrite H. Qed.

(** X16.  With a [--retry-build] that is not empty, a first check whose
    output has no error line for the file ends the retries: the compiler ran
    once, "Build succeeded." is printed, no follow-up request is sent and
    the file is not written again. *)
Theorem clean_first_check_ends_retries (env : Env) (resolve : jsstring -> jsstring)
    (opts : Opts) (project filePath sessionId : jsstring) (w : World) :
  retryBuild opts = Some project -> project <> [] ->
  (forall line,
      In line (split newline
                 (build_output (run_build env (before_first_check w) project))) ->
      error_line_shape line ->
      resolve (before is_open (trimStart line)) <> resolve filePath) ->
  retry_block env resolve opts filePath sessionId w
  = (Ok tt, logged (AStdout (lit "  Build succeeded." ++ [newline]))
              (logged (ABuild project) (before_first_check w))).
Proof.
  intros Hrb Hne Hclean. apply errors_of_nil in Hclean.
  unfold retry_block. rewrite (truthy_Some Hrb Hne). unfold maxRetries. cbn [retry_loop Nat.leb].
  erewrite bind_run by reflexivity.
  erewrite bind_run by reflexivity.
  change (logged (AStdout _) w) with (before_first_check w) in *.
  cbn [fs trace]. 
  change {| fs := fs w; trace := AStdout _ :: trace w |} with (before_first_check w).
  rewrite Hclean. reflexivity.
Qed.

Lemma clean_first_check_ends_retries_witness :
  retry_block env_no_compiler (Path.posix_resolve (lit "/")) sample_opts
    (lit "/a/F.cs") (lit "s1") sample_world
  = (Ok tt, logged (AStdout (lit "  Build succeeded." ++ [newline]))
              (logged (ABuild (lit "/a/app.sln")) (before_first_check sample_world))).
Proof.
  apply (@clean_first_check_ends_retries env_no_compiler (Path.posix_resolve (lit "/"))
           sample_opts (lit "/a/app.sln") (lit "/a/F.cs") (lit "s1") sample_world eq_refl);
    [discriminate|].
  intros line Hl Hs. destruct (proj2 (errfile_match_iff line) Hs) as [m Hm].
  vm_compute in Hl. destruct Hl as [<-|[<-|[]]]; vm_compute in Hm; discriminate.
Defined.

(** ** Failures before the [try] of a turn *)

(** X17.  A file that cannot be read, or a session that cannot be created, ends
    the loop over the files with an exception: no request is sent, no file
    is written, the compiler is not run and no later file is read.  An
    exception that leaves [main] ends the run with "Fatal error:" and exit
    code 1. *)
Theorem setup_failure_is_fatal (env : Env) (resolve : jsstring -> jsstring)
    (opts : Opts) :
  (forall prompt n i f rest w,
      setup_fails env n i f w ->
      exists e w',
        process_files env resolve opts prompt n i (f :: rest) w = (Throw e, w')
        /\ fs w' = fs w /\ prompts w' = prompts w /\ builds w' = builds w
        /\ filter is_read (trace w') = ARead f :: filter is_read (trace w))
  /\ (forall found w e w',
         main env resolve opts found w = (Throw e, w') ->
         run_main env resolve opts found w = (Exit 1, after_fatal e w')).
Proof.
  split.
  - intros prompt n i f rest w Hfail.
    cbn [process_files]. unfold process_file, bind at 1 2 3, console_log, act, readFileSync.
    cbn [fs trace].
    destruct (fs_lookup f (fs w)) as [contents|] eqn:Hread.
    + destruct Hfail as [H|Hs]; [congruence|].
      unfold bind at 1, createSession. cbn [fs trace].
      change {| fs := fs w; trace := ARead f :: _ |} with (before_session n i f w).
      destruct (create_session env (before_session n i f w)) as [| |s] eqn:E;
        [| |now destruct (Hs s)];
        (do 2 eexists; split; [reflexivity|]; repeat split).
    + do 2 eexists. split; [reflexivity|]. repeat split.
  - intros found w e w' H. unfold run_main, try_catch. rewrite H. reflexivity.
Qed.

Lemma setup_failure_is_fatal_witness :
  exists e w',
    process_files env_session_down (Path.posix_resolve (lit "/")) sample_opts
      (lit "Add a method M.") 2 0 [lit "/a/F.cs"; lit "/a/G.cs"] sample_world
    = (Throw e, w')
    /\ fs w' = fs sample_world
    /\ filter is_read (trace w') = [ARead (lit "/a/F.cs")].
Proof.
  destruct (setup_failure_is_fatal env_session_down (Path.posix_resolve (lit "/"))
              sample_opts) as [H _].
  destruct (H (lit "Add a method M.") 2 0 (lit "/a/F.cs") [lit "/a/G.cs"] sample_world)
    as (e & w' & Hrun & Hfs & _ & _ & Hreads).
  - right. intros s Hs. vm_compute in Hs. discriminate.
  - exists e, w'. split; [exact Hrun|]. split; [exact Hfs | exact Hreads].
Defined.

(** ** Errors that do not go away *)

Lemma exchange_ok (env : Env) (sessionId : jsstring) (parts : list ReqPart)
    (w : World) (events : list Event) (ending : StreamEnd) (reply : list Part) :
  subscribe env w = Subscribed events ending -> ending <> Broken ->
  prompt_reply env (after_subscribe w) sessionId parts = Data reply ->
  exists w',
    exchange env sessionId parts w = (Ok (extractCode reply), w')
    /\ fs w' = fs w /\ builds w' = builds w /\ prompts w' = prompts w + 1
    /\ writes w' = writes w.
Proof.
  intros Hsub Hne Hp.
  unfold exchange, bind, event_subscribe, try_catch, session_prompt.
  rewrite Hsub. cbn [fs trace]. fold (after_subscribe w). rewrite Hp.
  destruct (streamDone_counts sessionId events
              {| fs := fs w; trace := APrompt sessionId parts :: ASubscribe :: trace w |})
    as (w1 & Hsd & Hfs & Hb & Hpr & Hwr).
  unfold builds, prompts, writes in Hb, Hpr, Hwr.
  cbn [fs trace filter is_build is_prompt is_write] in Hfs, Hb, Hpr, Hwr.
  rewrite Hsd.
  destruct ending; [| |congruence];
    (eexists; split; [reflexivity|];
     unfold prompts, builds, writes; cbn [fs trace filter is_build is_prompt is_write];
     split; [exact Hfs|]; split; [exact Hb|]; split; [rewrite Hpr; simpl; lia | exact Hwr]).
Qed.

Section Persistent.

Variable env : Env.
Variable resolve : jsstring -> jsstring.
Variables project filePath sessionId : jsstring.

Hypothesis errors_stay :
  forall w, errors_of resolve (build_output (run_build env w project)) filePath <> [].
Hypothesis feed_ok :
  forall w, exists events ending,
      subscribe env w = Subscribed events ending /\ ending <> Broken.
Hypothesis service_ok :
  forall w parts, exists reply, prompt_reply env w sessionId parts = Data reply.
Hypothesis disk_ok : forall w, can_write env w filePath = true.

Lemma retry_loop_exhausted (maxR m attempt : nat) (w : World) :
  attempt + m = maxR + 1 -> 1 <= m ->
  exists w',
    retry_loop env resolve maxR project filePath sessionId m attempt w = (Ok tt, w')
    /\ builds w' = builds w + m + 1 /\ prompts w' = prompts w + m
    /\ writes w' = writes w + m.
Proof.
  revert attempt w. induction m as [|m IH]; intros attempt w Hm H1; [lia|].
  cbn [retry_loop]. rewrite (leb_correct attempt maxR) by lia.
  erewrite bind_run by reflexivity.
  erewrite bind_run by reflexivity.
  destruct (errors_of resolve _ filePath) as [|e errors] eqn:He;
    [now destruct (errors_stay _ He)|].
  cbn [List.length Nat.eqb].
  erewrite bind_run by reflexivity.
  match goal with
  | |- context [bind (sendFollowUp env sessionId ?msg) _ ?w0] =>
      destruct (feed_ok w0) as (events & ending & Hsub & Hne);
      destruct (service_ok (after_subscribe w0) [ReqText msg]) as (reply & Hp);
      destruct (@exchange_ok env sessionId [ReqText msg] w0 events ending reply
                  Hsub Hne Hp) as (w1 & Hx & Hfs1 & Hb1 & Hp1 & Hw1)
  end.
  erewrite bind_run by exact Hx.
  unfold bind at 1, writeFileSync. rewrite disk_ok.
  erewrite bind_run by reflexivity.
  destruct (attempt =? maxR) eqn:Ha.
  - apply Nat.eqb_eq in Ha. assert (m = 0) by lia. subst m.
    unfold bind at 1 2, getBuildErrors at 1. unfold bind at 1, dotnet_build, ret.
    cbn [fs trace].
    match goal with |- context [if ?b then _ else _] => destruct b end;
      (cbn [retry_loop]; eexists; split; [reflexivity|];
       unfold builds, prompts, writes in *;
       cbn [fs trace filter is_build is_prompt is_write List.length] in *;
       repeat split; lia).
  - apply Nat.eqb_neq in Ha. erewrite bind_run by reflexivity.
    destruct (IH (S attempt)
                (logged (AStdout (lit "  Written retry." ++ [newline]))
                   (written filePath (extractCode reply) w1)))
      as (w' & Hrun & Hb & Hp' & Hw); [lia | lia |].
    exists w'. split; [exact Hrun|].
    unfold builds, prompts, writes in *.
    cbn [fs trace filter is_build is_prompt is_write List.length logged written] in *.
    repeat split; lia.
Qed.

End Persistent.

(** X18.  With a [--retry-build] that is not empty, errors for the file that
    stay whatever is written, a service that answers every request and a
    disk that takes every write, the retries run to the end: [maxRetries]
    follow-up requests and as many writes of the file, and one compiler run
    more than that. *)
Theorem persistent_errors_use_all_retries (env : Env) (resolve : jsstring -> jsstring)
    (opts : Opts) (project filePath sessionId : jsstring) (w : World) :
  retryBuild opts = Some project -> project <> [] ->
  (forall w0, errors_of resolve (build_output (run_build env w0 project)) filePath <> []) ->
  (forall w0, exists events ending,
        subscribe env w0 = Subscribed events ending /\ ending <> Broken) ->
  (forall w0 parts, exists reply, prompt_reply env w0 sessionId parts = Data reply) ->
  (forall w0, can_write env w0 filePath = true) ->
  exists w',
    retry_block env resolve opts filePath sessionId w = (Ok tt, w')
    /\ builds w' = builds w + maxRetries + 1
    /\ prompts w' = prompts w + maxRetries
    /\ writes w' = writes w + maxRetries.
Proof.
  intros Hrb Hne He Hf Hs Hd. unfold retry_block. rewrite (truthy_Some Hrb Hne).
  apply retry_loop_exhausted; auto; unfold maxRetries; lia.
Qed.

Lemma persistent_errors_use_all_retries_witness :
  exists w',
    retry_block env_stubborn (Path.posix_resolve (lit "/")) sample_opts
      (lit "/a/F.cs") (lit "s1") sample_world = (Ok tt, w')
    /\ builds w' = 4 /\ prompts w' = 3 /\ writes w' = 3.
Proof.
  destruct (@persistent_errors_use_all_retries env_stubborn (Path.posix_resolve (lit "/"))
              sample_opts (lit "/a/app.sln") (lit "/a/F.cs") (lit "s1") sample_world
              eq_refl) as (w' & Hrun & Hb & Hp & Hw).
  - discriminate.
  - intros w0 H. vm_compute in H. discriminate.
  - intro w0. exists [], Exhausted. split; [reflexivity | discriminate].
  - intros w0 parts. exists sample_reply. reflexivity.
  - intro w0. reflexivity.
  - exists w'. split; [exact Hrun|]. split; [exact Hb|]. split; [exact Hp | exact Hw].
Defined.

(** * Failures while one file is processed, in full *)









(** The whole run with a feed that throws while the first request is
    awaited: the process ends with exit code 1 and the second file is never
    read. *)
Example feed_failure_ends_run :
  exists w',
    run_main env_feed_breaks (Path.posix_resolve (lit "/")) sample_opts
      [lit "/a/F.cs"; lit "/a/G.cs"] sample_world = (Exit 1, w')
    /\ reads w' = [ARead (lit "/a/F.cs"); ARead (lit "/p.txt")]
    /\ fs w' = fs sample_world.
Proof. eexists. split; [vm_compute; reflexivity|]. split; reflexivity. Qed.

(** * The openings the expression takes *)

(** What the expression takes for an opening: after the three backticks, a
    tag without white space that a newline follows is csharp, cs or
    nothing. *)
Lemma opening_accepts_only (tag s : jsstring) :
  plain_tag tag = true ->
  run fence_re (MState 0 (fence ++ tag ++ newline :: s) None) <> [] ->
  In tag accepted_tags.
Proof.
  intros Hplain Hrun.
  destruct (run fence_re (MState 0 (fence ++ tag ++ newline :: s) None))
    as [|st' l] eqn:E; [now destruct Hrun|].
  destruct (@run_sound fence_re (MState 0 (fence ++ tag ++ newline :: s) None) st')
    as (w & Hw & _ & Hlang); [rewrite E; now left|].
  cbn [rest] in Hw. unfold fence_re in Hlang. cbn [lang Opt] in Hlang.
  destruct Hlang as (f & r1 & -> & Hf & o & r2 & -> & Ho & ws & r3 & -> & Hws
                     & nl & r4 & -> & (c & -> & Hc) & _).
  apply lang_Lit in Hf. subst f. apply char_eqb_eq in Hc. subst c.
  rewrite <- !app_assoc in Hw. apply app_inv_head in Hw.
  assert (Hcases : o = lit "csharp" \/ o = lit "cs" \/ o = []).
  { destruct Ho as [[Ho|Ho]|Ho].
    - left. now apply lang_Lit in Ho.
    - right. left. now apply lang_Lit in Ho.
    - right. right. exact Ho. }
  assert (Ho' : forallb (fun e => negb (is_space e)) o = true).
  { destruct Hcases as [->|[->| ->]]; reflexivity. }
  assert (Htag : tag = o).
  { destruct ws as [|d ws].
    - cbn [app] in Hw.
      apply (@first_space_unique tag o s (r4 ++ rest st') newline newline);
        [now apply plain_tag_no_space | exact Ho' | reflexivity | reflexivity | exact Hw].
    - cbn [forallb] in Hws. apply andb_true_iff in Hws as [Hd _].
      cbn [app] in Hw. rewrite <- ?app_assoc in Hw. cbn [app] in Hw.
      apply (@first_space_unique tag o s (ws ++ newline :: r4 ++ rest st') newline d);
        [now apply plain_tag_no_space | exact Ho' | reflexivity | exact Hd | exact Hw]. }
  subst tag. unfold accepted_tags.
  destruct Hcases as [->|[->| ->]]; simpl; auto.
Qed.

(** C8, as the code has it.  The language tag of the opening fence is
    matched as written: the spellings csharp and cs, in lower case, and no
    tag at all are accepted and lead to the same extraction for every
    content; a tag in any other casing of csharp or cs is not recognised,
    and a text that is one such block around a content without fence
    markers is returned whole by the fallback.  These three are the only
    openings: among the tags without white space and without backtick, a
    block around a content without fence marker has a match exactly when
    its tag is csharp, cs or empty, and with any other tag it is returned
    whole. *)
Theorem language_tag_is_case_sensitive :
  (forall X : jsstring,
      extractCode [TextPart (fenced (lit "csharp") X)]
      = extractCode [TextPart (fenced (lit "cs") X)]
      /\ extractCode [TextPart (fenced (lit "cs") X)]
         = extractCode [TextPart (fenced [] X)])
  /\ (forall tag X : jsstring,
         In tag (casings (lit "csharp") ++ casings (lit "cs")) ->
         tag <> lit "csharp" -> tag <> lit "cs" ->
         has_fence X = false ->
         exec fence_re (fenced tag X) = None
         /\ extractCode [TextPart (fenced tag X)] = fenced tag X ++ [newline])
  /\ (forall tag X : jsstring,
         plain_tag tag = true -> has_fence X = false ->
         ((exists c, exec fence_re (fenced tag X) = Some c) <-> In tag accepted_tags)
         /\ (~ In tag accepted_tags ->
             extractCode [TextPart (fenced tag X)] = fenced tag X ++ [newline])).
Proof.
  split; [|split].
  - intro X. rewrite !extractCode_single by apply fenced_not_nil.
    destruct (exec_fenced_accepted X) as (c & -> & -> & ->). split; reflexivity.
  - intros tag X Hin Hne1 Hne2 HX.
    pose proof other_casings_rejected as Hall.
    rewrite Forall_forall in Hall. destruct (Hall tag Hin) as [Hrun Htag].
    { apply orb_false_iff. split.
      - destruct (str_eqb tag (lit "csharp")) eqn:E; [|reflexivity].
        apply str_eqb_eq in E. contradiction.
      - destruct (str_eqb tag (lit "cs")) eqn:E; [|reflexivity].
        apply str_eqb_eq in E. contradiction. }
    apply rejected_opening_falls_back; [apply Hrun | exact Htag | exact HX].
  - intros tag X Hplain HX.
    assert (Hrej : ~ In tag accepted_tags ->
                   exec fence_re (fenced tag X) = None
                   /\ extractCode [TextPart (fenced tag X)] = fenced tag X ++ [newline]).
    { intro Hout. apply rejected_opening_falls_back;
        [|now apply plain_tag_no_fence | exact HX].
      destruct (run fence_re (MState 0 (fenced tag X) None)) as [|st l] eqn:E;
        [reflexivity|].
      destruct Hout. apply (@opening_accepts_only tag (X ++ newline :: fence) Hplain).
      unfold fenced in E. rewrite E. discriminate. }
    split; [split|].
    + intros [c Hc].
      destruct (run fence_re (MState 0 (fenced tag X) None)) as [|st l] eqn:E.
      * destruct (@rejected_opening_falls_back tag X E
                    (plain_tag_no_fence tag Hplain) HX) as [Hnone _].
        congruence.
      * apply (@opening_accepts_only tag (X ++ newline :: fence) Hplain).
        unfold fenced in E. rewrite E. discriminate.
    + intro Hin. destruct (exec_fenced_accepted X) as (c & H1 & H2 & H3).
      exists c. unfold accepted_tags in Hin.
      destruct Hin as [<-|[<-|[<-|[]]]]; assumption.
    + intro Hout. now apply Hrej.
Qed.

Lemma language_tag_is_case_sensitive_witness :
  (In (lit "CSharp") (casings (lit "csharp") ++ casings (lit "cs"))
   /\ lit "CSharp" <> lit "csharp" /\ lit "CSharp" <> lit "cs"
   /\ has_fence (lit "X") = false
   /\ extractCode [TextPart (fenced (lit "CSharp") (lit "X"))]
      = fenced (lit "CSharp") (lit "X") ++ [newline])
  /\ (plain_tag (lit "java") = true /\ ~ In (lit "java") accepted_tags
      /\ extractCode [TextPart (fenced (lit "java") (lit "X"))]
         = fenced (lit "java") (lit "X") ++ [newline]).
Proof.
  assert (Hin : In (lit "CSharp") (casings (lit "csharp") ++ casings (lit "cs"))).
  { vm_compute. repeat (first [left; reflexivity | right]). }
  assert (Hout : ~ In (lit "java") accepted_tags).
  { intros [H|[H|[H|[]]]]; discriminate H. }
  destruct language_tag_is_case_sensitive as (_ & H & Hexact).
  split.
  - split; [exact Hin|]. split; [discriminate|]. split; [discriminate|].
    split; [reflexivity|].
    apply (H (lit "CSharp") (lit "X") Hin); [discriminate | discriminate | reflexivity].
  - split; [reflexivity|]. split; [exact Hout|].
    destruct (Hexact (lit "java") (lit "X") eq_refl eq_refl) as [_ Hfall].
    exact (Hfall Hout).
Defined.

(** * The files a run reads *)












